(** * Shot production pipeline of BigBanana-AI-Director: a shallow embedding

    The development follows the TypeScript sources of the director stage:
    - [components/StageDirector/utils.ts]: reference resolver, prompt
      assembler, keyframe helpers (and its later revision with the
      sectioned keyframe prompt, module [Enhanced]);
    - [components/StageDirector/index.tsx]: keyframe, video, continuity,
      batch and edit handlers;
    - the single-file revision of the stage: the camera-movement guide
      table ([getCameraMovementCompositionGuide]) and the earlier video and
      batch handlers (module [Legacy]);
    - [components/StageDirector/constants.ts]: style table, video
      templates, defaults, nine-grid constants;
    - [components/StageDirector/NineGridPreview.tsx]: the clickable 3x3
      overlay.

    Modelling choices.
    - A JavaScript string is a [string]; [indexOf], [includes],
      [substring], [replace] work on the sequence of characters and the
      statements do not depend on the alphabet.  [toLowerCase] folds the
      ASCII capitals only.
    - Optional fields ([imageUrl?], [keyframes?], [interval?], ...) are
      options; the truthiness test of an optional string is [Js.truthy].
      Ids are strings, so [String(id)] is the identity.
    - A handler is a computation in the monad [M]: it reads and updates
      the latest project state through [updateProject], appends what it
      shows or sends to a trace, may throw, and gets the answers of the
      outside world (image and video services, file reader, [Date.now],
      [window.confirm]) from an oracle indexed by the number of questions
      asked so far.  The [project] and [shot] a handler closes over are
      explicit arguments: they are the values of the render in which the
      handler was created, not the latest state. *)

From Stdlib Require Import Ascii String ZArith QArith Lia.
From stdpp Require Import base list strings gmap pretty.

Local Open Scope string_scope.
Local Open Scope Z_scope.
Local Open Scope list_scope.

(** ** JavaScript string primitives *)

Module Js.

(** [pat] is a prefix of [s] *)
Fixpoint startsWith (pat s : string) : bool :=
  match pat, s with
  | EmptyString, _ => true
  | String a pat', String b s' =>
      if Ascii.eqb a b then startsWith pat' s' else false
  | String _ _, EmptyString => false
  end.

(** position of the first occurrence of [pat] in [s], scanning from the left *)
Fixpoint firstOccurrence (pat s : string) : option nat :=
  if startsWith pat s then Some 0%nat
  else match s with
       | EmptyString => None
       | String _ s' => S <$> firstOccurrence pat s'
       end.

(** [s.indexOf(pat)]: the index of the first occurrence, or -1 *)
Definition indexOf (s pat : string) : Z :=
  match firstOccurrence pat s with
  | Some n => Z.of_nat n
  | None => -1
  end.

(** [s.includes(pat)] *)
Definition includes (s pat : string) : bool :=
  match firstOccurrence pat s with
  | Some _ => true
  | None => false
  end.

Fixpoint take (n : nat) (s : string) : string :=
  match n, s with
  | S n', String c s' => String c (take n' s')
  | _, _ => EmptyString
  end.

Fixpoint drop (n : nat) (s : string) : string :=
  match n, s with
  | S n', String _ s' => drop n' s'
  | _, _ => s
  end.

(** [s.substring(from, to)]: both indices are clamped to [0, length] and
    swapped when [from > to] *)
Definition substring (s : string) (from to : Z) : string :=
  let len := Z.of_nat (String.length s) in
  let clamp i := Z.max 0 (Z.min i len) in
  let a := Z.min (clamp from) (clamp to) in
  let b := Z.max (clamp from) (clamp to) in
  take (Z.to_nat (b - a)) (drop (Z.to_nat a) s).

Definition lowerChar (c : ascii) : ascii :=
  let n := nat_of_ascii c in
  if ((65 <=? n) && (n <=? 90))%nat then ascii_of_nat (n + 32) else c.

(** [s.toLowerCase()] on the ASCII letters; the keys of the guide table are
    plain ASCII *)
Fixpoint toLowerCase (s : string) : string :=
  match s with
  | EmptyString => EmptyString
  | String c s' => String (lowerChar c) (toLowerCase s')
  end.

(** expansion of the replacement text of [String.prototype.replace] for a
    string pattern: [$$], [$&], [$`] and [$'] are special, any other [$]
    stands for itself (a string pattern has no capture groups) *)
Fixpoint getSubstitution (repl matched before after : string) : string :=
  match repl with
  | EmptyString => EmptyString
  | String c0 rest =>
      if Ascii.eqb c0 "$" then
        match rest with
        | String c r =>
            if Ascii.eqb c "$" then "$" +:+ getSubstitution r matched before after
            else if Ascii.eqb c "&" then matched +:+ getSubstitution r matched before after
            else if Ascii.eqb c "`" then before +:+ getSubstitution r matched before after
            else if Ascii.eqb c "'" then after +:+ getSubstitution r matched before after
            else String "$" (getSubstitution rest matched before after)
        | EmptyString => "$"
        end
      else String c0 (getSubstitution rest matched before after)
  end.

(** [s.replace(pat, repl)] with a string pattern: only the first occurrence
    is replaced *)
Definition replace (s pat repl : string) : string :=
  match firstOccurrence pat s with
  | None => s
  | Some i =>
      let before := take i s in
      let after := drop (i + String.length pat) s in
      before +:+ getSubstitution repl pat before after +:+ after
  end.

(** truthiness of an optional string: [undefined] and [""] are falsy *)
Definition truthy (o : option string) : bool :=
  match o with
  | Some s => negb (String.eqb s "")
  | None => false
  end.

(** [a || b] on optional strings *)
Definition orElse (a : option string) (b : option string) : option string :=
  if truthy a then a else b.

(** [a || d] where [d] is a string *)
Definition orDefault (a : option string) (d : string) : string :=
  match a with
  | Some s => if String.eqb s "" then d else s
  | None => d
  end.

(** a pattern is bordered when one of its proper non-empty suffixes is
    also a prefix of it *)
Definition bordered (m : string) : bool :=
  existsb (fun k => startsWith (drop k m) m)
          (seq 1 (String.length m - 1)).

End Js.

(** ** Data model (types of the project state) *)

Inductive FrameType := Start | End.

Inductive Status := Pending | Generating | Completed | Failed.

Inductive VideoModel := Sora2 | VeoFast.

#[global] Instance FrameType_eq_dec : EqDecision FrameType.
Proof. solve_decision. Defined.
#[global] Instance Status_eq_dec : EqDecision Status.
Proof. solve_decision. Defined.
#[global] Instance VideoModel_eq_dec : EqDecision VideoModel.
Proof. solve_decision. Defined.

Record Keyframe := mkKeyframe {
  kf_id : string;
  kf_type : FrameType;
  visualPrompt : string;
  imageUrl : option string;
  kf_status : Status
}.

Record Interval := mkInterval {
  int_id : string;
  startKeyframeId : string;
  endKeyframeId : string;
  duration : Z;
  motionStrength : Z;
  videoPrompt : option string;
  videoUrl : option string;
  int_status : Status
}.

Record Shot := mkShot {
  shot_id : string;
  sceneId : string;
  actionSummary : string;
  cameraMovement : string;
  characters : option (list string);
  characterVariations : option (gmap string string);
  keyframes : option (list Keyframe);
  interval : option Interval;
  videoModel : option VideoModel
}.

Record Variation := mkVariation {
  var_id : string;
  var_name : string;
  var_referenceImage : option string
}.

Record Character := mkCharacter {
  char_id : string;
  char_name : string;
  char_referenceImage : option string;
  variations : option (list Variation)
}.

Record Scene := mkScene {
  scene_id : string;
  location : string;
  scene_referenceImage : option string
}.

Record ScriptData := mkScriptData {
  sd_characters : list Character;
  sd_scenes : list Scene;
  sd_visualStyle : option string;
  sd_language : option string
}.

Record ProjectState := mkProject {
  shots : list Shot;
  visualStyle : option string;
  language : option string;
  scriptData : option ScriptData
}.

(** [arr.find(p)] and [arr.findIndex(p)] *)
Definition find {A} (p : A -> bool) (l : list A) : option A :=
  snd <$> list_find (fun x => p x = true) l.

Definition findIndex {A} (p : A -> bool) (l : list A) : option nat :=
  fst <$> list_find (fun x => p x = true) l.

(** [shot.keyframes?.find(k => k.type === type)] *)
Definition findKeyframe (s : Shot) (type : FrameType) : option Keyframe :=
  keyframes s ≫= find (fun k => bool_decide (kf_type k = type)).

(** ** Camera-movement guide table *)

Record Guide := mkGuide { g_start : string; g_end : string }.

(** the entries of [guides], in the order of the object literal, which is
    the order in which [Object.entries] enumerates them *)
Definition guides : list (string * Guide) :=
  [ ("horizontal left shot",
     mkGuide "Composition: Subject positioned on the right side of frame, with space on the left for movement."
             "Composition: Subject moved to left side of frame, showing the journey from right to left.");
    ("horizontal right shot",
     mkGuide "Composition: Subject positioned on the left side of frame, with space on the right for movement."
             "Composition: Subject moved to right side of frame, showing the journey from left to right.");
    ("pan left shot",
     mkGuide "Composition: Frame focused on right portion of scene, anticipating leftward pan."
             "Composition: Frame reveals left portion of scene, completing the pan movement.");
    ("pan right shot",
     mkGuide "Composition: Frame focused on left portion of scene, anticipating rightward pan."
             "Composition: Frame reveals right portion of scene, completing the pan movement.");
    ("zoom in shot",
     mkGuide "Composition: Wide establishing shot showing full scene context, subject smaller in frame."
             "Composition: Tight close-up on subject, filling frame with detail and intimacy.");
    ("zoom out shot",
     mkGuide "Composition: Close-up on subject, emphasizing details and emotion."
             "Composition: Wide pullback revealing surrounding environment and context.");
    ("dolly shot",
     mkGuide "Composition: Initial framing with subject at specific distance and perspective."
             "Composition: Changed perspective with subject closer/further, revealing depth and space.");
    ("tilt up shot",
     mkGuide "Composition: Camera angle pointing downward or level, capturing lower portion of subject."
             "Composition: Camera tilted upward, revealing height and vertical expanse above.");
    ("tilt down shot",
     mkGuide "Composition: Camera angle pointing upward or level, emphasizing upper portion."
             "Composition: Camera tilted downward, revealing lower elements and ground level.");
    ("vertical up shot",
     mkGuide "Composition: Lower vertical position, subject at bottom of frame or ground level."
             "Composition: Elevated position, subject risen vertically showing upward movement.");
    ("vertical down shot",
     mkGuide "Composition: Elevated vertical position, subject higher in frame."
             "Composition: Lower position, subject descended showing downward movement.");
    ("tracking shot",
     mkGuide "Composition: Subject in frame with forward/lateral space for tracking movement."
             "Composition: Subject tracked through space, maintaining visual relationship.");
    ("circular shot",
     mkGuide "Composition: Subject centered, camera at initial angle of circular path."
             "Composition: Subject still centered, camera at opposite side revealing new angle.");
    ("360-degree circular shot",
     mkGuide "Composition: Subject centered, camera beginning 360° orbit."
             "Composition: Subject centered, camera completing full revolution from different angle.");
    ("low angle shot",
     mkGuide "Composition: Low camera angle looking upward, emphasizing height and power."
             "Composition: Maintained low angle, subject towering with dramatic perspective.");
    ("high angle shot",
     mkGuide "Composition: High camera angle looking downward, creating overview perspective."
             "Composition: Maintained high angle, emphasizing scale and spatial relationships.");
    ("bird's eye view shot",
     mkGuide "Composition: Directly overhead view, showing layout and patterns from above."
             "Composition: Continued overhead perspective, revealing changed spatial arrangement.");
    ("pov shot",
     mkGuide "Composition: First-person perspective from character's viewpoint."
             "Composition: Maintained POV, showing what character sees after movement/action.");
    ("over the shoulder shot",
     mkGuide "Composition: Frame includes foreground character's shoulder, looking at subject."
             "Composition: Maintained over-shoulder framing, possibly with shifted focus or angle.");
    ("handheld shot",
     mkGuide "Composition: Dynamic handheld framing with natural movement and energy."
             "Composition: Continued handheld aesthetic with organic repositioning.");
    ("static shot",
     mkGuide "Composition: Fixed camera position, stable framing throughout."
             "Composition: Same camera position, only subject movement within frame.");
    ("rotating shot",
     mkGuide "Composition: Subject in frame, camera beginning rotational movement."
             "Composition: Subject with changed orientation due to camera rotation.");
    ("slow motion shot",
     mkGuide "Composition: Action captured at beginning of slow-motion sequence."
             "Composition: Action progressed, emphasizing graceful movement detail.");
    ("parallel tracking shot",
     mkGuide "Composition: Subject with camera tracking parallel alongside."
             "Composition: Maintained parallel relationship, subject moved through space.");
    ("diagonal tracking shot",
     mkGuide "Composition: Subject with camera on diagonal tracking path."
             "Composition: Diagonal perspective maintained, dynamic spatial progression.");
    ("canted shot",
     mkGuide "Composition: Tilted horizon line creating dutch angle, dynamic unease."
             "Composition: Maintained or adjusted dutch angle, emphasizing disorientation.");
    ("cinematic dolly zoom",
     mkGuide "Composition: Initial balanced framing before vertigo effect."
             "Composition: Distorted perspective with foreground/background relationship altered.")
  ].

Definition genericGuide : Guide :=
  mkGuide "Composition: Initial frame composition suited for the camera movement."
          "Composition: Final frame composition showing the result of camera movement.".

Definition pick (frameType : FrameType) (g : Guide) : string :=
  match frameType with Start => g_start g | End => g_end g end.

(** the test of the [for] loop: [movement.includes(key) || key.includes(movement)] *)
Definition matches (movement key : string) : bool :=
  Js.includes movement key || Js.includes key movement.

(** the [for ... of Object.entries(guides)] loop with its early [return] *)
Fixpoint lookupGuide (movement : string) (entries : list (string * Guide)) : option Guide :=
  match entries with
  | [] => None
  | (key, value) :: rest =>
      if matches movement key then Some value else lookupGuide movement rest
  end.

Definition getCameraMovementCompositionGuide
    (cameraMovement : string) (frameType : FrameType) : string :=
  let movement := Js.toLowerCase cameraMovement in
  match lookupGuide movement guides with
  | Some value => pick frameType value
  | None => pick frameType genericGuide
  end.

(** ** Constants of the director stage *)

Definition nl : string := String (ascii_of_nat 10) EmptyString.

(** own properties of [VISUAL_STYLE_PROMPTS]; properties inherited from
    [Object.prototype] are not modelled *)
Definition VISUAL_STYLE_PROMPTS : list (string * string) :=
  [ ("live-action", "photorealistic, cinematic film quality, real human actors, professional cinematography, natural lighting, 8K resolution");
    ("anime", "Japanese anime style, cel-shaded, vibrant colors, expressive eyes, dynamic poses, Studio Ghibli/Makoto Shinkai quality");
    ("2d-animation", "classic 2D animation, hand-drawn style, Disney/Pixar quality, smooth lines, expressive characters, painterly backgrounds");
    ("3d-animation", "high-quality 3D CGI animation, Pixar/DreamWorks style, subsurface scattering, detailed textures, stylized characters");
    ("cyberpunk", "cyberpunk aesthetic, neon-lit, rain-soaked streets, holographic displays, high-tech low-life, Blade Runner style");
    ("oil-painting", "oil painting style, visible brushstrokes, rich textures, classical art composition, museum quality fine art") ].

Definition lookupProp (table : list (string * string)) (key : string) : option string :=
  snd <$> find (fun kv => String.eqb (fst kv) key) table.

Module VIDEO_PROMPT_TEMPLATES.

Definition sora2_chinese : string :=
"基于提供的参考图片生成视频。

动作描述：{actionSummary}

技术要求：
- 关键：视频必须从参考图片的精确构图和画面内容开始，自然展开后续动作
- 镜头运动：{cameraMovement}
- 运动：确保动作流畅自然，避免突兀的跳跃或不连续
- 视觉风格：电影质感，全程保持一致的光照和色调
- 细节：保持角色外观和场景环境的全程一致性
- 语言：配音和字幕使用中文".

Definition sora2_english : string :=
"Generate a video based on the provided reference image.

Action Description: {actionSummary}

Technical Requirements:
- CRITICAL: The video MUST begin with the exact composition and content of the reference image, then naturally develop the subsequent action
- Camera Movement: {cameraMovement}
- Motion: Ensure smooth and natural movement, avoid abrupt jumps or discontinuities
- Visual Style: Cinematic quality with consistent lighting and color tone throughout
- Details: Maintain character appearance and scene environment consistency throughout
- Language: Use {language} for voiceover and subtitles".

Definition veo_simple : string :=
"{actionSummary}

镜头运动：{cameraMovement}
配音语言：使用{language}配音".

End VIDEO_PROMPT_TEMPLATES.

Module DEFAULTS.
Definition videoModel : VideoModel := Sora2.
Definition batchGenerateDelay : Z := 3000.
End DEFAULTS.

Module NINE_GRID.
Definition panelCount : nat := 9.
Definition positionLabels : list string :=
  [ "左上 (Top-Left)"; "中上 (Top-Center)"; "右上 (Top-Right)";
    "左中 (Middle-Left)"; "正中 (Center)"; "右中 (Middle-Right)";
    "左下 (Bottom-Left)"; "中下 (Bottom-Center)"; "右下 (Bottom-Right)" ].
End NINE_GRID.

(** ** utils.ts *)

(** the value of a truthy optional string *)
Definition nonEmpty (o : option string) : option string :=
  match o with
  | Some s => if String.eqb s "" then None else Some s
  | None => None
  end.

(** body of the [forEach] callback of [getRefImagesForShot]: returns the
    array after the pushes of one character *)
Definition pushCharacterImage (sd : ScriptData) (shot : Shot)
    (referenceImages : list string) (charId : string) : list string :=
  match find (fun c => String.eqb (char_id c) charId) (sd_characters sd) with
  | None => referenceImages
  | Some char =>
      let varId := characterVariations shot ≫= (fun m => m !! charId) in
      let variationImage :=
        match nonEmpty varId with
        | Some vid =>
            match variations char ≫= find (fun v => String.eqb (var_id v) vid) with
            | Some variation => nonEmpty (var_referenceImage variation)
            | None => None
            end
        | None => None
        end in
      match variationImage with
      | Some img => referenceImages ++ [img]
      | None =>
          match nonEmpty (char_referenceImage char) with
          | Some img => referenceImages ++ [img]
          | None => referenceImages
          end
      end
  end.

Definition getRefImagesForShot (shot : Shot) (scriptData : option ScriptData) : list string :=
  let referenceImages : list string := [] in
  match scriptData with
  | None => referenceImages
  | Some sd =>
      let scene := find (fun s => String.eqb (scene_id s) (sceneId shot)) (sd_scenes sd) in
      let referenceImages :=
        match nonEmpty (scene ≫= scene_referenceImage) with
        | Some img => referenceImages ++ [img]
        | None => referenceImages
        end in
      match characters shot with
      | Some chars => fold_left (pushCharacterImage sd shot) chars referenceImages
      | None => referenceImages
      end
  end.

Definition frameLabel (frameType : FrameType) : string :=
  match frameType with Start => "Initial" | End => "Final" end.

Definition buildKeyframePrompt
    (basePrompt visualStyle cameraMovement : string) (frameType : FrameType) : string :=
  let stylePrompt := Js.orDefault (lookupProp VISUAL_STYLE_PROMPTS visualStyle) visualStyle in
  let cameraGuide := getCameraMovementCompositionGuide cameraMovement frameType in
  basePrompt +:+ nl +:+ nl +:+ "Visual Style: " +:+ stylePrompt +:+ nl +:+ nl +:+
  "Camera Movement: " +:+ cameraMovement +:+ " (" +:+ frameLabel frameType +:+ " frame)" +:+ nl +:+
  cameraGuide +:+ nl +:+ nl +:+
  "Visual Requirements: High definition, cinematic composition, 16:9 widescreen format. Focus on lighting hierarchy, color saturation, and depth of field effects. Ensure the subject is clear and the background transitions naturally.".

Definition buildVideoPrompt
    (actionSummary cameraMovement : string) (videoModel : VideoModel) (language : string) : string :=
  let isChinese := String.eqb language "中文" || String.eqb language "Chinese" in
  match videoModel with
  | Sora2 =>
      let template := if isChinese then VIDEO_PROMPT_TEMPLATES.sora2_chinese
                      else VIDEO_PROMPT_TEMPLATES.sora2_english in
      Js.replace
        (Js.replace (Js.replace template "{actionSummary}" actionSummary)
                    "{cameraMovement}" cameraMovement)
        "{language}" language
  | VeoFast =>
      Js.replace
        (Js.replace (Js.replace VIDEO_PROMPT_TEMPLATES.veo_simple "{actionSummary}" actionSummary)
                    "{cameraMovement}" cameraMovement)
        "{language}" (if isChinese then "中文" else language)
  end.

(** the marker searched by [extractBasePrompt]: two line feeds followed by
    [Visual Style:] *)
Definition styleMarker : string := nl +:+ nl +:+ "Visual Style:".

Definition extractBasePrompt (fullPrompt fallback : string) : string :=
  let visualStyleIndex := Js.indexOf fullPrompt styleMarker in
  if 0 <? visualStyleIndex then Js.substring fullPrompt 0 visualStyleIndex
  else Js.orDefault (Some fullPrompt) fallback.

(** [generateId(prefix)], given the value read from [Date.now()] *)
Definition generateId (prefix : string) (now : Z) : string :=
  prefix +:+ "-" +:+ pretty now.

Definition createKeyframe (id : string) (type : FrameType) (visualPrompt : string)
    (imageUrl : option string) (status : Status) : Keyframe :=
  mkKeyframe id type visualPrompt imageUrl status.

Definition withKeyframes (shot : Shot) (kfs : list Keyframe) : Shot :=
  mkShot (shot_id shot) (sceneId shot) (actionSummary shot) (cameraMovement shot)
         (characters shot) (characterVariations shot) (Some kfs)
         (interval shot) (videoModel shot).

Definition updateKeyframeInShot (shot : Shot) (type : FrameType) (keyframe : Keyframe) : Shot :=
  let newKeyframes := default [] (keyframes shot) in
  let idx := findIndex (fun k => bool_decide (kf_type k = type)) newKeyframes in
  let newKeyframes :=
    match idx with
    | Some i => <[i := keyframe]> newKeyframes
    | None => newKeyframes ++ [keyframe]
    end in
  withKeyframes shot newKeyframes.

(** ** Effects of the handlers

    A handler runs against the latest project state (the argument of the
    functional [updateProject]), talks to the outside world (image and
    video services, [Date.now], [window.confirm], [alert], [console.error])
    and may throw.  The answers of the outside world are taken from an
    oracle indexed by the number of questions asked so far, so that every
    behaviour of the services is covered. *)

Record JsError := mkError { message : string }.

Inductive Event :=
| EAlert (msg : string)
| EConsoleError (msg : string)
| EGenerateImage (prompt : string) (referenceImages : list string)
| EGenerateVideo (prompt : string) (startImage : string)
                 (endImage : option string) (model : VideoModel)
| EDelay (ms : Z)
| EConfirm (msg : string)
| EReadFile
| ESetBatchProgress (progress : option (nat * nat * string)).

Record Env := mkEnv {
  imageResult : nat -> JsError + string;
  videoResult : nat -> JsError + string;
  fileResult : nat -> JsError + string;
  dateNow : nat -> Z;
  confirmResult : nat -> bool;
  onApiKeyError : option (JsError -> bool)
}.

Record World := mkWorld {
  project : ProjectState;
  trace : list Event;
  tick : nat
}.

Inductive Outcome (A : Type) :=
| Ret (a : A)
| Throw (e : JsError).
Arguments Ret {A} a.
Arguments Throw {A} e.

Definition M (A : Type) : Type := World -> Outcome A * World.

Definition ret {A} (a : A) : M A := fun w => (Ret a, w).

Definition bind {A B} (m : M A) (k : A -> M B) : M B :=
  fun w => match m w with
           | (Ret a, w') => k a w'
           | (Throw e, w') => (Throw e, w')
           end.

Notation "x <~ c ;; k" := (bind c (fun x => k))
  (at level 100, c at next level, right associativity).
Notation "c ;;; k" := (bind c (fun _ => k))
  (at level 100, right associativity).

(** [try { body } catch (e) { handler e }] *)
Definition tryCatch {A} (body : M A) (handler : JsError -> M A) : M A :=
  fun w => match body w with
           | (Ret a, w') => (Ret a, w')
           | (Throw e, w') => handler e w'
           end.

Definition emit (ev : Event) : M unit :=
  fun w => (Ret tt, mkWorld (project w) (trace w ++ [ev]) (tick w)).

(** ask the outside world: the answer is read at the current tick *)
Definition ask {A} (answer : nat -> A) : M A :=
  fun w => (Ret (answer (tick w)), mkWorld (project w) (trace w) (S (tick w))).

(** [await p] for a promise that resolves or rejects *)
Definition await (r : M (JsError + string)) : M string :=
  x <~ r ;; match x with inl e => (fun w => (Throw e, w)) | inr v => ret v end.

(** [updateProject(prev => f prev)] *)
Definition updateProject (f : ProjectState -> ProjectState) : M unit :=
  fun w => (Ret tt, mkWorld (f (project w)) (trace w) (tick w)).

Definition alert (msg : string) : M unit := emit (EAlert msg).
Definition consoleError (msg : string) : M unit := emit (EConsoleError msg).
Definition setBatchProgress (p : option (nat * nat * string)) : M unit :=
  emit (ESetBatchProgress p).
Definition delay (ms : Z) : M unit := emit (EDelay ms).

Definition generateImage (env : Env) (prompt : string) (refs : list string)
  : M (JsError + string) :=
  emit (EGenerateImage prompt refs) ;;; ask (imageResult env).

Definition generateVideo (env : Env) (prompt startImage : string)
    (endImage : option string) (model : VideoModel) : M (JsError + string) :=
  emit (EGenerateVideo prompt startImage endImage model) ;;; ask (videoResult env).

Definition convertImageToBase64 (env : Env) : M (JsError + string) :=
  emit EReadFile ;;; ask (fileResult env).

Definition windowConfirm (env : Env) (msg : string) : M bool :=
  emit (EConfirm msg) ;;; ask (confirmResult env).

(** [onApiKeyError && onApiKeyError(e)] *)
Definition apiKeyErrorHandled (env : Env) (e : JsError) : bool :=
  match onApiKeyError env with
  | Some handler => handler e
  | None => false
  end.

(** ** index.tsx: the handlers of the director stage *)

Definition withShots (p : ProjectState) (ss : list Shot) : ProjectState :=
  mkProject ss (visualStyle p) (language p) (scriptData p).

Definition withInterval (s : Shot) (i : option Interval) : Shot :=
  mkShot (shot_id s) (sceneId s) (actionSummary s) (cameraMovement s)
         (characters s) (characterVariations s) (keyframes s) i (videoModel s).

Definition withActionSummary (s : Shot) (a : string) : Shot :=
  mkShot (shot_id s) (sceneId s) a (cameraMovement s)
         (characters s) (characterVariations s) (keyframes s)
         (interval s) (videoModel s).

(** the state transformer passed to [updateProject] by [updateShot] and by
    the keyframe handlers: [shots.map(s => s.id === shotId ? transform(s) : s)] *)
Definition mapShot (shotId : string) (transform : Shot -> Shot)
    (prevProject : ProjectState) : ProjectState :=
  withShots prevProject
    (map (fun s => if String.eqb (shot_id s) shotId then transform s else s)
         (shots prevProject)).

Definition updateShot (shotId : string) (transform : Shot -> Shot) : M unit :=
  updateProject (mapShot shotId transform).

Definition frameTypeName (type : FrameType) : string :=
  match type with Start => "start" | End => "end" end.

(** [existingKf?.id || generateId(prefix)]: the clock is read only when
    there is no usable id *)
Definition keyframeId (env : Env) (existingKf : option Keyframe) (prefix : string) : M string :=
  match nonEmpty (kf_id <$> existingKf) with
  | Some id => ret id
  | None => now <~ ask (dateNow env) ;; ret (generateId prefix now)
  end.

(** the base text from which a keyframe prompt is rebuilt *)
Definition keyframeBasePrompt (existingPrompt : option string) (actionSummary : string)
  : string :=
  match nonEmpty existingPrompt with
  | Some vp => extractBasePrompt vp actionSummary
  | None => actionSummary
  end.

(** the prompt stored by the [n]-th regeneration of a keyframe that did not
    exist before the first call ([n = 0] is the first generation); every
    call of [handleGenerateKeyframe] rebuilds the prompt from the previous
    one with [keyframeBasePrompt] *)
Fixpoint regeneratedPrompt (actionSummary visualStyle cameraMovement : string)
    (type : FrameType) (n : nat) : string :=
  let existingPrompt :=
    match n with
    | O => None
    | S k => Some (regeneratedPrompt actionSummary visualStyle cameraMovement type k)
    end in
  buildKeyframePrompt (keyframeBasePrompt existingPrompt actionSummary)
                      visualStyle cameraMovement type.

Definition projectVisualStyle (project : ProjectState) : string :=
  Js.orDefault (Js.orElse (visualStyle project) (scriptData project ≫= sd_visualStyle))
               "live-action".

(** hasStartImage: [s.keyframes?.find(k => k.type === 'start')?.imageUrl] is truthy *)
Definition hasImage (s : Shot) (type : FrameType) : bool :=
  Js.truthy (findKeyframe s type ≫= imageUrl).

Definition allStartFramesGenerated (project : ProjectState) : bool :=
  (0 <? length (shots project))%nat && forallb (fun s => hasImage s Start) (shots project).

(** [updateProject] with [updateKeyframeInShot] on the shot [shotId] *)
Definition putKeyframe (shotId : string) (type : FrameType) (kf : Keyframe) : M unit :=
  updateProject (mapShot shotId (fun s => updateKeyframeInShot s type kf)).

Definition keyframePrefix (shot : Shot) (type : FrameType) : string :=
  "kf-" +:+ shot_id shot +:+ "-" +:+ frameTypeName type.

Definition handleGenerateKeyframe (env : Env) (project : ProjectState)
    (shot : Shot) (type : FrameType) : M unit :=
  let existingKf := findKeyframe shot type in
  kfId <~ keyframeId env existingKf (keyframePrefix shot type) ;;
  let basePrompt := keyframeBasePrompt (visualPrompt <$> existingKf) (actionSummary shot) in
  let visualStyle := projectVisualStyle project in
  let prompt := buildKeyframePrompt basePrompt visualStyle (cameraMovement shot) type in
  putKeyframe (shot_id shot) type (createKeyframe kfId type prompt None Generating) ;;;
  tryCatch
    (let referenceImages := getRefImagesForShot shot (scriptData project) in
     url <~ await (generateImage env prompt referenceImages) ;;
     putKeyframe (shot_id shot) type (createKeyframe kfId type prompt (Some url) Completed))
    (fun e =>
       consoleError (message e) ;;;
       putKeyframe (shot_id shot) type (createKeyframe kfId type prompt None Failed) ;;;
       if apiKeyErrorHandled env e then ret tt
       else alert ("生成失败: " +:+ message e)).

Record File := mkFile { file_type : string }.

(** the [onchange] callback installed by [handleUploadKeyframeImage], run
    on the file picked by the user *)
Definition handleUploadKeyframeImage (env : Env) (shot : Shot) (type : FrameType)
    (file : option File) : M unit :=
  match file with
  | None => ret tt
  | Some file =>
      if negb (Js.startsWith "image/" (file_type file)) then alert "请选择图片文件！"
      else
        tryCatch
          (base64Url <~ await (convertImageToBase64 env) ;;
           let existingKf := findKeyframe shot type in
           kfId <~ keyframeId env existingKf (keyframePrefix shot type) ;;
           let visualPrompt := Js.orDefault (visualPrompt <$> existingKf) (actionSummary shot) in
           putKeyframe (shot_id shot) type
             (createKeyframe kfId type visualPrompt (Some base64Url) Completed))
          (fun _ => alert "读取文件失败！")
  end.

Definition projectLanguage (project : ProjectState) : string :=
  Js.orDefault (Js.orElse (language project) (scriptData project ≫= sd_language)) "中文".

(** [{ ...s.interval, status: 'generating', videoPrompt }] *)
Definition intervalGenerating (i : Interval) (prompt : string) : Interval :=
  mkInterval (int_id i) (startKeyframeId i) (endKeyframeId i) (duration i)
             (motionStrength i) (Some prompt) (videoUrl i) Generating.

(** [{ ...s.interval, videoUrl, status: 'completed' }] *)
Definition intervalCompleted (i : Interval) (url : string) : Interval :=
  mkInterval (int_id i) (startKeyframeId i) (endKeyframeId i) (duration i)
             (motionStrength i) (videoPrompt i) (Some url) Completed.

(** [{ ...s.interval, status: 'failed' }] *)
Definition intervalFailed (i : Interval) : Interval :=
  mkInterval (int_id i) (startKeyframeId i) (endKeyframeId i) (duration i)
             (motionStrength i) (videoPrompt i) (videoUrl i) Failed.

Definition handleGenerateVideo (env : Env) (project : ProjectState) (shot : Shot) : M unit :=
  let sKf := findKeyframe shot Start in
  let eKf := findKeyframe shot End in
  match sKf, nonEmpty (sKf ≫= imageUrl) with
  | Some sKf, Some startImage =>
      let selectedModel := default DEFAULTS.videoModel (videoModel shot) in
      let videoPrompt :=
        buildVideoPrompt (actionSummary shot) (cameraMovement shot)
                         selectedModel (projectLanguage project) in
      intervalId <~
        match nonEmpty (int_id <$> interval shot) with
        | Some id => ret id
        | None => now <~ ask (dateNow env) ;; ret (generateId ("int-" +:+ shot_id shot) now)
        end ;;
      let fresh (url : option string) (st : Status) :=
        mkInterval intervalId (kf_id sKf) (Js.orDefault (kf_id <$> eKf) "")
                   10 5 (Some videoPrompt) url st in
      updateShot (shot_id shot) (fun s =>
        withInterval s (Some match interval s with
                             | Some i => intervalGenerating i videoPrompt
                             | None => fresh None Generating
                             end)) ;;;
      tryCatch
        (videoUrl <~ await (generateVideo env videoPrompt startImage
                                          (eKf ≫= imageUrl) selectedModel) ;;
         updateShot (shot_id shot) (fun s =>
           withInterval s (Some match interval s with
                                | Some i => intervalCompleted i videoUrl
                                | None => fresh (Some videoUrl) Completed
                                end)))
        (fun e =>
           consoleError (message e) ;;;
           updateShot (shot_id shot) (fun s =>
             withInterval s (intervalFailed <$> interval s)) ;;;
           if apiKeyErrorHandled env e then ret tt
           else alert ("视频生成失败: " +:+ message e))
  | _, _ => alert "请先生成起始帧！"
  end.

(** [arr[i]] for a numeric index: [undefined] out of range *)
Definition at_ {A} (l : list A) (i : Z) : option A :=
  if i <? 0 then None else l !! Z.to_nat i.

Definition activeShotIndexOf (project : ProjectState) (activeShotId : option string) : Z :=
  match findIndex (fun s => bool_decide (Some (shot_id s) = activeShotId)) (shots project) with
  | Some i => Z.of_nat i
  | None => -1
  end.

Definition handleCopyPreviousEndFrame (env : Env) (project : ProjectState)
    (activeShotId : option string) : M unit :=
  let activeShotIndex := activeShotIndexOf project activeShotId in
  let activeShot := at_ (shots project) activeShotIndex in
  match activeShot with
  | None => ret tt
  | Some activeShot =>
      if activeShotIndex =? 0 then ret tt
      else
        let previousShot := at_ (shots project) (activeShotIndex - 1) in
        let previousEndKf := previousShot ≫= (fun s => findKeyframe s End) in
        match previousEndKf, nonEmpty (previousEndKf ≫= imageUrl) with
        | Some previousEndKf, Some _ =>
            let existingStartKf := findKeyframe activeShot Start in
            newStartKfId <~ keyframeId env existingStartKf
                                       ("kf-" +:+ shot_id activeShot +:+ "-start") ;;
            updateShot (shot_id activeShot) (fun s =>
              updateKeyframeInShot s Start
                (createKeyframe newStartKfId Start (visualPrompt previousEndKf)
                                (imageUrl previousEndKf) Completed))
        | _, _ => alert "上一个镜头还没有生成结束帧"
        end
  end.

(** the shots handed to the batch loop *)
Definition shotsToProcess (isRegenerate : bool) (project : ProjectState) : list Shot :=
  if isRegenerate then shots project
  else List.filter (fun s => negb (hasImage s Start)) (shots project).

Definition progressMessage (i total : nat) : string :=
  "正在生成镜头 " +:+ pretty (i + 1)%nat +:+ "/" +:+ pretty total +:+ "...".

(** the [for] loop of [handleBatchGenerateImages] from iteration [i] on,
    followed by the final [setBatchProgress(null)]; [todo] holds the shots
    at the indices [i], [i+1], ... *)
Fixpoint batchLoop (env : Env) (project : ProjectState) (total : nat)
    (i : nat) (todo : list Shot) : M unit :=
  match todo with
  | [] => setBatchProgress None
  | shot :: todo' =>
      (if (0 <? i)%nat then delay DEFAULTS.batchGenerateDelay else ret tt) ;;;
      setBatchProgress (Some ((i + 1)%nat, total, progressMessage i total)) ;;;
      aborted <~
        tryCatch
          (handleGenerateKeyframe env project shot Start ;;; ret false)
          (fun e =>
             consoleError ("Failed to generate for shot " +:+ shot_id shot) ;;;
             if apiKeyErrorHandled env e
             then setBatchProgress None ;;; ret true
             else ret false) ;;
      if aborted : bool then ret tt
      else batchLoop env project total (S i) todo'
  end.

Definition handleBatchGenerateImages (env : Env) (project : ProjectState) : M unit :=
  let isRegenerate := allStartFramesGenerated project in
  proceed <~
    (if isRegenerate
     then windowConfirm env "确定要重新生成所有镜头的首帧吗？这将覆盖现有图片。"
     else ret true) ;;
  if proceed : bool then
    let todo := shotsToProcess isRegenerate project in
    if (length todo =? 0)%nat then ret tt
    else
      setBatchProgress
        (Some (0%nat, length todo,
               if isRegenerate then "正在重新生成所有首帧..."
               else "正在批量生成缺失的首帧...")) ;;;
      batchLoop env project (length todo) 0 todo
  else ret tt.

Inductive EditType := EditAction | EditKeyframe | EditVideo.

Record EditModal := mkEditModal {
  em_type : EditType;
  em_value : string;
  em_frameType : option FrameType
}.

Definition withVisualPrompt (kf : Keyframe) (text : string) : Keyframe :=
  mkKeyframe (kf_id kf) (kf_type kf) text (imageUrl kf) (kf_status kf).

Definition withVideoPrompt (i : Interval) (text : string) : Interval :=
  mkInterval (int_id i) (startKeyframeId i) (endKeyframeId i) (duration i)
             (motionStrength i) (Some text) (videoUrl i) (int_status i).

(** the keyframe transformer of [handleSaveEdit] *)
Definition editKeyframes (frameType : option FrameType) (text : string) (s : Shot) : Shot :=
  withKeyframes s
    (map (fun kf => if bool_decide (Some (kf_type kf) = frameType)
                    then withVisualPrompt kf text else kf)
         (default [] (keyframes s))).

Definition handleSaveEdit (project : ProjectState) (activeShotId : option string)
    (editModal : option EditModal) : M unit :=
  let activeShot := at_ (shots project) (activeShotIndexOf project activeShotId) in
  match editModal, activeShot with
  | Some editModal, Some activeShot =>
      match em_type editModal with
      | EditAction =>
          updateShot (shot_id activeShot)
                     (fun s => withActionSummary s (em_value editModal))
      | EditKeyframe =>
          updateShot (shot_id activeShot)
                     (editKeyframes (em_frameType editModal) (em_value editModal))
      | EditVideo =>
          updateShot (shot_id activeShot) (fun s =>
            withInterval s ((fun i => withVideoPrompt i (em_value editModal)) <$> interval s))
      end
  | _, _ => ret tt
  end.

(** run a handler from a project state with an empty trace *)
Definition run {A} (m : M A) (p : ProjectState) : Outcome A * World :=
  m (mkWorld p [] 0).

(** ** utils.ts, later revision: the enhanced keyframe prompt

    A later revision of [utils.ts] rewrites [buildKeyframePrompt] with a
    sectioned bilingual layout; [extractBasePrompt] is the same function in
    both revisions. *)

Module Enhanced.

Definition frameLabel (frameType : FrameType) : string :=
  match frameType with
  | Start => "Initial Frame 起始帧"
  | End => "Final Frame 结束帧"
  end.

Definition startFrameGuide : string :=
"【起始帧要求】
- 建立清晰的初始状态和场景氛围
- 人物/物体的起始位置、姿态和表情要明确
- 为后续运动预留视觉空间和动势
- 初始光影和色调为整个镜头定下基调
- 确保构图具有视觉张力，引导观众视线".

Definition endFrameGuide : string :=
"【结束帧要求】
- 展现动作完成后的最终状态
- 人物/物体的终点位置、姿态和情绪变化
- 体现镜头运动带来的视角变化
- 光影和色彩可以有戏剧性变化
- 构图应达到视觉高潮或情绪释放点".

Definition buildKeyframePrompt
    (basePrompt visualStyle cameraMovement : string) (frameType : FrameType) : string :=
  let stylePrompt := Js.orDefault (lookupProp VISUAL_STYLE_PROMPTS visualStyle) visualStyle in
  let cameraGuide := getCameraMovementCompositionGuide cameraMovement frameType in
  let frameSpecificGuide :=
    match frameType with Start => startFrameGuide | End => endFrameGuide end in
  basePrompt +:+
  "

━━━━━━━━━━━━━━━━━━━━━━━━━━━━━━━━━━
【视觉风格】Visual Style
" +:+
  stylePrompt +:+
  "

━━━━━━━━━━━━━━━━━━━━━━━━━━━━━━━━━━
【镜头运动】Camera Movement
" +:+
  cameraMovement +:+
  " (" +:+
  frameLabel frameType +:+
  ")

【构图指导】Composition Guide
" +:+
  cameraGuide +:+
  "

" +:+
  frameSpecificGuide +:+
  "

━━━━━━━━━━━━━━━━━━━━━━━━━━━━━━━━━━
【技术规格】Technical Specifications
• 画面比例：16:9 宽屏电影格式
• 分辨率：8K Ultra HD, photorealistic detail
• 镜头语言：Professional cinema camera aesthetics
• 景深控制：Shallow depth of field for subject emphasis

【视觉细节】Visual Details
• 光影层次：Three-point lighting with dramatic shadows and highlights
• 色彩饱和度：Rich, cinematic color grading with proper color temperature
• 材质质感：Detailed surface textures, fabric wrinkles, skin pores, environmental details
• 大气效果：Volumetric lighting, atmospheric haze, dust particles, realistic weather effects

【角色要求】Character Details (if applicable)
• 面部表情：Micro-expressions, emotional authenticity, eye contact and gaze direction
• 肢体语言：Natural body posture, weight distribution, muscle tension
• 服装细节：Fabric movement, realistic clothing physics, detailed costume textures
• 毛发细节：Individual hair strands, natural hair movement and physics

【环境要求】Environment Details
• 背景层次：Foreground, middle ground, background depth separation
• 空间透视：Accurate linear perspective, atmospheric perspective for depth
• 环境光影：Natural or artificial light sources, realistic shadow casting
• 细节丰富度：Environmental storytelling elements, textural variety

【氛围营造】Mood & Atmosphere
• 情绪基调：Match the emotional tone of the scene
• 色彩心理：Use color psychology to enhance narrative
• 视觉节奏：Balance between calm and dynamic visual elements
• 叙事暗示：Visual cues that hint at story progression

━━━━━━━━━━━━━━━━━━━━━━━━━━━━━━━━━━
【质量保证】Quality Assurance
✓ 主体清晰：Subject is in sharp focus with clear silhouette
✓ 背景过渡：Background elements transition naturally without abrupt changes
✓ 光影一致：Consistent lighting direction and quality
✓ 色彩协调：Harmonious color palette throughout the frame
✓ 构图平衡：Visual weight distribution follows rule of thirds or golden ratio
✓ 动作连贯性：Frame composition supports smooth transition to next frame".

End Enhanced.

(** ** The director stage before it was split into modules

    The single-file revision of the stage holds earlier versions of the
    video handler and of the batch loop; the batch loop generates the
    images itself instead of calling [handleGenerateKeyframe]. *)

Module Legacy.

Definition soraChinese (actionSummary cameraMovement projectLanguage : string) : string :=
  "从第一张图片（起始帧）到第二张图片（结束帧）生成平滑过渡的视频。

动作描述：" +:+
  actionSummary +:+
  "

技术要求：
- 关键：视频必须从第一张图片的精确构图开始，逐渐过渡到第二张图片的精确构图结束
- 画面比例：16:9 宽屏横向格式
- 镜头运动：" +:+
  cameraMovement +:+
  "
- 过渡：确保起始帧和结束帧之间自然流畅的运动，避免跳跃或不连续
- 视觉风格：电影质感，全程保持一致的光照和色调
- 细节：保持两帧之间角色和场景的连续性和一致性
- 语言：配音和字幕使用中文".

Definition soraEnglish (actionSummary cameraMovement projectLanguage : string) : string :=
  "Generate a smooth transition video from the first image (start frame) to the second image (end frame).

Action Description: " +:+
  actionSummary +:+
  "

Technical Requirements:
- CRITICAL: The video MUST begin with the exact composition of the first image and gradually transition to end with the exact composition of the second image
- Aspect Ratio: 16:9 widescreen landscape format
- Camera Movement: " +:+
  cameraMovement +:+
  "
- Transition: Ensure natural and fluid motion between start and end frames, avoid jumps or discontinuities
- Visual Style: Cinematic quality with consistent lighting and color tone throughout
- Details: Maintain character and scene continuity and consistency between both frames
- Language: Use " +:+
  projectLanguage +:+
  " for voiceover and subtitles".

Definition veoChinese (actionSummary cameraMovement projectLanguage : string) : string :=
  actionSummary +:+
  "

镜头运动：" +:+
  cameraMovement +:+
  "
配音语言：使用中文配音".

Definition veoEnglish (actionSummary cameraMovement projectLanguage : string) : string :=
  actionSummary +:+
  "

Camera Movement: " +:+
  cameraMovement +:+
  "
Voiceover Language: Use " +:+
  projectLanguage +:+
  " for voiceover".

Definition handleGenerateVideo (env : Env) (project : ProjectState) (shot : Shot) : M unit :=
  let sKf := findKeyframe shot Start in
  let eKf := findKeyframe shot End in
  match sKf, nonEmpty (sKf ≫= imageUrl) with
  | Some sKf, Some startImage =>
      match interval shot with
      | None =>
          now <~ ask (dateNow env) ;;
          updateShot (shot_id shot) (fun s =>
            withInterval s
              (Some (mkInterval (generateId ("int-" +:+ shot_id shot) now) (kf_id sKf)
                                (Js.orDefault (kf_id <$> eKf) "") 10 5 None None Pending))) ;;;
          delay 100
      | Some _ => ret tt
      end ;;;
      let endImageUrl := eKf ≫= imageUrl in
      let selectedModel := default Sora2 (videoModel shot) in
      let projectLanguage := projectLanguage project in
      let isChinese := String.eqb projectLanguage "中文" in
      let videoPrompt :=
        match selectedModel with
        | Sora2 =>
            if isChinese
            then soraChinese (actionSummary shot) (cameraMovement shot) projectLanguage
            else soraEnglish (actionSummary shot) (cameraMovement shot) projectLanguage
        | VeoFast =>
            if isChinese
            then veoChinese (actionSummary shot) (cameraMovement shot) projectLanguage
            else veoEnglish (actionSummary shot) (cameraMovement shot) projectLanguage
        end in
      intervalId <~
        match nonEmpty (int_id <$> interval shot) with
        | Some id => ret id
        | None => now <~ ask (dateNow env) ;; ret (generateId ("int-" +:+ shot_id shot) now)
        end ;;
      let fresh (url : option string) (st : Status) :=
        mkInterval intervalId (kf_id sKf) (Js.orDefault (kf_id <$> eKf) "")
                   10 5 (Some videoPrompt) url st in
      updateShot (shot_id shot) (fun s =>
        withInterval s (Some match interval s with
                             | Some i => intervalGenerating i videoPrompt
                             | None => fresh None Generating
                             end)) ;;;
      tryCatch
        (videoUrl <~ await (generateVideo env videoPrompt startImage
                                          endImageUrl selectedModel) ;;
         updateShot (shot_id shot) (fun s =>
           withInterval s (Some match interval s with
                                | Some i => intervalCompleted i videoUrl
                                | None => fresh (Some videoUrl) Completed
                                end)))
        (fun e =>
           consoleError (message e) ;;;
           updateShot (shot_id shot) (fun s =>
             withInterval s (intervalFailed <$> interval s)) ;;;
           if apiKeyErrorHandled env e then ret tt
           else alert ("视频生成失败: " +:+ message e))
  | _, _ => alert "请先生成起始帧！"
  end.

(** the prompt assembled inside the batch loop *)
Definition batchPrompt (project : ProjectState) (shot : Shot) : string :=
  let existingKf := findKeyframe shot Start in
  let prompt := Js.orDefault (visualPrompt <$> existingKf) (actionSummary shot) in
  let visualStyle := projectVisualStyle project in
  let stylePrompt := Js.orDefault (lookupProp VISUAL_STYLE_PROMPTS visualStyle) visualStyle in
  prompt +:+ nl +:+ nl +:+ "Visual Style: " +:+ stylePrompt +:+ nl +:+ nl +:+
  "Visual Requirements: High definition, cinematic composition, 16:9 widescreen format.".

(** the [for] loop from iteration [i] on; [currentShots] is the local copy
    of the shot list that the loop writes back with
    [updateProject({ shots: currentShots })] *)
Fixpoint batchLoop (env : Env) (project : ProjectState) (total : nat)
    (i : nat) (todo : list Shot) (currentShots : list Shot) : M unit :=
  match todo with
  | [] => setBatchProgress None
  | shot :: todo' =>
      (if (0 <? i)%nat then delay 3000 else ret tt) ;;;
      setBatchProgress (Some ((i + 1)%nat, total, progressMessage i total)) ;;;
      next <~
        tryCatch
          (let existingKf := findKeyframe shot Start in
           let prompt := batchPrompt project shot in
           kfId <~ keyframeId env existingKf ("kf-" +:+ shot_id shot +:+ "-start") ;;
           let referenceImages := getRefImagesForShot shot (scriptData project) in
           url <~ await (generateImage env prompt referenceImages) ;;
           let currentShots' :=
             map (fun s => if String.eqb (shot_id s) (shot_id shot)
                           then updateKeyframeInShot s Start
                                  (mkKeyframe kfId Start prompt (Some url) Completed)
                           else s)
                 currentShots in
           updateProject (fun prev => withShots prev currentShots') ;;;
           ret (Some currentShots'))
          (fun e =>
             consoleError ("Failed to generate for shot " +:+ shot_id shot) ;;;
             if apiKeyErrorHandled env e
             then setBatchProgress None ;;; ret None
             else ret (Some currentShots)) ;;
      match next with
      | None => ret tt
      | Some currentShots' => batchLoop env project total (S i) todo' currentShots'
      end
  end.

Definition handleBatchGenerateImages (env : Env) (project : ProjectState) : M unit :=
  let isRegenerate := allStartFramesGenerated project in
  proceed <~
    (if isRegenerate
     then windowConfirm env "确定要重新生成所有镜头的首帧吗？这将覆盖现有图片。"
     else ret true) ;;
  if proceed : bool then
    let todo := shotsToProcess isRegenerate project in
    if (length todo =? 0)%nat then ret tt
    else
      setBatchProgress
        (Some (0%nat, length todo,
               if isRegenerate then "正在重新生成所有首帧..."
               else "正在批量生成缺失的首帧...")) ;;;
      batchLoop env project (length todo) 0 todo (shots project)
  else ret tt.

End Legacy.

(** * Vocabulary of the statements *)

(** the substring relation: [pat] occurs in [s] *)
Definition occursIn (pat s : string) : Prop :=
  exists pre post, s = pre +:+ pat +:+ post.

(** both instructions of [g] differ from those of [g'] *)
Definition differs (g g' : Guide) : bool :=
  negb (String.eqb (g_start g') (g_start g)) && negb (String.eqb (g_end g') (g_end g)).

Definition nonEmptyGuide (kg : string * Guide) : bool :=
  negb (String.eqb (g_start (snd kg)) "") && negb (String.eqb (g_end (snd kg)) "").

(** ** Keyframe invariant *)

(** a keyframe carries an image exactly when it is completed *)
Definition keyframeOk (kf : Keyframe) : Prop :=
  is_Some (imageUrl kf) <-> kf_status kf = Completed.

Definition shotOk (s : Shot) : Prop :=
  Forall keyframeOk (default [] (keyframes s)).

Definition projectOk (p : ProjectState) : Prop :=
  Forall shotOk (shots p).

(** the keyframe operations offered by the workbench.  A handler is a
    closure of some render of the component: [closure] is the project state
    of that render and [shot] the shot it was bound to; the state it
    updates is the latest one. *)
Inductive KeyframeOp :=
| OpGenerate (closure : ProjectState) (shot : Shot) (type : FrameType)
| OpUpload (shot : Shot) (type : FrameType) (file : option File)
| OpCopyPreviousEndFrame (closure : ProjectState) (activeShotId : option string)
| OpEditPrompt (closure : ProjectState) (activeShotId : option string)
               (frameType : option FrameType) (text : string).

Definition perform (env : Env) (op : KeyframeOp) : M unit :=
  match op with
  | OpGenerate closure shot type => handleGenerateKeyframe env closure shot type
  | OpUpload shot type file => handleUploadKeyframeImage env shot type file
  | OpCopyPreviousEndFrame closure activeShotId =>
      handleCopyPreviousEndFrame env closure activeShotId
  | OpEditPrompt closure activeShotId frameType text =>
      handleSaveEdit closure activeShotId (Some (mkEditModal EditKeyframe text frameType))
  end.

(** a sequence of operations; an operation that throws ends the sequence *)
Fixpoint performAll (env : Env) (ops : list KeyframeOp) : M unit :=
  match ops with
  | [] => ret tt
  | op :: ops' => perform env op ;;; performAll env ops'
  end.

(** ** Handlers and project properties *)

(** [m] keeps the property [I] of the project state *)
Definition preserves (I : ProjectState -> Prop) {A} (m : M A) : Prop :=
  forall w, I (project w) -> I (project (snd (m w))).

(** the result of a handler that only raises an alert: it returns, the
    project state is the one it found, nothing is asked of the outside
    world *)
Definition rejectedWith (msg : string) (w : World) : Outcome unit * World :=
  (Ret tt, mkWorld (project w) (trace w ++ [EAlert msg]) (tick w)).

(** ** Observations on traces *)

(** the requests sent to the image service, in order *)
Definition imageRequests (tr : list Event) : list (string * list string) :=
  omap (fun ev => match ev with
                  | EGenerateImage prompt refs => Some (prompt, refs)
                  | _ => None
                  end) tr.

Definition isNetworkCall (ev : Event) : bool :=
  match ev with
  | EGenerateImage _ _ | EGenerateVideo _ _ _ _ => true
  | _ => false
  end.

(** the prompt that [handleGenerateKeyframe] sends for a shot *)
Definition generatedPrompt (project : ProjectState) (shot : Shot) (type : FrameType) : string :=
  buildKeyframePrompt
    (keyframeBasePrompt (visualPrompt <$> findKeyframe shot type) (actionSummary shot))
    (projectVisualStyle project) (cameraMovement shot) type.

Definition requestFor (project : ProjectState) (shot : Shot) : string * list string :=
  (generatedPrompt project shot Start, getRefImagesForShot shot (scriptData project)).

Definition legacyRequestFor (project : ProjectState) (shot : Shot) : string * list string :=
  (Legacy.batchPrompt project shot, getRefImagesForShot shot (scriptData project)).

(** ** Reference resolver, in the words of its contract *)

(** the reference image of the shot's scene, when there is one *)
Definition sceneImage (sd : ScriptData) (shot : Shot) : option string :=
  scene ← find (fun s => String.eqb (scene_id s) (sceneId shot)) (sd_scenes sd);
  nonEmpty (scene_referenceImage scene).

(** the reference image of the variation selected for the character, when
    a variation is selected and has an image *)
Definition selectedVariationImage (shot : Shot) (char : Character) (charId : string)
  : option string :=
  selected ← nonEmpty (characterVariations shot ≫= (fun m => m !! charId));
  variation ← variations char ≫= find (fun v => String.eqb (var_id v) selected);
  nonEmpty (var_referenceImage variation).

(** the image one character contributes: the selected variation's image,
    otherwise the base image, otherwise nothing *)
Definition characterImage (sd : ScriptData) (shot : Shot) (charId : string)
  : option string :=
  char ← find (fun c => String.eqb (char_id c) charId) (sd_characters sd);
  match selectedVariationImage shot char charId with
  | Some img => Some img
  | None => nonEmpty (char_referenceImage char)
  end.

(** scene image first, then one image per character in the shot's order,
    nothing removed *)
Definition resolveReferences (shot : Shot) (scriptData : option ScriptData) : list string :=
  match scriptData with
  | None => []
  | Some sd =>
      option_list (sceneImage sd shot)
      ++ omap (characterImage sd shot) (default [] (characters shot))
  end.

(** ** Nine-grid panel selection *)

Module NineGrid.

Record Rect := mkRect { rect_x : Q; rect_y : Q; rect_width : Q; rect_height : Q }.

Definition panelRow (panelIndex : nat) : nat := Nat.div panelIndex 3.
Definition panelColumn (panelIndex : nat) : nat := Nat.modulo panelIndex 3.

(** Modelled from the spec: the sub-rectangle computed by [selectPanel];
    the cropping helper behind [onSelectPanel] is not among the sources.
    Row is the index div 3, column the index mod 3, and each cell takes one
    third of the width and of the height of the composite image. *)
Definition selectPanel (width height : Q) (panelIndex : nat) : Rect :=
  let cellWidth := (width / 3)%Q in
  let cellHeight := (height / 3)%Q in
  mkRect (inject_Z (Z.of_nat (panelColumn panelIndex)) * cellWidth)%Q
         (inject_Z (Z.of_nat (panelRow panelIndex)) * cellHeight)%Q
         cellWidth cellHeight.

(** NineGridPreview.tsx lays nine clickable cells over the composite
    image in a container with three equal columns and three equal rows
    ([grid grid-cols-3 grid-rows-3], covering the image); the cells are
    the children [idx = 0 .. 8] in order.  Auto-placement fills the grid
    row by row: the cursor advances one column per child and wraps to the
    next row after the last column. *)
Fixpoint autoPlace (columns : nat) (idx : nat) : nat * nat :=
  match idx with
  | O => (O, O)
  | S k =>
      let '(row, column) := autoPlace columns k in
      if (S column <? columns)%nat then (row, S column) else (S row, O)
  end.

Definition overlayCell (idx : nat) : nat * nat := autoPlace 3 idx.

(** the area of the overlay cell [idx] on a composite of the given size *)
Definition overlayRect (width height : Q) (idx : nat) : Rect :=
  let '(row, column) := overlayCell idx in
  mkRect (inject_Z (Z.of_nat column) * (width / 3))%Q
         (inject_Z (Z.of_nat row) * (height / 3))%Q
         (width / 3)%Q (height / 3)%Q.

(** the label of the cell in a given row and column, as spelled in
    [NINE_GRID.positionLabels] *)
Definition positionLabel (row column : nat) : string :=
  let rowName := match row with
                 | O => ("上", "Top") | S O => ("中", "Middle") | _ => ("下", "Bottom")
                 end in
  let columnName := match column with
                    | O => ("左", "Left") | S O => ("中", "Center") | _ => ("右", "Right")
                    end in
  if ((row =? 1) && (column =? 1))%nat then "正中 (Center)"
  else fst columnName +:+ fst rowName +:+ " (" +:+ snd rowName +:+ "-"
       +:+ snd columnName +:+ ")".

End NineGrid.

(** ** Sample data for the scenarios *)

Module Demo.

Definition shot (id : string) (kfs : option (list Keyframe)) : Shot :=
  mkShot id "sc1" "A knight rides" "Zoom In Shot" (Some []) None kfs None None.

Definition projectOf (ss : list Shot) : ProjectState :=
  mkProject ss (Some "anime") (Some "English") None.

(** an environment whose image service answers [img], whose credential
    handler reports every error as handled or not according to [handled] *)
Definition env (img : nat -> JsError + string) (handled : bool) : Env :=
  mkEnv img (fun _ => inr "video://1") (fun _ => inr "data:image/png;base64,AAAA")
        (fun _ => 1700000000000) (fun _ => true) (Some (fun _ => handled)).

Definition completedKeyframe (id : string) (type : FrameType) (url : string) : Keyframe :=
  mkKeyframe id type "A knight rides" (Some url) Completed.

End Demo.

(** * Further parts of the director stage *)

(** ** index.tsx: the callbacks handed to the workbench *)

Definition withCast (s : Shot) (chars : option (list string))
    (vars : option (gmap string string)) : Shot :=
  mkShot (shot_id s) (sceneId s) (actionSummary s) (cameraMovement s)
         chars vars (keyframes s) (interval s) (videoModel s).

(** [s => ({ ...s, characters: [...s.characters, charId] })]; spreading an
    absent [characters] throws, which is [None] here *)
Definition onAddCharacter (charId : string) (s : Shot) : option Shot :=
  chars ← characters s;
  Some (withCast s (Some (chars ++ [charId])) (characterVariations s)).

(** [characters.filter(id => id !== charId)] together with
    [Object.fromEntries(Object.entries(vars || {}).filter(([k]) => k !== charId))] *)
Definition onRemoveCharacter (charId : string) (s : Shot) : option Shot :=
  chars ← characters s;
  Some (withCast s
          (Some (List.filter (fun id => negb (String.eqb id charId)) chars))
          (Some (filter (fun kv => fst kv <> charId)
                        (default ∅ (characterVariations s))))).

(** [{ ...(s.characterVariations || {}), [charId]: varId }] *)
Definition onVariationChange (charId varId : string) (s : Shot) : Shot :=
  withCast s (characters s)
           (Some (<[charId := varId]> (default ∅ (characterVariations s)))).

(** ** The single-file stage: keyframes, cast and navigation *)

Module LegacyStage.

(** the style table written out inside [handleGenerateKeyframe] *)
Definition stylePrompts : list (string * string) :=
  [ ("live-action", "photorealistic, cinematic film quality, real human actors, professional cinematography, natural lighting, 8K resolution");
    ("anime", "Japanese anime style, cel-shaded, vibrant colors, expressive eyes, dynamic poses, Studio Ghibali/Makoto Shinkai quality");
    ("2d-animation", "classic 2D animation, hand-drawn style, Disney/Pixar quality, smooth lines, expressive characters, painterly backgrounds");
    ("3d-animation", "high-quality 3D CGI animation, Pixar/DreamWorks style, subsurface scattering, detailed textures, stylized characters");
    ("cyberpunk", "cyberpunk aesthetic, neon-lit, rain-soaked streets, holographic displays, high-tech low-life, Blade Runner style");
    ("oil-painting", "oil painting style, visible brushstrokes, rich textures, classical art composition, museum quality fine art") ].

Definition withStatus (kf : Keyframe) (status : Status) : Keyframe :=
  mkKeyframe (kf_id kf) (kf_type kf) (visualPrompt kf) (imageUrl kf) status.

(** the update of the [catch] branch:
    [if (idx >= 0) newKeyframes[idx] = { ...newKeyframes[idx], status: 'failed' }] *)
Definition markFailed (type : FrameType) (s : Shot) : Shot :=
  let newKeyframes := default [] (keyframes s) in
  let idx := findIndex (fun k => bool_decide (kf_type k = type)) newKeyframes in
  withKeyframes s
    match idx with
    | Some i => alter (fun kf => withStatus kf Failed) i newKeyframes
    | None => newKeyframes
    end.

(** the base text: the part before the marker when the stored prompt has
    one at a positive index, the stored prompt otherwise, the action
    summary without a stored prompt *)
Definition basePromptOf (existingKf : option Keyframe) (shot : Shot) : string :=
  match nonEmpty (visualPrompt <$> existingKf) with
  | Some vp =>
      let visualStyleIndex := Js.indexOf vp styleMarker in
      if 0 <? visualStyleIndex then Js.substring vp 0 visualStyleIndex else vp
  | None => actionSummary shot
  end.

Definition handleGenerateKeyframe (env : Env) (project : ProjectState)
    (shot : Shot) (type : FrameType) : M unit :=
  let existingKf := findKeyframe shot type in
  kfId <~ keyframeId env existingKf (keyframePrefix shot type) ;;
  let basePrompt := basePromptOf existingKf shot in
  let visualStyle := projectVisualStyle project in
  let stylePrompt := Js.orDefault (lookupProp stylePrompts visualStyle) visualStyle in
  let cameraMovementGuide := getCameraMovementCompositionGuide (cameraMovement shot) type in
  let prompt :=
    basePrompt +:+ nl +:+ nl +:+ "Visual Style: " +:+ stylePrompt +:+ nl +:+ nl +:+
    "Camera Movement: " +:+ cameraMovement shot +:+ " (" +:+ frameLabel type +:+ " frame)" +:+ nl +:+
    cameraMovementGuide +:+ nl +:+ nl +:+
    "Visual Requirements: High definition, cinematic composition, 16:9 widescreen format. Focus on lighting hierarchy, color saturation, and depth of field effects. Ensure the subject is clear and the background transitions naturally." in
  putKeyframe (shot_id shot) type (mkKeyframe kfId type prompt None Generating) ;;;
  tryCatch
    (let referenceImages := getRefImagesForShot shot (scriptData project) in
     url <~ await (generateImage env prompt referenceImages) ;;
     putKeyframe (shot_id shot) type (mkKeyframe kfId type prompt (Some url) Completed))
    (fun e =>
       consoleError (message e) ;;;
       updateProject (mapShot (shot_id shot) (markFailed type)) ;;;
       if apiKeyErrorHandled env e then ret tt
       else alert ("生成失败: " +:+ message e)).

(** [handleAddCharacter]: a character already in the shot is not added again *)
Definition handleAddCharacter (characterId : string) (s : Shot) : option Shot :=
  chars ← characters s;
  Some (if existsb (String.eqb characterId) chars then s
        else withCast s (Some (chars ++ [characterId])) (characterVariations s)).

(** [handleRemoveCharacter]: [delete newCharVars[characterId]] on a copy *)
Definition handleRemoveCharacter (characterId : string) (s : Shot) : option Shot :=
  chars ← characters s;
  Some (withCast s
          (Some (List.filter (fun id => negb (String.eqb id characterId)) chars))
          (Some (delete characterId (default ∅ (characterVariations s))))).

(** [goToPrevShot] and [goToNextShot]: the id made active, if any *)
Definition goToPrevShot (project : ProjectState) (activeShotId : option string)
  : option string :=
  let activeShotIndex := activeShotIndexOf project activeShotId in
  if 0 <? activeShotIndex
  then shot_id <$> at_ (shots project) (activeShotIndex - 1)
  else activeShotId.

Definition goToNextShot (project : ProjectState) (activeShotId : option string)
  : option string :=
  let activeShotIndex := activeShotIndexOf project activeShotId in
  if activeShotIndex <? Z.of_nat (length (shots project)) - 1
  then shot_id <$> at_ (shots project) (activeShotIndex + 1)
  else activeShotId.

(** the generate-video button of the workbench is disabled without a start
    image or while the interval is generating *)
Definition videoButtonDisabled (shot : Shot) : bool :=
  negb (Js.truthy (findKeyframe shot Start ≫= imageUrl))
  || bool_decide (int_status <$> interval shot = Some Generating).

End LegacyStage.

(** ** Vocabulary of the further statements *)

(** the character [c] does not occur in [s] *)
Fixpoint lacks (c : ascii) (s : string) : bool :=
  match s with
  | EmptyString => true
  | String d s' => negb (Ascii.eqb c d) && lacks c s'
  end.

(** the texts between the placeholders of the three video templates *)
Definition sora2ChineseParts : list string :=
  [ "基于提供的参考图片生成视频。

动作描述：" ;
    "

技术要求：
- 关键：视频必须从参考图片的精确构图和画面内容开始，自然展开后续动作
- 镜头运动：" ;
    "
- 运动：确保动作流畅自然，避免突兀的跳跃或不连续
- 视觉风格：电影质感，全程保持一致的光照和色调
- 细节：保持角色外观和场景环境的全程一致性
- 语言：配音和字幕使用中文" ].

Definition sora2EnglishParts : list string :=
  [ "Generate a video based on the provided reference image.

Action Description: " ;
    "

Technical Requirements:
- CRITICAL: The video MUST begin with the exact composition and content of the reference image, then naturally develop the subsequent action
- Camera Movement: " ;
    "
- Motion: Ensure smooth and natural movement, avoid abrupt jumps or discontinuities
- Visual Style: Cinematic quality with consistent lighting and color tone throughout
- Details: Maintain character appearance and scene environment consistency throughout
- Language: Use " ;
    " for voiceover and subtitles" ].

Definition veoParts : list string :=
  [ EmptyString ;
    "

镜头运动：" ;
    "
配音语言：使用" ;
    "配音" ].

(** [parts] with the [args] put between them, in order *)
Fixpoint weave (parts args : list string) : string :=
  match parts with
  | [] => EmptyString
  | p :: ps =>
      match args with
      | x :: xs => p +:+ x +:+ weave ps xs
      | [] => p +:+ weave ps []
      end
  end.

(** the id under which a handler bound to [shot] stores the keyframe of
    [type]: the id of the keyframe the closure knows, when it has one,
    otherwise an id made from the clock *)
Definition storedId (env : Env) (shot : Shot) (type : FrameType) (w : World) : string :=
  match nonEmpty (kf_id <$> findKeyframe shot type) with
  | Some id => id
  | None => generateId (keyframePrefix shot type) (dateNow env (tick w))
  end.

(** the tick at which the service called next answers: reading the clock
    for a fresh id takes one tick *)
Definition answerTick (shot : Shot) (type : FrameType) (w : World) : nat :=
  match nonEmpty (kf_id <$> findKeyframe shot type) with
  | Some _ => tick w
  | None => S (tick w)
  end.

(** the keyframe that a generation started in [w] leaves behind *)
Definition generatedKeyframe (env : Env) (closure : ProjectState) (shot : Shot)
    (type : FrameType) (w : World) : Keyframe :=
  match imageResult env (answerTick shot type w) with
  | inr url =>
      createKeyframe (storedId env shot type w) type
                     (generatedPrompt closure shot type) (Some url) Completed
  | inl _ =>
      createKeyframe (storedId env shot type w) type
                     (generatedPrompt closure shot type) None Failed
  end.

(** a keyframe without its prompt, an interval without its prompt *)
Definition keyframeSansPrompt (kf : Keyframe) : string * FrameType * option string * Status :=
  (kf_id kf, kf_type kf, imageUrl kf, kf_status kf).

Definition intervalSansPrompt (iv : Interval)
  : string * string * string * Z * Z * option string * Status :=
  (int_id iv, startKeyframeId iv, endKeyframeId iv, duration iv, motionStrength iv,
   videoUrl iv, int_status iv).

(** the requests sent to the video service, in order *)
Definition videoRequests (tr : list Event)
  : list (string * string * option string * VideoModel) :=
  omap (fun ev => match ev with
                  | EGenerateVideo prompt startImage endImage model =>
                      Some (prompt, startImage, endImage, model)
                  | _ => None
                  end) tr.



(** the list written by [updateKeyframeInShot]: [arr[idx] = x] when an
    element passes the test, [arr.push(x)] otherwise *)
Definition replaceOrPush {A} (p : A -> bool) (l : list A) (x : A) : list A :=
  match findIndex p l with
  | Some i => <[i := x]> l
  | None => l ++ [x]
  end.

(** at most one keyframe of each type *)
Definition oneKeyframePerType (s : Shot) : Prop :=
  NoDup (kf_type <$> default [] (keyframes s)).




(** * Properties *)

(** ** Facts about the string primitives *)

Section StringFacts.

Implicit Types s pat pre post b m t : string.

#[local] Arguments String.append : simpl nomatch.

Lemma string_length_app s t :
  String.length (s +:+ t) = (String.length s + String.length t)%nat.
Proof. induction s as [|c s IH]; simpl; [reflexivity | now rewrite IH]. Qed.

Lemma startsWith_app pat t : Js.startsWith pat (pat +:+ t) = true.
Proof.
  induction pat as [|c pat IH]; simpl; [reflexivity|].
  now rewrite Ascii.eqb_refl.
Qed.

Lemma startsWith_true pat s :
  Js.startsWith pat s = true -> exists t, s = pat +:+ t.
Proof.
  revert s. induction pat as [|c pat IH]; intros s H.
  - exists s. reflexivity.
  - destruct s as [|d s]; simpl in H; [discriminate|].
    destruct (Ascii.eqb_spec c d) as [->|]; [|discriminate].
    destruct (IH _ H) as [t ->]. now exists t.
Qed.

Lemma startsWith_iff pat s :
  Js.startsWith pat s = true <-> exists t, s = pat +:+ t.
Proof.
  split; [apply startsWith_true|]. intros [t ->]. apply startsWith_app.
Qed.

(** a prefix of [a +:+ t] that is no longer than [a] is a prefix of [a] *)
Lemma startsWith_shorter pat a t :
  Js.startsWith pat (a +:+ t) = true ->
  (String.length pat <= String.length a)%nat ->
  Js.startsWith pat a = true.
Proof.
  revert a. induction pat as [|c pat IH]; intros a H Hlen; [reflexivity|].
  destruct a as [|d a]; simpl in Hlen; [lia|].
  simpl in *. destruct (Ascii.eqb c d); [|discriminate].
  apply IH; [assumption | lia].
Qed.

(** when [b] is no longer than the pattern, matching [b +:+ t] against the
    pattern consumes [b] and goes on matching [t] *)
Lemma startsWith_split m b t :
  Js.startsWith m (b +:+ t) = true ->
  (String.length b <= String.length m)%nat ->
  Js.startsWith (Js.drop (String.length b) m) t = true.
Proof.
  revert m. induction b as [|c b IH]; intros m H Hlen.
  - destruct m; exact H.
  - destruct m as [|d m]; simpl in Hlen; [lia|].
    simpl in *. destruct (Ascii.eqb d c); [|discriminate].
    apply IH; [assumption | lia].
Qed.

Lemma length_drop n s :
  String.length (Js.drop n s) = (String.length s - n)%nat.
Proof.
  revert s. induction n as [|n IH]; intros [|c s]; simpl; auto.
Qed.

Lemma take_app_length a t : Js.take (String.length a) (a +:+ t) = a.
Proof. induction a as [|c a IH]; simpl; [now destruct t | now rewrite IH]. Qed.

Lemma drop_app_length a t : Js.drop (String.length a) (a +:+ t) = t.
Proof. induction a as [|c a IH]; simpl; [now destruct t | assumption]. Qed.

Lemma firstOccurrence_sound pat s n :
  Js.firstOccurrence pat s = Some n ->
  exists pre post, s = pre +:+ pat +:+ post /\ String.length pre = n.
Proof.
  revert n. induction s as [|c s IH]; intros n H; simpl in H.
  - destruct (Js.startsWith pat "") eqn:E; [|discriminate].
    injection H as <-. apply startsWith_true in E as [t E].
    exists "", t. split; [exact E | reflexivity].
  - destruct (Js.startsWith pat (String c s)) eqn:E.
    + injection H as <-. apply startsWith_true in E as [t E].
      exists "", t. split; [exact E | reflexivity].
    + destruct (Js.firstOccurrence pat s) as [k|] eqn:Ek; [|discriminate].
      injection H as <-. destruct (IH k eq_refl) as (pre & post & -> & Hl).
      exists (String c pre), post. simpl. split; [reflexivity | now rewrite Hl].
Qed.

Lemma firstOccurrence_complete pat pre post :
  exists n, Js.firstOccurrence pat (pre +:+ pat +:+ post) = Some n.
Proof.
  induction pre as [|c pre [n IH]].
  - exists 0%nat. simpl.
    destruct (pat +:+ post) eqn:E; simpl;
      rewrite <- E, startsWith_app; reflexivity.
  - simpl. destruct (Js.startsWith pat (String c (pre +:+ pat +:+ post))).
    + now exists 0%nat.
    + rewrite IH. now exists (S n).
Qed.

(** [includes] is the substring test *)
Lemma includes_spec s pat :
  Js.includes s pat = true <-> exists pre post, s = pre +:+ pat +:+ post.
Proof.
  unfold Js.includes. split.
  - destruct (Js.firstOccurrence pat s) as [n|] eqn:E; [|discriminate].
    intros _. destruct (firstOccurrence_sound _ _ _ E) as (pre & post & H & _).
    now exists pre, post.
  - intros (pre & post & ->).
    destruct (firstOccurrence_complete pat pre post) as [n ->]. reflexivity.
Qed.

Lemma includes_empty s : Js.includes s "" = true.
Proof. unfold Js.includes. destruct s; reflexivity. Qed.

Lemma includes_cons_false c s pat :
  Js.includes (String c s) pat = false ->
  Js.startsWith pat (String c s) = false /\ Js.includes s pat = false.
Proof.
  unfold Js.includes. simpl.
  destruct (Js.startsWith pat (String c s)); [discriminate|].
  destruct (Js.firstOccurrence pat s); [discriminate|]. auto.
Qed.

(** an occurrence of an unbordered pattern [m] in [b +:+ m +:+ t] that
    starts inside [b] lies within [b] *)
Lemma startsWith_straddle m b t c :
  Js.bordered m = false ->
  Js.includes (String c b) m = false ->
  Js.startsWith m (String c b +:+ m +:+ t) = false.
Proof.
  intros Hb Hinc.
  destruct (Js.startsWith m (String c b +:+ m +:+ t)) eqn:E; [|reflexivity].
  exfalso.
  destruct (includes_cons_false _ _ _ Hinc) as [Hs _].
  destruct (le_lt_dec (String.length m) (String.length (String c b))) as [Hle|Hlt].
  - rewrite (startsWith_shorter _ _ _ E Hle) in Hs. discriminate.
  - pose proof (startsWith_split _ _ _ E ltac:(lia)) as H1.
    apply startsWith_shorter in H1; [|rewrite length_drop; lia].
    assert (Hex : Js.bordered m = true); [|congruence].
    unfold Js.bordered. apply existsb_exists.
    exists (String.length (String c b)). split; [|exact H1].
    apply in_seq. simpl in *. lia.
Qed.

(** the first occurrence of an unbordered pattern after a text that does
    not contain it *)
Lemma firstOccurrence_after b m t :
  Js.bordered m = false ->
  Js.includes b m = false ->
  Js.firstOccurrence m (b +:+ m +:+ t) = Some (String.length b).
Proof.
  intros Hb. induction b as [|c b IH]; intros Hinc.
  - simpl. destruct (m +:+ t) eqn:E; simpl;
      rewrite <- E, startsWith_app; reflexivity.
  - pose proof (startsWith_straddle m b t c Hb Hinc) as Hs.
    simpl in Hs |- *. rewrite Hs.
    destruct (includes_cons_false _ _ _ Hinc) as [_ Hinc'].
    rewrite (IH Hinc'). reflexivity.
Qed.

Lemma substring_prefix a t :
  Js.substring (a +:+ t) 0 (Z.of_nat (String.length a)) = a.
Proof.
  unfold Js.substring. rewrite string_length_app.
  set (la := String.length a). set (lt := String.length t).
  replace (Z.min (Z.max 0 (Z.min 0 (Z.of_nat (la + lt))))
                 (Z.max 0 (Z.min (Z.of_nat la) (Z.of_nat (la + lt))))) with 0 by lia.
  replace (Z.max (Z.max 0 (Z.min 0 (Z.of_nat (la + lt))))
                 (Z.max 0 (Z.min (Z.of_nat la) (Z.of_nat (la + lt)))))
    with (Z.of_nat la) by lia.
  rewrite Z.sub_0_r, Nat2Z.id. simpl.
  replace (Js.drop 0 (a +:+ t)) with (a +:+ t) by (now destruct (a +:+ t)).
  apply take_app_length.
Qed.

(** the primitives on small inputs, as the JavaScript functions answer *)
Example indexOf_examples :
  Js.indexOf "abc" "" = 0 /\ Js.indexOf "abcabc" "bc" = 1 /\ Js.indexOf "abc" "x" = -1
  /\ Js.includes "zoom in shot" "zoom in" = true /\ Js.includes "" "" = true.
Proof. repeat split. Qed.

Example substring_examples :
  Js.substring "abcdef" 0 3 = "abc" /\ Js.substring "abcdef" 4 2 = "cd"
  /\ Js.substring "abc" (-1) 10 = "abc".
Proof. repeat split. Qed.

Example replace_examples :
  Js.replace "a {x} b {x}" "{x}" "1" = "a 1 b {x}"
  /\ Js.replace "a {x} b" "{x}" "[$&|$$|$1]" = "a [{x}|$|$1] b"
  /\ Js.replace "abc" "x" "y" = "abc"
  /\ Js.toLowerCase "Zoom In Shot" = "zoom in shot".
Proof. repeat split. Qed.

End StringFacts.

(** ** Camera-movement guide table *)

Section GuideTable.

Lemma lookupGuide_find movement entries :
  lookupGuide movement entries
  = snd <$> find (fun kg => matches movement (fst kg)) entries.
Proof.
  unfold find. induction entries as [|[key value] rest IH]; [reflexivity|].
  simpl. destruct (matches movement key) eqn:E.
  - rewrite decide_True by reflexivity. reflexivity.
  - rewrite decide_False by discriminate.
    rewrite IH. now destruct (list_find _ rest) as [[? [? ?]]|].
Qed.

Lemma lookupGuide_Some movement entries g :
  lookupGuide movement entries = Some g ->
  exists key, In (key, g) entries /\ matches movement key = true.
Proof.
  induction entries as [|[key value] rest IH]; simpl; [discriminate|].
  destruct (matches movement key) eqn:E.
  - intros [= <-]. exists key. auto.
  - intros H. destruct (IH H) as (k & Hin & Hm). exists k. auto.
Qed.

Lemma lookupGuide_None movement entries :
  forallb (fun kg => negb (matches movement (fst kg))) entries = true ->
  lookupGuide movement entries = None.
Proof.
  induction entries as [|[key value] rest IH]; simpl; [reflexivity|].
  destruct (matches movement key); simpl; [discriminate | exact IH].
Qed.

Lemma guides_nonEmpty : forallb nonEmptyGuide guides = true.
Proof. vm_compute. reflexivity. Qed.

Lemma pick_nonEmpty frameType key g :
  In (key, g) guides -> pick frameType g <> "".
Proof.
  intros Hin.
  pose proof (proj1 (forallb_forall _ _) guides_nonEmpty _ Hin) as H.
  unfold nonEmptyGuide in H. simpl in H.
  apply andb_prop in H as [H1 H2].
  destruct frameType; simpl; intros E; rewrite E in *; discriminate.
Qed.

(** whatever string is looked up (hence however the movement is
    lowercased), the instruction found is not empty *)
Lemma lookup_instruction_nonEmpty movement frameType :
  pick frameType (default genericGuide (lookupGuide movement guides)) <> "".
Proof.
  destruct (lookupGuide movement guides) as [g|] eqn:E; simpl.
  - destruct (lookupGuide_Some _ _ _ E) as (key & Hin & _).
    exact (pick_nonEmpty frameType key g Hin).
  - destruct frameType; discriminate.
Qed.

(** C8: the guide lookup is a total function that returns a non-empty
    instruction for every movement string (recognised or not, empty
    included) and both frame roles; when no table entry matches the
    lowercased movement, the result is the generic start or end
    instruction. *)
Theorem guide_total_nonempty (cameraMovement : string) (frameType : FrameType) :
  getCameraMovementCompositionGuide cameraMovement frameType <> ""
  /\ (forallb (fun kg => negb (matches (Js.toLowerCase cameraMovement) (fst kg)))
              guides = true ->
      getCameraMovementCompositionGuide cameraMovement frameType
      = pick frameType genericGuide).
Proof.
  unfold getCameraMovementCompositionGuide. split.
  - destruct (lookupGuide _ guides) as [g|] eqn:E.
    + destruct (lookupGuide_Some _ _ _ E) as (key & Hin & _).
      exact (pick_nonEmpty frameType key g Hin).
    + destruct frameType; discriminate.
  - intros H. now rewrite (lookupGuide_None _ _ H).
Qed.

Lemma guide_total_nonempty_witness :
  getCameraMovementCompositionGuide "Whip Pan" End
  = "Composition: Final frame composition showing the result of camera movement.".
Proof.
  apply (proj2 (guide_total_nonempty "Whip Pan" End)). vm_compute. reflexivity.
Defined.

Lemma matches_spec movement key :
  matches movement key = true <-> occursIn key movement \/ occursIn movement key.
Proof.
  unfold matches, occursIn. rewrite orb_true_iff, !includes_spec. reflexivity.
Qed.

(** C10: an entry matches exactly when the lowercased movement contains its
    key or its key contains the lowercased movement; the guide returns the
    instruction of the first matching entry in table order; hence the empty
    movement selects the first entry, [horizontal left shot], and not the
    generic instruction. *)
Theorem guide_bidirectional_match :
  (forall movement key,
      matches movement key = true
      <-> occursIn key movement \/ occursIn movement key)
  /\ (forall cameraMovement frameType,
         getCameraMovementCompositionGuide cameraMovement frameType
         = pick frameType
             (default genericGuide
                (snd <$> find (fun kg => matches (Js.toLowerCase cameraMovement) (fst kg))
                              guides)))
  /\ (exists g, head guides = Some ("horizontal left shot", g)
        /\ forall frameType,
             getCameraMovementCompositionGuide "" frameType = pick frameType g
             /\ pick frameType g <> pick frameType genericGuide).
Proof.
  split; [exact matches_spec|]. split.
  - intros cm ft. unfold getCameraMovementCompositionGuide.
    rewrite lookupGuide_find. now destruct (find _ guides) as [[? ?]|].
  - eexists. split; [reflexivity|].
    intros []; (split; [reflexivity | discriminate]).
Qed.

End GuideTable.

(** ** Prompt assembly and extraction of the base narrative *)

Section PromptLayering.

#[local] Arguments String.append : simpl nomatch.

Lemma styleMarker_unbordered : Js.bordered styleMarker = false.
Proof. vm_compute. reflexivity. Qed.

(** the assembled prompt is the base text, the marker, and a remainder *)
Lemma buildKeyframePrompt_shape base style cam type :
  exists rest, buildKeyframePrompt base style cam type = base +:+ styleMarker +:+ rest.
Proof.
  unfold buildKeyframePrompt, styleMarker, nl. eexists.
  simpl. reflexivity.
Qed.

Lemma extractBasePrompt_layered base rest fallback :
  base <> "" ->
  Js.includes base styleMarker = false ->
  extractBasePrompt (base +:+ styleMarker +:+ rest) fallback = base.
Proof.
  intros Hne Hinc. unfold extractBasePrompt, Js.indexOf.
  rewrite (firstOccurrence_after _ _ _ styleMarker_unbordered Hinc).
  destruct base as [|c base]; [congruence|].
  replace (0 <? Z.of_nat (String.length (String c base))) with true
    by (symmetry; apply Z.ltb_lt; simpl; lia).
  apply substring_prefix.
Qed.

Lemma extract_build base style cam type fallback :
  base <> "" ->
  Js.includes base styleMarker = false ->
  extractBasePrompt (buildKeyframePrompt base style cam type) fallback = base.
Proof.
  intros Hne Hinc.
  destruct (buildKeyframePrompt_shape base style cam type) as [rest ->].
  now apply extractBasePrompt_layered.
Qed.

Lemma buildKeyframePrompt_nonEmpty base style cam type :
  base <> "" -> nonEmpty (Some (buildKeyframePrompt base style cam type))
                = Some (buildKeyframePrompt base style cam type).
Proof.
  intros Hne. destruct (buildKeyframePrompt_shape base style cam type) as [rest ->].
  destruct base; [congruence | reflexivity].
Qed.

Lemma regeneratedPrompt_stable actionSummary style cam type n :
  actionSummary <> "" ->
  Js.includes actionSummary styleMarker = false ->
  regeneratedPrompt actionSummary style cam type n
  = buildKeyframePrompt actionSummary style cam type.
Proof.
  intros Hne Hinc. induction n as [|n IH]; [reflexivity|].
  simpl. rewrite IH. unfold keyframeBasePrompt.
  rewrite (buildKeyframePrompt_nonEmpty _ _ _ _ Hne).
  now rewrite extract_build.
Qed.

(** C2 (amended): for a non-empty base narrative that does not contain the
    visual-style marker, extracting the base prompt from the prompt
    assembled by [buildKeyframePrompt] gives back the narrative, whatever
    the style, camera movement and frame role; hence, starting from such
    an action summary, every one of N successive regenerations stores the
    same assembled prompt, whose base segment is the action summary. *)
Theorem extract_recovers_base
    (base style cam : string) (type : FrameType) (fallback : string) :
  base <> "" ->
  Js.includes base styleMarker = false ->
  extractBasePrompt (buildKeyframePrompt base style cam type) fallback = base
  /\ forall n,
       regeneratedPrompt base style cam type n
       = buildKeyframePrompt base style cam type
       /\ extractBasePrompt (regeneratedPrompt base style cam type n) fallback = base.
Proof.
  intros Hne Hinc. split; [now apply extract_build|].
  intros n. rewrite regeneratedPrompt_stable by assumption.
  split; [reflexivity | now apply extract_build].
Qed.

Lemma extract_recovers_base_witness :
  extractBasePrompt
    (regeneratedPrompt "A knight rides into the valley" "anime" "Zoom In Shot" Start 3)
    "fallback"
  = "A knight rides into the valley".
Proof.
  apply (proj2 (extract_recovers_base "A knight rides into the valley"
                  "anime" "Zoom In Shot" Start "fallback"
                  ltac:(discriminate) ltac:(vm_compute; reflexivity)) 3%nat).
Defined.

(** C2 as stated fails: for the empty narrative the extraction returns the
    whole assembled prompt (the marker sits at index 0, which the test
    [visualStyleIndex > 0] rejects), and a narrative that itself contains
    the marker is cut at its first occurrence. *)
Lemma extract_not_for_every_base :
  extractBasePrompt (buildKeyframePrompt "" "anime" "static shot" Start) ""
    = buildKeyframePrompt "" "anime" "static shot" Start
  /\ extractBasePrompt (buildKeyframePrompt "" "anime" "static shot" Start) "" <> ""
  /\ (let base := "Poster" +:+ styleMarker +:+ " noir" in
      extractBasePrompt (buildKeyframePrompt base "anime" "static shot" Start) base
        = "Poster"
      /\ extractBasePrompt (buildKeyframePrompt base "anime" "static shot" Start) base
         <> base).
Proof.
  split; [vm_compute; reflexivity|].
  split; [vm_compute; discriminate|].
  split; [vm_compute; reflexivity | vm_compute; discriminate].
Qed.

(** In the enhanced layout the section headers no longer contain the
    marker that [extractBasePrompt] searches, so the extraction returns the
    whole assembled prompt and the next regeneration layers the sections a
    second time. *)
Lemma enhanced_layout_is_relayered :
  let first := Enhanced.buildKeyframePrompt "A knight rides" "anime" "static shot" Start in
  Js.indexOf first styleMarker = -1
  /\ extractBasePrompt first "A knight rides" = first
  /\ Enhanced.buildKeyframePrompt (extractBasePrompt first "A knight rides")
       "anime" "static shot" Start <> first.
Proof.
  split; [vm_compute; reflexivity|].
  split; [vm_compute; reflexivity|].
  vm_compute. discriminate.
Qed.

End PromptLayering.

(** ** Reference resolver *)

Section ReferenceResolver.

Lemma pushCharacterImage_spec sd shot acc charId :
  pushCharacterImage sd shot acc charId
  = acc ++ option_list (characterImage sd shot charId).
Proof.
  unfold pushCharacterImage, characterImage, selectedVariationImage.
  destruct (find _ (sd_characters sd)) as [char|]; simpl;
    [|now rewrite app_nil_r].
  destruct (nonEmpty (characterVariations shot ≫= _)) as [vid|]; simpl.
  - destruct (variations char ≫= _) as [variation|]; simpl.
    + destruct (nonEmpty (var_referenceImage variation)); simpl; [reflexivity|].
      destruct (nonEmpty (char_referenceImage char)); simpl;
        [reflexivity | now rewrite app_nil_r].
    + destruct (nonEmpty (char_referenceImage char)); simpl;
        [reflexivity | now rewrite app_nil_r].
  - destruct (nonEmpty (char_referenceImage char)); simpl;
      [reflexivity | now rewrite app_nil_r].
Qed.

Lemma fold_pushCharacterImage sd shot chars acc :
  fold_left (pushCharacterImage sd shot) chars acc
  = acc ++ omap (characterImage sd shot) chars.
Proof.
  revert acc. induction chars as [|c chars IH]; intros acc; simpl.
  - now rewrite app_nil_r.
  - rewrite IH, pushCharacterImage_spec, <- app_assoc.
    now destruct (characterImage sd shot c).
Qed.

(** C6: the resolved list is the scene's reference image (when present)
    followed, for each character id in the shot's order, by the selected
    variation's image if a variation is selected and has one, otherwise by
    the character's base image, characters with neither being skipped; it
    is empty without script data; nothing is de-duplicated (the list is a
    plain concatenation, so an image referenced twice appears twice). *)
Theorem getRefImagesForShot_order (shot : Shot) (scriptData : option ScriptData) :
  getRefImagesForShot shot scriptData = resolveReferences shot scriptData
  /\ getRefImagesForShot shot None = []
  /\ (forall sd img charId base,
         sceneImage sd shot = Some img ->
         characters shot = Some [charId; charId] ->
         characterImage sd shot charId = Some base ->
         getRefImagesForShot shot (Some sd) = [img; base; base]).
Proof.
  assert (Heq : forall sdo, getRefImagesForShot shot sdo = resolveReferences shot sdo).
  { intros [sd|]; [|reflexivity].
    unfold getRefImagesForShot, resolveReferences, sceneImage.
    destruct (find _ (sd_scenes sd)) as [scene|]; simpl.
    - destruct (nonEmpty (scene_referenceImage scene)); simpl;
        (destruct (characters shot); simpl;
         [now rewrite fold_pushCharacterImage | reflexivity]).
    - destruct (characters shot); simpl;
        [now rewrite fold_pushCharacterImage | reflexivity]. }
  split; [apply Heq|]. split; [reflexivity|].
  intros sd img charId base Hscene Hchars Hchar.
  rewrite Heq. unfold resolveReferences.
  rewrite Hscene, Hchars. simpl. now rewrite Hchar.
Qed.

Lemma getRefImagesForShot_order_witness :
  let scene := mkScene "sc1" "harbour" (Some "img://scene") in
  let hero := mkCharacter "c1" "Hero" (Some "img://hero") None in
  let sd := mkScriptData [hero] [scene] None None in
  let shot := mkShot "s1" "sc1" "walks" "pan left shot"
                     (Some ["c1"; "c1"]) None None None None in
  getRefImagesForShot shot (Some sd) = ["img://scene"; "img://hero"; "img://hero"].
Proof.
  intros scene hero sd shot.
  exact (proj2 (proj2 (getRefImagesForShot_order shot (Some sd)))
           sd "img://scene" "c1" "img://hero" eq_refl eq_refl eq_refl).
Defined.

(** the scenario of the contract: a scene image and two characters with
    base images; the scene image comes first, then the characters in the
    order of the shot *)
Lemma getRefImagesForShot_scene_first :
  let scene := mkScene "sc1" "harbour" (Some "img://scene") in
  let a := mkCharacter "a" "Ann" (Some "img://ann") None in
  let b := mkCharacter "b" "Bob" (Some "img://bob") (Some [mkVariation "v1" "coat" (Some "img://bob-coat")]) in
  let sd := mkScriptData [a; b] [scene] None None in
  let shot vars := mkShot "s1" "sc1" "walks" "pan left shot"
                          (Some ["b"; "a"]) vars None None None in
  getRefImagesForShot (shot None) (Some sd) = ["img://scene"; "img://bob"; "img://ann"]
  /\ getRefImagesForShot (shot (Some {["b" := "v1"]})) (Some sd)
     = ["img://scene"; "img://bob-coat"; "img://ann"].
Proof. split; vm_compute; reflexivity. Qed.

End ReferenceResolver.

(** ** Nine-grid panel selection *)

Section NineGridSelection.

Import NineGrid.

Lemma panel_cell_unique i j :
  (i < 9)%nat -> (j < 9)%nat ->
  panelRow i = panelRow j -> panelColumn i = panelColumn j -> i = j.
Proof.
  unfold panelRow, panelColumn. intros Hi Hj Hr Hc.
  rewrite (Nat.div_mod_eq i 3), (Nat.div_mod_eq j 3). congruence.
Qed.

(** the labels of the source table follow the same row-major numbering *)
Lemma positionLabels_row_major :
  NINE_GRID.positionLabels
  = map (fun i => positionLabel (panelRow i) (panelColumn i)) (seq 0 NINE_GRID.panelCount).
Proof. vm_compute. reflexivity. Qed.

(** row-major auto-placement puts the child [idx] in row [idx div columns]
    and column [idx mod columns] *)
Lemma autoPlace_div_mod columns idx :
  (0 < columns)%nat ->
  autoPlace columns idx = (Nat.div idx columns, Nat.modulo idx columns).
Proof.
  intros Hc. induction idx as [|k IH]; simpl.
  - rewrite Nat.Div0.div_0_l, Nat.Div0.mod_0_l. reflexivity.
  - rewrite IH.
    pose proof (Nat.div_mod_eq k columns) as Hk.
    pose proof (Nat.mod_upper_bound k columns ltac:(lia)) as Hm.
    remember (Nat.div k columns) as q eqn:Eq.
    remember (Nat.modulo k columns) as m eqn:Em.
    clear Eq Em IH.
    destruct (Nat.ltb_spec (S m) columns) as [Hlt|Hge]; f_equal.
    + apply (Nat.div_unique _ _ _ (S m)); lia.
    + apply (Nat.mod_unique _ _ q); lia.
    + apply (Nat.div_unique _ _ _ 0%nat); nia.
    + apply (Nat.mod_unique _ _ (S q)); nia.
Qed.

(** C9: the rectangle of a panel is determined by its index alone: for
    every index below 9 the row is the index div 3 and the column the index
    mod 3 (both below 3; this is also the cell in which the preview
    overlay places the clickable area of that index), the rectangle starts
    at column thirds of the width and row thirds of the height and spans
    one third of each; index 4 gives the middle third of both the width and
    the height. *)
Theorem selectPanel_rectangle (width height : Q) (panelIndex : nat) :
  (panelIndex < NINE_GRID.panelCount)%nat ->
  let r := selectPanel width height panelIndex in
  (panelRow panelIndex = Nat.div panelIndex 3
   /\ panelColumn panelIndex = Nat.modulo panelIndex 3
   /\ (panelRow panelIndex < 3)%nat /\ (panelColumn panelIndex < 3)%nat
   /\ overlayCell panelIndex = (panelRow panelIndex, panelColumn panelIndex)
   /\ overlayRect width height panelIndex = r)
  /\ (3 * rect_x r == inject_Z (Z.of_nat (panelColumn panelIndex)) * width
      /\ 3 * rect_y r == inject_Z (Z.of_nat (panelRow panelIndex)) * height
      /\ 3 * rect_width r == width /\ 3 * rect_height r == height)%Q
  /\ (let c := selectPanel width height 4 in
      3 * rect_x c == width /\ 3 * (rect_x c + rect_width c) == 2 * width
      /\ 3 * rect_y c == height /\ 3 * (rect_y c + rect_height c) == 2 * height)%Q.
Proof.
  intros Hlt r. unfold NINE_GRID.panelCount in Hlt. split; [|split].
  - assert (Hcell : overlayCell panelIndex = (panelRow panelIndex, panelColumn panelIndex)).
    { unfold overlayCell. now rewrite autoPlace_div_mod by lia. }
    unfold panelRow, panelColumn in *. repeat split.
    + apply Nat.Div0.div_lt_upper_bound. lia.
    + apply Nat.mod_upper_bound. lia.
    + exact Hcell.
    + unfold overlayRect. rewrite Hcell. reflexivity.
  - subst r. unfold selectPanel. cbn [rect_x rect_y rect_width rect_height].
    repeat split; field.
  - unfold selectPanel. cbn [rect_x rect_y rect_width rect_height].
    change (panelColumn 4) with 1%nat. change (panelRow 4) with 1%nat.
    change (inject_Z (Z.of_nat 1)) with 1%Q.
    repeat split; field.
Qed.

Lemma selectPanel_rectangle_witness :
  (3 * rect_x (selectPanel 1920 1080 4) == 1920
   /\ 3 * (rect_x (selectPanel 1920 1080 4) + rect_width (selectPanel 1920 1080 4))
      == 2 * 1920)%Q
  /\ overlayCell 4 = (1, 1)%nat.
Proof.
  pose proof (selectPanel_rectangle 1920 1080 4 ltac:(unfold NINE_GRID.panelCount; lia))
    as ((_ & _ & _ & _ & Hcell & _) & _ & Hx & Hxw & _).
  split; [split; [exact Hx | exact Hxw] | exact Hcell].
Defined.

End NineGridSelection.

(** ** Reasoning about handlers *)

Section HandlerLogic.

Context (I : ProjectState -> Prop).

Lemma preserves_ret {A} (a : A) : preserves I (ret a).
Proof. intros w H. exact H. Qed.

Lemma preserves_bind {A B} (m : M A) (k : A -> M B) :
  preserves I m -> (forall a, preserves I (k a)) -> preserves I (bind m k).
Proof.
  intros Hm Hk w H. unfold bind. specialize (Hm w H).
  destruct (m w) as [[a|e] w']; simpl in *; [now apply Hk | exact Hm].
Qed.

Lemma preserves_tryCatch {A} (body : M A) (handler : JsError -> M A) :
  preserves I body -> (forall e, preserves I (handler e)) ->
  preserves I (tryCatch body handler).
Proof.
  intros Hb Hh w H. unfold tryCatch. specialize (Hb w H).
  destruct (body w) as [[a|e] w']; simpl in *; [exact Hb | now apply Hh].
Qed.

Lemma preserves_emit ev : preserves I (emit ev).
Proof. intros w H. exact H. Qed.

Lemma preserves_ask {A} (answer : nat -> A) : preserves I (ask answer).
Proof. intros w H. exact H. Qed.

Lemma preserves_await (r : M (JsError + string)) :
  preserves I r -> preserves I (await r).
Proof.
  intros Hr. apply preserves_bind; [exact Hr|].
  intros [e|v]; [intros w H; exact H | apply preserves_ret].
Qed.

Lemma preserves_updateProject (f : ProjectState -> ProjectState) :
  (forall p, I p -> I (f p)) -> preserves I (updateProject f).
Proof. intros Hf w H. now apply Hf. Qed.

Lemma preserves_if {A} (b : bool) (m1 m2 : M A) :
  preserves I m1 -> preserves I m2 -> preserves I (if b then m1 else m2).
Proof. now destruct b. Qed.

End HandlerLogic.

(** decompose a handler along its sequential structure *)
Ltac handler_steps :=
  repeat first
    [ apply preserves_ret
    | apply preserves_emit
    | apply preserves_ask
    | apply preserves_bind; [|intros ?]
    | apply preserves_tryCatch; [|intros ?]
    | apply preserves_await
    | apply preserves_if ].

(** unfold the sequential structure of a handler applied to a world *)
Ltac step_handler :=
  cbv beta iota delta
    [bind ret tryCatch await emit ask updateProject updateShot putKeyframe
     alert consoleError setBatchProgress delay generateImage generateVideo
     convertImageToBase64 windowConfirm];
  cbn [project trace tick fst snd].

Section HandlerFacts.

Context (I : ProjectState -> Prop).

Lemma preserves_alert msg : preserves I (alert msg).
Proof. apply preserves_emit. Qed.

Lemma preserves_keyframeId env existing prefix :
  preserves I (keyframeId env existing prefix).
Proof. unfold keyframeId. destruct (nonEmpty _); handler_steps. Qed.

Lemma preserves_generateImage env prompt refs :
  preserves I (generateImage env prompt refs).
Proof. unfold generateImage. handler_steps. Qed.

(** a handler of the keyframe family keeps [I] as soon as [I] survives
    every write, into a shot whose id satisfies [R], of a keyframe that
    satisfies [K] *)
Context (R : string -> Prop) (K : Keyframe -> Prop).
Context (put_ok : forall shotId type kf p,
            R shotId -> K kf -> kf_type kf = type ->
            I p -> I (mapShot shotId (fun s => updateKeyframeInShot s type kf) p)).

Lemma preserves_putKeyframe shotId type kf :
  R shotId -> K kf -> kf_type kf = type -> preserves I (putKeyframe shotId type kf).
Proof. intros HR HK Ht. apply preserves_updateProject. intros p. now apply put_ok. Qed.

Lemma preserves_handleGenerateKeyframe env closure shot type :
  R (shot_id shot) ->
  (forall id prompt, K (createKeyframe id type prompt None Generating)) ->
  (forall id prompt url, K (createKeyframe id type prompt (Some url) Completed)) ->
  (forall id prompt, K (createKeyframe id type prompt None Failed)) ->
  preserves I (handleGenerateKeyframe env closure shot type).
Proof.
  intros HR Hg Hc Hf. unfold handleGenerateKeyframe.
  apply preserves_bind; [apply preserves_keyframeId | intros kfId].
  apply preserves_bind; [now apply preserves_putKeyframe | intros _].
  apply preserves_tryCatch.
  - apply preserves_bind;
      [apply preserves_await, preserves_generateImage | intros url].
    now apply preserves_putKeyframe.
  - intros e. apply preserves_bind; [apply preserves_emit | intros _].
    apply preserves_bind; [now apply preserves_putKeyframe | intros _].
    apply preserves_if; [apply preserves_ret | apply preserves_alert].
Qed.

Lemma preserves_handleUploadKeyframeImage env shot type file :
  R (shot_id shot) ->
  (forall id prompt url, K (createKeyframe id type prompt (Some url) Completed)) ->
  preserves I (handleUploadKeyframeImage env shot type file).
Proof.
  intros HR Hc. unfold handleUploadKeyframeImage.
  destruct file as [file|]; [|apply preserves_ret].
  apply preserves_if; [apply preserves_alert|].
  apply preserves_tryCatch; [|intros e; apply preserves_alert].
  apply preserves_bind.
  - apply preserves_await. unfold convertImageToBase64. handler_steps.
  - intros url. apply preserves_bind; [apply preserves_keyframeId | intros kfId].
    now apply preserves_putKeyframe.
Qed.

Lemma preserves_handleCopyPreviousEndFrame env closure activeShotId :
  (forall id, R id) ->
  (forall id prompt url, K (createKeyframe id Start prompt (Some url) Completed)) ->
  preserves I (handleCopyPreviousEndFrame env closure activeShotId).
Proof.
  intros HR Hc. unfold handleCopyPreviousEndFrame.
  destruct (at_ (shots closure) _) as [activeShot|]; [|apply preserves_ret].
  apply preserves_if; [apply preserves_ret|].
  destruct (at_ (shots closure) _ ≫= _) as [pk|]; simpl; [|apply preserves_alert].
  destruct (imageUrl pk) as [url|] eqn:Hurl; simpl; [|apply preserves_alert].
  destruct (String.eqb url ""); [apply preserves_alert|].
  apply preserves_bind; [apply preserves_keyframeId | intros kfId].
  apply preserves_updateProject. intros p. now apply put_ok.
Qed.

(** the batch loop only writes into the shots it was given *)
Lemma preserves_batchLoop env closure total todo :
  Forall (fun shot => R (shot_id shot)) todo ->
  (forall id prompt url status, K (createKeyframe id Start prompt url status)) ->
  forall i, preserves I (batchLoop env closure total i todo).
Proof.
  intros Htodo HK. induction Htodo as [|shot todo HR _ IH]; intros i; simpl.
  - apply preserves_emit.
  - apply preserves_bind; [apply preserves_if; [apply preserves_emit | apply preserves_ret]|].
    intros _. apply preserves_bind; [apply preserves_emit | intros _].
    apply preserves_bind.
    + apply preserves_tryCatch.
      * apply preserves_bind; [|intros _; apply preserves_ret].
        apply preserves_handleGenerateKeyframe; auto.
      * intros e. apply preserves_bind; [apply preserves_emit | intros _].
        apply preserves_if; [|apply preserves_ret].
        apply preserves_bind; [apply preserves_emit | intros _; apply preserves_ret].
    + intros [|]; [apply preserves_ret | apply IH].
Qed.

Lemma preserves_handleBatchGenerateImages env closure :
  Forall (fun shot => R (shot_id shot))
         (shotsToProcess (allStartFramesGenerated closure) closure) ->
  (forall id prompt url status, K (createKeyframe id Start prompt url status)) ->
  preserves I (handleBatchGenerateImages env closure).
Proof.
  intros Htodo HK. unfold handleBatchGenerateImages.
  apply preserves_bind.
  - apply preserves_if; [|apply preserves_ret].
    unfold windowConfirm. handler_steps.
  - intros [|]; [|apply preserves_ret].
    apply preserves_if; [apply preserves_ret|].
    apply preserves_bind; [apply preserves_emit | intros _].
    now apply preserves_batchLoop.
Qed.

End HandlerFacts.

(** ** Keyframe invariant *)

Section KeyframeInvariant.

Lemma shotOk_updateKeyframeInShot s type kf :
  keyframeOk kf -> shotOk s -> shotOk (updateKeyframeInShot s type kf).
Proof.
  unfold shotOk, updateKeyframeInShot. intros Hkf Hs. simpl.
  destruct (findIndex _ _) as [i|].
  - now apply Forall_insert.
  - apply Forall_app. split; [exact Hs | now constructor].
Qed.

Lemma projectOk_mapShot shotId transform p :
  (forall s, shotOk s -> shotOk (transform s)) ->
  projectOk p -> projectOk (mapShot shotId transform p).
Proof.
  unfold projectOk, mapShot. simpl. intros Ht Hp.
  apply Forall_fmap. eapply Forall_impl; [exact Hp|].
  intros s Hs. simpl. destruct (String.eqb _ _); auto.
Qed.

Lemma projectOk_put shotId type kf p :
  True -> keyframeOk kf -> kf_type kf = type -> projectOk p ->
  projectOk (mapShot shotId (fun s => updateKeyframeInShot s type kf) p).
Proof.
  intros _ Hkf _ Hp. apply projectOk_mapShot; [|exact Hp].
  intros s. now apply shotOk_updateKeyframeInShot.
Qed.

Lemma keyframeOk_completed id type prompt url :
  keyframeOk (createKeyframe id type prompt (Some url) Completed).
Proof. split; [reflexivity | intros _; now exists url]. Qed.

Lemma keyframeOk_without_image id type prompt status :
  status <> Completed -> keyframeOk (createKeyframe id type prompt None status).
Proof.
  intros Hne. split; simpl; [intros [? [=]] | intros H; contradiction].
Qed.

Lemma shotOk_editKeyframes frameType text s :
  shotOk s -> shotOk (editKeyframes frameType text s).
Proof.
  unfold shotOk, editKeyframes. simpl. intros Hs.
  apply Forall_fmap. eapply Forall_impl; [exact Hs|].
  intros kf Hkf. simpl. destruct (bool_decide _); exact Hkf.
Qed.

Lemma preserves_editPrompt closure activeShotId frameType text :
  preserves projectOk
    (handleSaveEdit closure activeShotId (Some (mkEditModal EditKeyframe text frameType))).
Proof.
  unfold handleSaveEdit.
  destruct (at_ (shots closure) _) as [activeShot|]; [|apply preserves_ret].
  simpl. apply preserves_updateProject. intros p.
  apply projectOk_mapShot. intros s. apply shotOk_editKeyframes.
Qed.

Lemma preserves_perform env op : preserves projectOk (perform env op).
Proof.
  destruct op as [closure shot type|shot type file|closure sid|closure sid ft text]; simpl.
  - apply (preserves_handleGenerateKeyframe projectOk (fun _ => True) keyframeOk
             projectOk_put).
    + exact Logic.I.
    + intros. now apply keyframeOk_without_image.
    + intros. apply keyframeOk_completed.
    + intros. now apply keyframeOk_without_image.
  - apply (preserves_handleUploadKeyframeImage projectOk (fun _ => True) keyframeOk
             projectOk_put); [exact Logic.I|].
    intros. apply keyframeOk_completed.
  - apply (preserves_handleCopyPreviousEndFrame projectOk (fun _ => True) keyframeOk
             projectOk_put); [intros; exact Logic.I|].
    intros. apply keyframeOk_completed.
  - apply preserves_editPrompt.
Qed.

(** C3: starting from a project in which every keyframe has an image
    exactly when its status is completed, the same holds for every keyframe
    of every shot after any sequence of generate, upload,
    copy-previous-end-frame and edit-prompt operations, whatever the image
    service, the file reader and the clock answer, and whichever render
    the handlers were created in. *)
Theorem keyframe_image_iff_completed
    (env : Env) (ops : list KeyframeOp) (w : World) :
  projectOk (project w) ->
  forall s kf,
    s ∈ shots (project (snd (performAll env ops w))) ->
    kf ∈ default [] (keyframes s) ->
    (is_Some (imageUrl kf) <-> kf_status kf = Completed).
Proof.
  intros Hw.
  assert (H : projectOk (project (snd (performAll env ops w)))).
  { revert w Hw. induction ops as [|op ops IH]; intros w Hw; [exact Hw|].
    simpl. apply preserves_bind; [apply preserves_perform | | exact Hw].
    intros _ w' Hw'. now apply IH. }
  intros s kf Hs Hkf.
  unfold projectOk in H. rewrite Forall_forall in H.
  specialize (H s Hs). unfold shotOk in H. rewrite Forall_forall in H.
  exact (H kf Hkf).
Qed.

(** the scenario of the keyframe generator: a shot without keyframes is
    generated and the service answers [img://1] *)
Lemma keyframe_image_iff_completed_witness :
  let s0 := Demo.shot "s1" None in
  let p := Demo.projectOf [s0] in
  let env := Demo.env (fun _ => inr "img://1") false in
  let w' := snd (performAll env [OpGenerate p s0 Start] (mkWorld p [] 0)) in
  exists s kf,
    shots (project w') = [s] /\ keyframes s = Some [kf]
    /\ kf_status kf = Completed /\ imageUrl kf = Some "img://1"
    /\ (is_Some (imageUrl kf) <-> kf_status kf = Completed).
Proof.
  intros s0 p env w'.
  assert (Hok : projectOk (project (mkWorld p [] 0))).
  { repeat constructor. }
  pose proof (keyframe_image_iff_completed env [OpGenerate p s0 Start] _ Hok) as H.
  fold w' in H.
  destruct (shots (project w')) as [|s [|? ?]] eqn:Es; try (vm_compute in Es; discriminate).
  destruct (keyframes s) as [[|kf [|? ?]]|] eqn:Ek;
    try (vm_compute in Es; injection Es as <-; vm_compute in Ek; discriminate).
  exists s, kf. split; [reflexivity|]. split; [exact Ek|].
  assert (Hs : s ∈ [s]) by constructor.
  assert (Hk : kf ∈ default [] (keyframes s)) by (rewrite Ek; constructor).
  vm_compute in Es. injection Es as <-. vm_compute in Ek. injection Ek as <-.
  split; [reflexivity|]. split; [reflexivity|].
  exact (H _ _ Hs Hk).
Defined.

End KeyframeInvariant.

(** ** Lists of keyframes and of shots *)

Section Lookup.

Context {A : Type}.
Implicit Types (p : A -> bool) (l : list A).

Lemma find_cons p x l :
  find p (x :: l) = if p x then Some x else find p l.
Proof.
  unfold find. simpl. destruct (p x) eqn:E.
  - now rewrite decide_True.
  - rewrite decide_False by discriminate.
    now destruct (list_find _ l) as [[? ?]|].
Qed.

Lemma findIndex_cons p x l :
  findIndex p (x :: l) = if p x then Some 0%nat else S <$> findIndex p l.
Proof.
  unfold findIndex. simpl. destruct (p x) eqn:E.
  - now rewrite decide_True.
  - rewrite decide_False by discriminate.
    now destruct (list_find _ l) as [[? ?]|].
Qed.

Lemma findIndex_Some p l i :
  findIndex p l = Some i -> exists x, l !! i = Some x /\ p x = true.
Proof.
  revert i. induction l as [|a l IH]; intros i; [discriminate|].
  rewrite findIndex_cons. destruct (p a) eqn:E.
  - intros [= <-]. now exists a.
  - destruct (findIndex p l) as [j|]; [|discriminate].
    intros [= <-]. exact (IH j eq_refl).
Qed.

(** [arr[idx] = x] when found, [arr.push(x)] otherwise: [x] is then the
    first element that satisfies the test *)
Lemma find_replace_or_push p l x :
  p x = true ->
  find p (match findIndex p l with
          | Some i => <[i := x]> l
          | None => l ++ [x]
          end) = Some x.
Proof.
  intros Hx. induction l as [|a l IH].
  - change (findIndex p []) with (@None nat). rewrite app_nil_l.
    rewrite find_cons, Hx. reflexivity.
  - rewrite findIndex_cons. destruct (p a) eqn:E.
    + change (<[0%nat:=x]> (a :: l)) with (x :: l). now rewrite find_cons, Hx.
    + destruct (findIndex p l) as [i|].
      * change (find p (a :: <[i:=x]> l) = Some x).
        rewrite find_cons, E. exact IH.
      * change (find p (a :: (l ++ [x])) = Some x).
        rewrite find_cons, E. exact IH.
Qed.

End Lookup.

Lemma truthy_nonEmpty o : Js.truthy o = false <-> nonEmpty o = None.
Proof.
  unfold Js.truthy, nonEmpty. destruct o as [s|]; [|tauto].
  destruct (String.eqb s ""); simpl; split; congruence.
Qed.


Lemma findKeyframe_update s type kf :
  kf_type kf = type ->
  findKeyframe (updateKeyframeInShot s type kf) type = Some kf.
Proof.
  intros Ht. unfold findKeyframe, updateKeyframeInShot. simpl.
  apply find_replace_or_push. now apply bool_decide_eq_true.
Qed.

Lemma shots_mapShot shotId transform p i :
  shots (mapShot shotId transform p) !! i
  = (fun s => if String.eqb (shot_id s) shotId then transform s else s)
      <$> shots p !! i.
Proof. unfold mapShot. simpl. apply list_lookup_fmap. Qed.

Lemma activeShot_lookup p activeShotId i :
  activeShotIndexOf p activeShotId = Z.of_nat i ->
  exists cur, shots p !! i = Some cur /\ activeShotId = Some (shot_id cur)
              /\ at_ (shots p) (Z.of_nat i) = Some cur.
Proof.
  unfold activeShotIndexOf.
  destruct (findIndex _ (shots p)) as [j|] eqn:E; [|lia].
  intros H. apply Nat2Z.inj in H as ->.
  destruct (findIndex_Some _ _ _ E) as (cur & Hl & Hp).
  apply bool_decide_eq_true in Hp.
  exists cur. split; [exact Hl|]. split; [now symmetry|].
  unfold at_. destruct (Z.ltb_spec (Z.of_nat i) 0); [lia|]. now rewrite Nat2Z.id.
Qed.

(** ** Video generation *)

Section VideoGeneration.

(** C1: when the shot's start keyframe is absent or carries no image,
    video generation only raises the alert asking for a start frame: the
    handler returns at once, the project state (hence the Interval of every
    shot) is the one it found, and no request is sent to the video service.
    This holds for the handler of the modular stage and for the one of the
    single-file stage. *)
Theorem video_requires_start_image
    (env : Env) (closure : ProjectState) (shot : Shot) (w : World) :
  (findKeyframe shot Start = None
   \/ exists kf, findKeyframe shot Start = Some kf /\ Js.truthy (imageUrl kf) = false) ->
  (handleGenerateVideo env closure shot w = rejectedWith "请先生成起始帧！" w
   /\ Legacy.handleGenerateVideo env closure shot w = rejectedWith "请先生成起始帧！" w)
  /\ (let w' := snd (handleGenerateVideo env closure shot w) in
      project w' = project w
      /\ interval <$> shots (project w') = interval <$> shots (project w)
      /\ List.filter isNetworkCall (trace w') = List.filter isNetworkCall (trace w)).
Proof.
  intros H.
  assert (Hnew : handleGenerateVideo env closure shot w = rejectedWith "请先生成起始帧！" w).
  { unfold handleGenerateVideo.
    destruct H as [-> | (kf & -> & Ht)]; [reflexivity|].
    simpl. apply truthy_nonEmpty in Ht. now rewrite Ht. }
  split; [split; [exact Hnew|] |].
  - unfold Legacy.handleGenerateVideo.
    destruct H as [-> | (kf & -> & Ht)]; [reflexivity|].
    simpl. apply truthy_nonEmpty in Ht. now rewrite Ht.
  - rewrite Hnew. simpl. split; [reflexivity|]. split; [reflexivity|].
    rewrite List.filter_app. simpl. now rewrite app_nil_r.
Qed.

Lemma video_requires_start_image_witness :
  let shot := Demo.shot "s1" (Some [mkKeyframe "k1" Start "A knight rides" None Failed]) in
  let p := Demo.projectOf [shot] in
  handleGenerateVideo (Demo.env (fun _ => inr "img://1") false) p shot (mkWorld p [] 0)
  = (Ret tt, mkWorld p [EAlert "请先生成起始帧！"] 0).
Proof.
  intros shot p.
  refine (proj1 (proj1 (video_requires_start_image _ p shot (mkWorld p [] 0) _))).
  right. eexists. split; [vm_compute; reflexivity | reflexivity].
Defined.

(** with a start image the request is sent: single-image mode without an
    end image, dual-image mode with one *)
Lemma video_request_modes :
  let start := Demo.completedKeyframe "k1" Start "img://start" in
  let finish := Demo.completedKeyframe "k2" End "img://end" in
  let env := Demo.env (fun _ => inr "img://1") false in
  let requestOf kfs :=
    let shot := Demo.shot "s1" (Some kfs) in
    let p := Demo.projectOf [shot] in
    List.filter isNetworkCall (trace (snd (run (handleGenerateVideo env p shot) p))) in
  (exists prompt, requestOf [start] = [EGenerateVideo prompt "img://start" None Sora2])
  /\ (exists prompt,
        requestOf [start; finish]
        = [EGenerateVideo prompt "img://start" (Some "img://end") Sora2]).
Proof. split; eexists; vm_compute; reflexivity. Qed.

End VideoGeneration.

(** ** Continuity linker *)

Section ContinuityLinker.

Lemma at_pred {A} (l : list A) i :
  (0 < i)%nat -> at_ l (Z.of_nat i - 1) = l !! (i - 1)%nat.
Proof.
  intros Hi. unfold at_. destruct (Z.ltb_spec (Z.of_nat i - 1) 0); [lia|].
  f_equal. lia.
Qed.

(** what the handler does once the previous end keyframe [pk] has an image *)
Lemma copy_accepts env p activeShotId i cur pk w :
  activeShotIndexOf p activeShotId = Z.of_nat i -> (0 < i)%nat ->
  shots p !! i = Some cur ->
  shots p !! (i - 1)%nat ≫= (fun s => findKeyframe s End) = Some pk ->
  Js.truthy (imageUrl pk) = true ->
  exists id tk,
    handleCopyPreviousEndFrame env p activeShotId w
    = (Ret tt,
       mkWorld (mapShot (shot_id cur)
                  (fun s => updateKeyframeInShot s Start
                    (createKeyframe id Start (visualPrompt pk) (imageUrl pk) Completed))
                  (project w))
               (trace w) tk).
Proof.
  intros Hidx Hi Hcur Hprev Ht.
  destruct (activeShot_lookup _ _ _ Hidx) as (cur' & Hcur' & _ & Hat).
  assert (cur' = cur) as -> by congruence.
  unfold handleCopyPreviousEndFrame. rewrite Hidx, Hat.
  replace (Z.of_nat i =? 0) with false by (symmetry; apply Z.eqb_neq; lia).
  rewrite (at_pred _ _ Hi), Hprev.
  destruct (nonEmpty (Some pk ≫= imageUrl)) as [img|] eqn:En;
    [|apply truthy_nonEmpty in En; simpl in En; congruence].
  unfold keyframeId, bind, updateShot, updateProject, ask, ret.
  destruct (nonEmpty (kf_id <$> findKeyframe cur Start)) as [id|]; simpl;
    eexists; eexists; reflexivity.
Qed.

Lemma copy_rejects env p activeShotId i w :
  activeShotIndexOf p activeShotId = Z.of_nat i -> (0 < i)%nat ->
  nonEmpty ((shots p !! (i - 1)%nat ≫= (fun s => findKeyframe s End)) ≫= imageUrl) = None ->
  handleCopyPreviousEndFrame env p activeShotId w
  = rejectedWith "上一个镜头还没有生成结束帧" w.
Proof.
  intros Hidx Hi Hnone.
  destruct (activeShot_lookup _ _ _ Hidx) as (cur & Hcur & _ & Hat).
  unfold handleCopyPreviousEndFrame. rewrite Hidx, Hat.
  replace (Z.of_nat i =? 0) with false by (symmetry; apply Z.eqb_neq; lia).
  rewrite (at_pred _ _ Hi).
  destruct (shots p !! (i - 1)%nat ≫= _) as [pk|]; [|reflexivity].
  rewrite Hnone. reflexivity.
Qed.

(** C7: let the active shot sit at an index [i > 0] of the rendered shot
    list and let [previousEndKf] be the end keyframe of the shot before it.
    - If [previousEndKf] has an image, the handler returns without an alert
      and the shot at index [i] then has a start keyframe that is completed
      and carries exactly that image and that visualPrompt.
    - If [previousEndKf] is absent or has no image, the handler only raises
      the alert and the project state is untouched.
    - Under the keyframe invariant, having an image implies being
      completed, and a keyframe that is not completed is rejected.
    - In no case is a request sent to the image or video service. *)
Theorem copyPreviousEndFrame_spec
    (env : Env) (p : ProjectState) (activeShotId : option string)
    (i : nat) (w : World) :
  project w = p ->
  activeShotIndexOf p activeShotId = Z.of_nat i ->
  (0 < i)%nat ->
  let previousEndKf := shots p !! (i - 1)%nat ≫= (fun s => findKeyframe s End) in
  let result := handleCopyPreviousEndFrame env p activeShotId w in
  (forall pk, previousEndKf = Some pk -> Js.truthy (imageUrl pk) = true ->
     fst result = Ret tt /\ trace (snd result) = trace w
     /\ exists cur' kf,
          shots (project (snd result)) !! i = Some cur'
          /\ findKeyframe cur' Start = Some kf
          /\ kf_status kf = Completed
          /\ imageUrl kf = imageUrl pk
          /\ visualPrompt kf = visualPrompt pk)
  /\ (previousEndKf = None
      \/ (exists pk, previousEndKf = Some pk /\ Js.truthy (imageUrl pk) = false) ->
      result = rejectedWith "上一个镜头还没有生成结束帧" w)
  /\ (forall pk, previousEndKf = Some pk -> keyframeOk pk ->
        (Js.truthy (imageUrl pk) = true -> kf_status pk = Completed)
        /\ (kf_status pk <> Completed ->
            result = rejectedWith "上一个镜头还没有生成结束帧" w))
  /\ List.filter isNetworkCall (trace (snd result))
     = List.filter isNetworkCall (trace w).
Proof.
  intros Hw Hidx Hi previousEndKf result.
  destruct (activeShot_lookup _ _ _ Hidx) as (cur & Hcur & _ & _).
  assert (Hacc : forall pk, previousEndKf = Some pk -> Js.truthy (imageUrl pk) = true ->
            exists id tk, result
              = (Ret tt,
                 mkWorld (mapShot (shot_id cur)
                            (fun s => updateKeyframeInShot s Start
                               (createKeyframe id Start (visualPrompt pk) (imageUrl pk)
                                               Completed))
                            (project w))
                         (trace w) tk)).
  { intros pk Hpk Ht. now apply (copy_accepts env p activeShotId i cur pk w). }
  assert (Hrej : previousEndKf = None
                 \/ (exists pk, previousEndKf = Some pk /\ Js.truthy (imageUrl pk) = false) ->
                 result = rejectedWith "上一个镜头还没有生成结束帧" w).
  { intros H. apply (copy_rejects env p activeShotId i w Hidx Hi).
    fold previousEndKf. destruct H as [-> | (pk & -> & Ht)]; [reflexivity|].
    now apply truthy_nonEmpty. }
  split; [|split; [exact Hrej | split]].
  - intros pk Hpk Ht. destruct (Hacc pk Hpk Ht) as (id & tk & ->).
    cbn [fst snd project trace].
    split; [reflexivity|]. split; [reflexivity|].
    rewrite shots_mapShot, Hw, Hcur. cbn [fmap option_fmap option_map].
    rewrite String.eqb_refl.
    eexists. eexists. split; [reflexivity|].
    split; [now apply findKeyframe_update|]. repeat split.
  - intros pk Hpk Hok. split.
    + intros Ht. apply Hok. destruct (imageUrl pk); [eauto | discriminate].
    + intros Hst. apply Hrej. right. exists pk. split; [exact Hpk|].
      destruct (imageUrl pk) as [url|] eqn:Eu; [|reflexivity].
      exfalso. apply Hst. apply Hok. eauto.
  - destruct previousEndKf as [pk|] eqn:Epk.
    + destruct (Js.truthy (imageUrl pk)) eqn:Ht.
      * destruct (Hacc pk eq_refl Ht) as (id & tk & ->). reflexivity.
      * rewrite Hrej by eauto. simpl. rewrite List.filter_app. simpl.
        now rewrite app_nil_r.
    + rewrite Hrej by auto. simpl. rewrite List.filter_app. simpl.
      now rewrite app_nil_r.
Qed.

(** the scenario of the continuity linker: S1 ends on [img://end1], S2 has
    no start keyframe; after the copy S2 starts on that image *)
Lemma copyPreviousEndFrame_spec_witness :
  let pk := Demo.completedKeyframe "k-end1" End "img://end1" in
  let p := Demo.projectOf [Demo.shot "S1" (Some [pk]); Demo.shot "S2" None] in
  let result := handleCopyPreviousEndFrame (Demo.env (fun _ => inr "img://1") false)
                  p (Some "S2") (mkWorld p [] 0) in
  exists cur' kf,
    shots (project (snd result)) !! 1%nat = Some cur'
    /\ findKeyframe cur' Start = Some kf
    /\ kf_status kf = Completed
    /\ imageUrl kf = Some "img://end1"
    /\ visualPrompt kf = "A knight rides".
Proof.
  intros pk p result.
  destruct (copyPreviousEndFrame_spec (Demo.env (fun _ => inr "img://1") false)
              p (Some "S2") 1 (mkWorld p [] 0) eq_refl eq_refl ltac:(lia))
    as (Hacc & _).
  destruct (Hacc pk eq_refl eq_refl) as (_ & _ & cur' & kf & H).
  exists cur', kf. exact H.
Defined.

End ContinuityLinker.

(** ** Batch orchestration *)

Section BatchOrchestration.

Lemma imageRequests_app tr1 tr2 :
  imageRequests (tr1 ++ tr2) = imageRequests tr1 ++ imageRequests tr2.
Proof. apply omap_app. Qed.

(** [handleGenerateKeyframe] swallows the failure of the image service: it
    always returns normally, after exactly one request *)
Lemma handleGenerateKeyframe_run env p shot type w :
  exists w',
    handleGenerateKeyframe env p shot type w = (Ret tt, w')
    /\ imageRequests (trace w')
       = imageRequests (trace w)
         ++ [(generatedPrompt p shot type, getRefImagesForShot shot (scriptData p))].
Proof.
  unfold handleGenerateKeyframe, keyframeId, generatedPrompt.
  set (prompt := buildKeyframePrompt _ _ _ _).
  set (refs := getRefImagesForShot _ _).
  destruct w as [pw tr tk].
  destruct (nonEmpty (kf_id <$> findKeyframe shot type)) as [id|]; step_handler;
    (match goal with |- context [imageResult env ?n] =>
       destruct (imageResult env n) as [e|url] end);
    step_handler; try destruct (apiKeyErrorHandled env e); step_handler;
    (eexists; split; [reflexivity|]; cbn [trace];
     rewrite !imageRequests_app; simpl; now rewrite ?app_nil_r).
Qed.

(** the loop never leaves early: every shot it is given is sent to the
    image service, whatever the service and the credential handler answer *)
Lemma batchLoop_run env p total todo :
  forall i w,
  exists w',
    batchLoop env p total i todo w = (Ret tt, w')
    /\ imageRequests (trace w')
       = imageRequests (trace w) ++ map (requestFor p) todo.
Proof.
  induction todo as [|shot todo IH]; intros i [pw tr tk].
  - eexists. split; [reflexivity|]. cbn [trace].
    rewrite imageRequests_app. reflexivity.
  - cbn [batchLoop]. destruct (0 <? i)%nat; step_handler;
      (match goal with
       | |- context [handleGenerateKeyframe env p shot Start ?w0] =>
           destruct (handleGenerateKeyframe_run env p shot Start w0) as (w1 & E & Rq);
           rewrite E
       end);
      step_handler;
      destruct (IH (S i) w1) as (w' & E' & Rq');
      (exists w'; split; [exact E'|]);
      rewrite Rq', Rq; cbn [trace]; rewrite !imageRequests_app; simpl;
      rewrite ?app_nil_r, <- app_assoc; reflexivity.
Qed.

Lemma handleBatchGenerateImages_run env p w :
  exists w',
    handleBatchGenerateImages env p w = (Ret tt, w')
    /\ (allStartFramesGenerated p = false ->
        imageRequests (trace w')
        = imageRequests (trace w) ++ map (requestFor p) (shotsToProcess false p))
    /\ (allStartFramesGenerated p = true ->
        imageRequests (trace w')
        = imageRequests (trace w)
          ++ if confirmResult env (tick w)
             then map (requestFor p) (shotsToProcess true p) else []).
Proof.
  unfold handleBatchGenerateImages. destruct w as [pw tr tk].
  destruct (allStartFramesGenerated p) eqn:Hall; step_handler.
  - destruct (confirmResult env tk); step_handler.
    + destruct (length (shotsToProcess true p) =? 0)%nat eqn:Hlen; step_handler.
      * apply Nat.eqb_eq, nil_length_inv in Hlen. rewrite Hlen.
        eexists. split; [reflexivity|]. split; [discriminate|]. intros _.
        cbn [trace]. rewrite imageRequests_app. reflexivity.
      * match goal with
        | |- context [batchLoop env p ?n 0 ?todo ?w0] =>
            destruct (batchLoop_run env p n todo 0%nat w0) as (w' & E & Rq)
        end.
        exists w'. split; [exact E|]. split; [discriminate|]. intros _.
        rewrite Rq. cbn [trace]. rewrite !imageRequests_app. simpl.
        now rewrite ?app_nil_r.
    + eexists. split; [reflexivity|]. split; [discriminate|]. intros _.
      cbn [trace]. rewrite imageRequests_app. reflexivity.
  - destruct (length (shotsToProcess false p) =? 0)%nat eqn:Hlen; step_handler.
    + apply Nat.eqb_eq, nil_length_inv in Hlen. rewrite Hlen.
      eexists. split; [reflexivity|]. split; [|discriminate]. intros _.
      cbn [trace]. simpl. now rewrite app_nil_r.
    + match goal with
      | |- context [batchLoop env p ?n 0 ?todo ?w0] =>
          destruct (batchLoop_run env p n todo 0%nat w0) as (w' & E & Rq)
      end.
      exists w'. split; [exact E|]. split; [|discriminate]. intros _.
      rewrite Rq. cbn [trace]. rewrite !imageRequests_app. simpl.
      now rewrite ?app_nil_r.
Qed.

(** C4 at a failing input: two shots lack a start frame, the image service
    rejects every request and the credential handler reports each error as
    handled.  [handleGenerateKeyframe] has already caught the error, so the
    [catch] of the batch loop never runs: after the first failure the loop
    waits and sends the request of the second shot.  The single-file stage,
    whose loop calls the image service itself, stops after the first
    request. *)
Theorem batch_goes_on_after_credential_error :
  let s1 := Demo.shot "s1" None in
  let s2 := Demo.shot "s2" None in
  let p := Demo.projectOf [s1; s2] in
  let env := Demo.env (fun _ => inl (mkError "API key not valid")) true in
  let r1 := requestFor p s1 in
  let r2 := requestFor p s2 in
  trace (snd (run (handleBatchGenerateImages env p) p))
  = [ ESetBatchProgress (Some (0, 2, "正在批量生成缺失的首帧..."))%nat;
      ESetBatchProgress (Some (1, 2, progressMessage 0 2))%nat;
      EGenerateImage (fst r1) (snd r1);
      EConsoleError "API key not valid";
      EDelay 3000;
      ESetBatchProgress (Some (2, 2, progressMessage 1 2))%nat;
      EGenerateImage (fst r2) (snd r2);
      EConsoleError "API key not valid";
      ESetBatchProgress None ]
  /\ imageRequests (trace (snd (run (Legacy.handleBatchGenerateImages env p) p)))
     = [legacyRequestFor p s1].
Proof. split; vm_compute; reflexivity. Qed.

(** a failure that the credential handler does not take over is reported
    by an alert, and the loop goes on with the next shot: the two kinds of
    failure differ by the alert only *)
Lemma batch_goes_on_after_transient_error :
  let s1 := Demo.shot "s1" None in
  let s2 := Demo.shot "s2" None in
  let p := Demo.projectOf [s1; s2] in
  let env := Demo.env (fun n => match n with
                                | 1%nat => inl (mkError "overloaded")
                                | _ => inr "img://2"
                                end) false in
  let tr := trace (snd (run (handleBatchGenerateImages env p) p)) in
  imageRequests tr = [requestFor p s1; requestFor p s2]
  /\ List.filter (fun ev => match ev with EAlert _ | EConsoleError _ => true | _ => false end) tr
     = [EConsoleError "overloaded"; EAlert "生成失败: overloaded"]
  /\ (kf_status <$> (shots (project (snd (run (handleBatchGenerateImages env p) p)))
                     ≫= fun s => default [] (keyframes s)))
     = [Failed; Completed].
Proof. repeat split; vm_compute; reflexivity. Qed.

Lemma put_elsewhere (s : Shot) (i : nat) shotId type kf p :
  shotId <> shot_id s -> True -> kf_type kf = type ->
  shots p !! i = Some s ->
  shots (mapShot shotId (fun s => updateKeyframeInShot s type kf) p) !! i = Some s.
Proof.
  intros Hne _ _ Hl. rewrite shots_mapShot, Hl. simpl.
  destruct (String.eqb_spec (shot_id s) shotId); [congruence | reflexivity].
Qed.

(** with distinct ids, no shot handed to the fill-missing batch shares its
    id with a shot that already has a start image *)
Lemma todo_ids_differ p i s :
  NoDup (shot_id <$> shots p) ->
  shots p !! i = Some s -> hasImage s Start = true ->
  Forall (fun t => shot_id t <> shot_id s) (shotsToProcess false p).
Proof.
  intros Hnd Hs Himg. apply Forall_forall. intros t Ht.
  apply list_elem_of_In, filter_In in Ht as [Hin Hno].
  apply list_elem_of_In, list_elem_of_lookup in Hin as [j Hj].
  intros Heq.
  assert (i = j) as <-.
  { eapply NoDup_lookup; [exact Hnd | |].
    - rewrite list_lookup_fmap, Hs. reflexivity.
    - rewrite list_lookup_fmap, Hj. simpl. now rewrite Heq. }
  assert (t = s) as -> by congruence.
  rewrite Himg in Hno. discriminate.
Qed.

Lemma batch_leaves_completed_untouched env p w i s :
  project w = p ->
  allStartFramesGenerated p = false ->
  NoDup (shot_id <$> shots p) ->
  shots p !! i = Some s -> hasImage s Start = true ->
  shots (project (snd (handleBatchGenerateImages env p w))) !! i = Some s.
Proof.
  intros Hw Hall Hnd Hs Himg.
  apply (preserves_handleBatchGenerateImages
           (fun q => shots q !! i = Some s)
           (fun id => id <> shot_id s) (fun _ => True)
           (put_elsewhere s i) env p).
  - rewrite Hall. now apply (todo_ids_differ p i s).
  - intros. exact Logic.I.
  - now rewrite Hw.
Qed.

(** the loop of the single-file stage sends requests for a prefix of the
    shots it is given, and for nothing else *)
Lemma legacy_batchLoop_requests env p total todo :
  forall cs i w,
  exists k,
    imageRequests (trace (snd (Legacy.batchLoop env p total i todo cs w)))
    = imageRequests (trace w) ++ map (legacyRequestFor p) (take k todo).
Proof.
  induction todo as [|shot todo IH]; intros cs i [pw tr tk].
  - exists 0%nat. cbn [Legacy.batchLoop]. step_handler.
    rewrite imageRequests_app. reflexivity.
  - cbn [Legacy.batchLoop]. unfold keyframeId.
    destruct (0 <? i)%nat;
      destruct (nonEmpty (kf_id <$> findKeyframe shot Start)) as [id|]; step_handler;
      (match goal with |- context [imageResult env ?n] =>
         destruct (imageResult env n) as [e|url] end);
      step_handler; try destruct (apiKeyErrorHandled env e); step_handler;
      try (exists 1%nat; cbn [take map];
           rewrite !imageRequests_app; simpl; rewrite ?app_nil_r, <- ?app_assoc;
           reflexivity);
      (match goal with
       | |- context [Legacy.batchLoop env p total (S i) todo ?cs' ?w1] =>
           destruct (IH cs' (S i) w1) as (k & Hk); exists (S k); rewrite Hk
       end);
      cbn [trace take map]; rewrite !imageRequests_app; simpl;
      rewrite ?app_nil_r, <- ?app_assoc; reflexivity.
Qed.

(** it writes only into the shots it is given *)
Lemma legacy_batchLoop_untouched env p total s j todo :
  Forall (fun t => shot_id t <> shot_id s) todo ->
  forall cs i w,
    cs !! j = Some s -> shots (project w) !! j = Some s ->
    shots (project (snd (Legacy.batchLoop env p total i todo cs w))) !! j = Some s.
Proof.
  induction 1 as [|shot todo Hne _ IH]; intros cs i [pw tr tk] Hcs Hw.
  - exact Hw.
  - cbn [Legacy.batchLoop]. unfold keyframeId.
    assert (Hcs' : forall kf,
               map (fun s0 => if String.eqb (shot_id s0) (shot_id shot)
                              then updateKeyframeInShot s0 Start kf else s0) cs !! j
               = Some s).
    { intros kf. rewrite list_lookup_fmap, Hcs. simpl.
      destruct (String.eqb_spec (shot_id s) (shot_id shot)); [congruence | reflexivity]. }
    destruct (0 <? i)%nat;
      destruct (nonEmpty (kf_id <$> findKeyframe shot Start)) as [id|]; step_handler;
      (match goal with |- context [imageResult env ?n] =>
         destruct (imageResult env n) as [e|url] end);
      step_handler; try destruct (apiKeyErrorHandled env e); step_handler;
      try exact Hw;
      apply IH; cbn [project]; solve [exact Hcs | exact Hw | apply Hcs'].
Qed.

Lemma legacy_batch_run env p w :
  project w = p ->
  allStartFramesGenerated p = false ->
  let w' := snd (Legacy.handleBatchGenerateImages env p w) in
  (exists k,
     imageRequests (trace w')
     = imageRequests (trace w)
       ++ map (legacyRequestFor p) (take k (shotsToProcess false p)))
  /\ (NoDup (shot_id <$> shots p) ->
      forall i s, shots p !! i = Some s -> hasImage s Start = true ->
                  shots (project w') !! i = Some s).
Proof.
  intros Hw Hall. unfold Legacy.handleBatchGenerateImages. rewrite Hall.
  destruct w as [pw tr tk]. cbn [project] in Hw. subst pw.
  step_handler.
  destruct (length (shotsToProcess false p) =? 0)%nat eqn:Hlen; step_handler.
  - split; [exists 0%nat; simpl; now rewrite app_nil_r | auto].
  - split.
    + match goal with
      | |- context [Legacy.batchLoop env p ?n 0 ?todo ?cs ?w0] =>
          destruct (legacy_batchLoop_requests env p n todo cs 0%nat w0) as (k & Hk)
      end.
      exists k. rewrite Hk. cbn [trace]. rewrite imageRequests_app. simpl.
      now rewrite app_nil_r.
    + intros Hnd i s Hs Himg.
      apply legacy_batchLoop_untouched; [|exact Hs | exact Hs].
      now apply (todo_ids_differ p i s).
Qed.

(** C5 (amended): in a project whose start frames are not all generated the
    batch runs in fill-missing mode: it selects exactly the shots without a
    start image, in project order; the requests sent to the image service
    are those of the selected shots, one per shot and in that order (the
    single-file stage sends a prefix of them); and when shot ids are
    pairwise distinct every shot that already has a start image is found
    unchanged at its position afterwards.  When every shot has a start
    image the batch runs in regenerate-all mode: it selects all shots and,
    once the user has confirmed, sends one request per shot. *)
Theorem batch_fill_missing (env : Env) (p : ProjectState) (w : World) :
  project w = p ->
  let w' := snd (handleBatchGenerateImages env p w) in
  let legacy := snd (Legacy.handleBatchGenerateImages env p w) in
  (allStartFramesGenerated p = false ->
     shotsToProcess (allStartFramesGenerated p) p
       = List.filter (fun s => negb (hasImage s Start)) (shots p)
     /\ imageRequests (trace w')
        = imageRequests (trace w)
          ++ map (requestFor p) (List.filter (fun s => negb (hasImage s Start)) (shots p))
     /\ (exists k,
           imageRequests (trace legacy)
           = imageRequests (trace w)
             ++ map (legacyRequestFor p)
                    (take k (List.filter (fun s => negb (hasImage s Start)) (shots p))))
     /\ (NoDup (shot_id <$> shots p) ->
         forall i s, shots p !! i = Some s -> hasImage s Start = true ->
                     shots (project w') !! i = Some s
                     /\ shots (project legacy) !! i = Some s))
  /\ (allStartFramesGenerated p = true ->
        shotsToProcess (allStartFramesGenerated p) p = shots p
        /\ (confirmResult env (tick w) = true ->
            imageRequests (trace w')
            = imageRequests (trace w) ++ map (requestFor p) (shots p))).
Proof.
  intros Hw w' legacy. split; intros Hall; rewrite Hall.
  - destruct (handleBatchGenerateImages_run env p w) as (w1 & E & Hfill & _).
    destruct (legacy_batch_run env p w Hw Hall) as (Hlk & Hlu).
    split; [reflexivity|]. split; [|split; [exact Hlk|]].
    + subst w'. rewrite E. exact (Hfill Hall).
    + intros Hnd i s Hs Himg. split.
      * now apply batch_leaves_completed_untouched.
      * now apply Hlu.
  - destruct (handleBatchGenerateImages_run env p w) as (w1 & E & _ & Hre).
    split; [reflexivity|]. intros Hc.
    subst w'. rewrite E. cbn [snd]. rewrite (Hre Hall), Hc. reflexivity.
Qed.

Lemma batch_fill_missing_witness :
  let done := Demo.shot "s1" (Some [Demo.completedKeyframe "k1" Start "img://done"]) in
  let missing := Demo.shot "s2" None in
  let p := Demo.projectOf [done; missing] in
  let env := Demo.env (fun _ => inr "img://new") false in
  let w' := snd (handleBatchGenerateImages env p (mkWorld p [] 0)) in
  imageRequests (trace w') = [requestFor p missing]
  /\ shots (project w') !! 0%nat = Some done.
Proof.
  intros done missing p env w'.
  destruct (batch_fill_missing env p (mkWorld p [] 0) eq_refl) as [Hfill _].
  destruct (Hfill eq_refl) as (_ & Hreq & _ & Hkeep).
  split; [exact Hreq|].
  refine (proj1 (Hkeep _ 0%nat done eq_refl eq_refl)).
  apply (bool_decide_unpack _). vm_compute. exact Logic.I.
Defined.

(** C5 as stated fails when two shots share an id: the update of the shot
    that lacks a start frame is keyed by that id and rewrites the start
    keyframe of the completed shot as well. *)
Lemma batch_rewrites_completed_shot_with_shared_id :
  let missing := Demo.shot "dup" None in
  let done := Demo.shot "dup" (Some [Demo.completedKeyframe "k1" Start "img://done"]) in
  let p := Demo.projectOf [missing; done] in
  let env := Demo.env (fun _ => inr "img://new") false in
  let w' := snd (run (handleBatchGenerateImages env p) p) in
  allStartFramesGenerated p = false
  /\ shots p !! 1%nat = Some done /\ hasImage done Start = true
  /\ shots (project w') !! 1%nat <> Some done
  /\ (shots (project w') !! 1%nat ≫= fun s => findKeyframe s Start ≫= imageUrl)
     = Some "img://new".
Proof.
  repeat split; try (vm_compute; reflexivity).
  vm_compute. discriminate.
Qed.

End BatchOrchestration.

(** ** Keyframe generation *)

Section KeyframeGeneration.

Lemma shot_id_updateKeyframeInShot s type kf :
  shot_id (updateKeyframeInShot s type kf) = shot_id s.
Proof. reflexivity. Qed.

(** what a call of [handleGenerateKeyframe] leaves in the shot it was
    bound to: a keyframe of the requested type that stores the assembled
    prompt; it is completed with the returned image when the service
    answers, failed and without image otherwise *)
Lemma handleGenerateKeyframe_stores_prompt env p shot type i w :
  project w = p -> shots p !! i = Some shot ->
  let answer := imageResult env (match nonEmpty (kf_id <$> findKeyframe shot type) with
                                 | Some _ => tick w
                                 | None => S (tick w)
                                 end) in
  exists s' kf,
    shots (project (snd (handleGenerateKeyframe env p shot type w))) !! i = Some s'
    /\ findKeyframe s' type = Some kf
    /\ visualPrompt kf = generatedPrompt p shot type
    /\ actionSummary s' = actionSummary shot
    /\ cameraMovement s' = cameraMovement shot
    /\ match answer with
       | inr url => kf_status kf = Completed /\ imageUrl kf = Some url
       | inl _ => kf_status kf = Failed /\ imageUrl kf = None
       end.
Proof.
  intros Hw Hs. destruct w as [pw tr tk]. cbn [project] in Hw. subst pw.
  unfold handleGenerateKeyframe, keyframeId, generatedPrompt. cbn [tick].
  set (prompt := buildKeyframePrompt _ _ _ _).
  set (refs := getRefImagesForShot _ _).
  assert (Hput : forall kf1 kf2,
            kf_type kf2 = type ->
            exists s',
              shots (mapShot (shot_id shot) (fun s => updateKeyframeInShot s type kf2)
                       (mapShot (shot_id shot) (fun s => updateKeyframeInShot s type kf1) p))
                !! i = Some s'
              /\ findKeyframe s' type = Some kf2
              /\ actionSummary s' = actionSummary shot
              /\ cameraMovement s' = cameraMovement shot).
  { intros kf1 kf2 Ht. rewrite !shots_mapShot, Hs.
    cbn [fmap option_fmap option_map]. rewrite String.eqb_refl.
    rewrite shot_id_updateKeyframeInShot, String.eqb_refl.
    eexists. split; [reflexivity|].
    split; [now apply findKeyframe_update | split; reflexivity]. }
  destruct (nonEmpty (kf_id <$> findKeyframe shot type)) as [id|]; step_handler;
    (match goal with |- context [imageResult env ?n] =>
       destruct (imageResult env n) as [e|url] end);
    step_handler; try destruct (apiKeyErrorHandled env e); step_handler;
    (match goal with
     | |- context [mapShot _ (fun a => updateKeyframeInShot a type ?kf2)
                     (mapShot _ (fun b => updateKeyframeInShot b type ?kf1) p)] =>
         destruct (Hput kf1 kf2 eq_refl) as (s' & H1 & H2 & H3 & H4);
         exists s', kf2; repeat split; assumption
     end).
Qed.

End KeyframeGeneration.

(** * Further properties *)

(** ** Replacing or adding the keyframe of a type *)

Section KeyframeStore.

Context {A : Type}.
Implicit Types (p q : A -> bool) (l : list A).

Lemma replaceOrPush_cons p a l x :
  replaceOrPush p (a :: l) x
  = if p a then x :: l else a :: replaceOrPush p l x.
Proof.
  unfold replaceOrPush. rewrite findIndex_cons.
  destruct (p a); [reflexivity|]. now destruct (findIndex p l).
Qed.

Lemma replaceOrPush_nil p x : replaceOrPush p [] x = [x].
Proof. reflexivity. Qed.

Lemma find_replaceOrPush_other p q l x :
  q x = false -> (forall y, p y = true -> q y = false) ->
  find q (replaceOrPush p l x) = find q l.
Proof.
  intros Hx Hpq. induction l as [|a l IH].
  - rewrite replaceOrPush_nil, !find_cons, Hx. reflexivity.
  - rewrite replaceOrPush_cons. destruct (p a) eqn:E.
    + rewrite !find_cons, Hx, (Hpq a E). reflexivity.
    + rewrite !find_cons, IH. reflexivity.
Qed.

Lemma replaceOrPush_twice p l x y :
  p x = true -> replaceOrPush p (replaceOrPush p l x) y = replaceOrPush p l y.
Proof.
  intros Hx. induction l as [|a l IH].
  - rewrite replaceOrPush_nil, replaceOrPush_cons, Hx. reflexivity.
  - rewrite !replaceOrPush_cons. destruct (p a) eqn:E.
    + rewrite replaceOrPush_cons, Hx. reflexivity.
    + rewrite replaceOrPush_cons, E, IH. reflexivity.
Qed.

Lemma length_replaceOrPush p l x :
  length (replaceOrPush p l x)
  = (length l + match find p l with Some _ => 0 | None => 1 end)%nat.
Proof.
  induction l as [|a l IH].
  - reflexivity.
  - rewrite replaceOrPush_cons, find_cons. destruct (p a); simpl; [lia|].
    rewrite IH. reflexivity.
Qed.

Lemma elem_of_replaceOrPush p l x y :
  y ∈ replaceOrPush p l x -> y = x \/ y ∈ l.
Proof.
  induction l as [|b l IH]; intros H.
  - rewrite replaceOrPush_nil in H. apply list_elem_of_singleton in H. auto.
  - rewrite replaceOrPush_cons in H. destruct (p b).
    + apply elem_of_cons in H as [->|H]; [auto|].
      right. apply elem_of_cons. now right.
    + apply elem_of_cons in H as [->|H].
      * right. apply elem_of_cons. now left.
      * destruct (IH H) as [->|H1]; [auto|].
        right. apply elem_of_cons. now right.
Qed.

End KeyframeStore.

Lemma updateKeyframeInShot_keyframes s type kf :
  keyframes (updateKeyframeInShot s type kf)
  = Some (replaceOrPush (fun k => bool_decide (kf_type k = type))
                        (default [] (keyframes s)) kf).
Proof. reflexivity. Qed.

Lemma NoDup_types_replaceOrPush type (l : list Keyframe) kf :
  kf_type kf = type ->
  NoDup (kf_type <$> l) ->
  NoDup (kf_type <$> replaceOrPush (fun k => bool_decide (kf_type k = type)) l kf).
Proof.
  intros Ht. induction l as [|a l IH]; intros Hnd.
  - rewrite replaceOrPush_nil. simpl. apply NoDup_singleton.
  - rewrite replaceOrPush_cons. rewrite fmap_cons in Hnd.
    apply NoDup_cons in Hnd as [Hnotin Hnd].
    destruct (bool_decide (kf_type a = type)) eqn:E.
    + apply bool_decide_eq_true in E. rewrite fmap_cons, Ht, <- E.
      now apply NoDup_cons.
    + apply bool_decide_eq_false in E. rewrite fmap_cons.
      apply NoDup_cons. split; [|now apply IH].
      intros Hin. apply list_elem_of_fmap in Hin as (k & Hk & Hin).
      destruct (elem_of_replaceOrPush _ _ _ _ Hin) as [->|Hin'].
      * congruence.
      * apply Hnotin. rewrite Hk. apply list_elem_of_fmap. eauto.
Qed.

(** X1: after [updateKeyframeInShot] with a keyframe of the requested type,
    looking up that type gives the new keyframe and looking up the other
    type gives what was there before. *)
Theorem updateKeyframeInShot_lookup (s : Shot) (type : FrameType) (kf : Keyframe) :
  kf_type kf = type ->
  findKeyframe (updateKeyframeInShot s type kf) type = Some kf
  /\ (forall other, other <> type ->
        findKeyframe (updateKeyframeInShot s type kf) other = findKeyframe s other).
Proof.
  intros Ht. split; [now apply findKeyframe_update|].
  intros other Hne. unfold findKeyframe.
  rewrite updateKeyframeInShot_keyframes. simpl.
  rewrite find_replaceOrPush_other.
  - now destruct (keyframes s).
  - apply bool_decide_eq_false. congruence.
  - intros y Hy. apply bool_decide_eq_true in Hy.
    apply bool_decide_eq_false. congruence.
Qed.

Lemma updateKeyframeInShot_lookup_witness :
  let s := Demo.shot "s1" (Some [Demo.completedKeyframe "k2" End "img://end"]) in
  let kf := Demo.completedKeyframe "k1" Start "img://start" in
  findKeyframe (updateKeyframeInShot s Start kf) Start = Some kf
  /\ findKeyframe (updateKeyframeInShot s Start kf) End
     = Some (Demo.completedKeyframe "k2" End "img://end").
Proof.
  intros s kf.
  destruct (updateKeyframeInShot_lookup s Start kf eq_refl) as (H1 & H2).
  split; [exact H1|]. rewrite (H2 End) by discriminate. reflexivity.
Defined.

(** X2: [updateKeyframeInShot] never stores a second keyframe of a type:
    the list grows by one exactly when the shot had no keyframe of that
    type, a second write of the same type overwrites the first, and a shot
    with at most one keyframe per type stays so. *)
Theorem updateKeyframeInShot_overwrites
    (s : Shot) (type : FrameType) (kf1 kf2 : Keyframe) :
  kf_type kf1 = type ->
  updateKeyframeInShot (updateKeyframeInShot s type kf1) type kf2
  = updateKeyframeInShot s type kf2
  /\ length (default [] (keyframes (updateKeyframeInShot s type kf1)))
     = (length (default [] (keyframes s))
        + match findKeyframe s type with Some _ => 0 | None => 1 end)%nat
  /\ (oneKeyframePerType s -> oneKeyframePerType (updateKeyframeInShot s type kf1)).
Proof.
  intros Ht. split; [|split].
  - unfold updateKeyframeInShot at 1.
    rewrite updateKeyframeInShot_keyframes.
    change (default [] (Some ?l)) with l.
    fold (replaceOrPush (fun k => bool_decide (kf_type k = type))
            (replaceOrPush (fun k => bool_decide (kf_type k = type))
               (default [] (keyframes s)) kf1) kf2).
    rewrite (replaceOrPush_twice (fun k => bool_decide (kf_type k = type)))
      by now apply bool_decide_eq_true.
    reflexivity.
  - rewrite updateKeyframeInShot_keyframes.
    change (default [] (Some ?l)) with l.
    rewrite length_replaceOrPush. unfold findKeyframe.
    now destruct (keyframes s).
  - unfold oneKeyframePerType. rewrite updateKeyframeInShot_keyframes.
    change (default [] (Some ?l)) with l.
    now apply NoDup_types_replaceOrPush.
Qed.

Lemma updateKeyframeInShot_overwrites_witness :
  let s := Demo.shot "s1" None in
  let kf1 := mkKeyframe "k1" Start "p" None Generating in
  let kf2 := Demo.completedKeyframe "k1" Start "img://1" in
  keyframes (updateKeyframeInShot (updateKeyframeInShot s Start kf1) Start kf2)
  = Some [kf2].
Proof.
  intros s kf1 kf2.
  rewrite (proj1 (updateKeyframeInShot_overwrites s Start kf1 kf2 eq_refl)).
  reflexivity.
Defined.

(** ** Extraction and regeneration of keyframe prompts *)

Section PromptRegeneration.

#[local] Arguments String.append : simpl nomatch.

Implicit Types s pat a t m : string.

Lemma append_empty_r s : s +:+ "" = s.
Proof. induction s as [|c s IH]; simpl; [reflexivity | now rewrite IH]. Qed.

Lemma append_assoc s t u : (s +:+ t) +:+ u = s +:+ t +:+ u.
Proof. induction s as [|c s IH]; simpl; [reflexivity | now rewrite IH]. Qed.

Lemma startsWith_app_l pat a t :
  Js.startsWith pat a = true -> Js.startsWith pat (a +:+ t) = true.
Proof.
  intros H. apply startsWith_true in H as [r ->].
  rewrite append_assoc. apply startsWith_app.
Qed.

Lemma take_drop n s : Js.take n s +:+ Js.drop n s = s.
Proof.
  revert s. induction n as [|n IH]; intros [|c s]; simpl; try reflexivity.
  now rewrite IH.
Qed.

Lemma length_take n s :
  (n <= String.length s)%nat -> String.length (Js.take n s) = n.
Proof.
  revert s. induction n as [|n IH]; intros [|c s] H; simpl in *; try lia.
  rewrite IH; lia.
Qed.

Lemma firstOccurrence_fits pat s n :
  Js.firstOccurrence pat s = Some n ->
  (n + String.length pat <= String.length s)%nat.
Proof.
  intros H. destruct (firstOccurrence_sound _ _ _ H) as (pre & post & -> & <-).
  rewrite !string_length_app. lia.
Qed.

Lemma firstOccurrence_cons pat c s :
  Js.firstOccurrence pat (String c s)
  = if Js.startsWith pat (String c s) then Some 0%nat
    else S <$> Js.firstOccurrence pat s.
Proof. reflexivity. Qed.

(** nothing occurs before the first occurrence *)
Lemma firstOccurrence_take pat s n :
  pat <> "" ->
  Js.firstOccurrence pat s = Some n ->
  Js.firstOccurrence pat (Js.take n s) = None.
Proof.
  intros Hne. revert n. induction s as [|c s IH]; intros n H.
  - destruct pat; [congruence | discriminate].
  - rewrite firstOccurrence_cons in H.
    destruct (Js.startsWith pat (String c s)) eqn:E.
    + injection H as <-. destruct pat; [congruence | reflexivity].
    + destruct (Js.firstOccurrence pat s) as [k|] eqn:Ek; [|discriminate].
      injection H as <-.
      change (Js.take (S k) (String c s)) with (String c (Js.take k s)).
      rewrite firstOccurrence_cons.
      destruct (Js.startsWith pat (String c (Js.take k s))) eqn:E'.
      * apply (startsWith_app_l _ _ (Js.drop k s)) in E'.
        change (String c (Js.take k s) +:+ Js.drop k s)
          with (String c (Js.take k s +:+ Js.drop k s)) in E'.
        rewrite take_drop in E'. congruence.
      * now rewrite (IH k eq_refl).
Qed.

(** an occurrence inside [a] is still the first one after appending *)
Lemma firstOccurrence_app_l pat a t n :
  Js.firstOccurrence pat a = Some n ->
  Js.firstOccurrence pat (a +:+ t) = Some n.
Proof.
  revert n. induction a as [|c a IH]; intros n H.
  - simpl in H. destruct (Js.startsWith pat "") eqn:E; [|discriminate].
    injection H as <-. destruct pat; [|discriminate].
    now destruct t.
  - rewrite firstOccurrence_cons in H.
    change (String c a +:+ t) with (String c (a +:+ t)).
    rewrite firstOccurrence_cons.
    destruct (Js.startsWith pat (String c a)) eqn:E.
    + injection H as <-.
      change (String c (a +:+ t)) with (String c a +:+ t).
      now rewrite (startsWith_app_l _ _ t E).
    + destruct (Js.firstOccurrence pat a) as [k|] eqn:Ek; [|discriminate].
      injection H as <-.
      destruct (Js.startsWith pat (String c (a +:+ t))) eqn:E'.
      * change (String c (a +:+ t)) with (String c a +:+ t) in E'.
        apply startsWith_shorter in E'; [congruence|].
        pose proof (firstOccurrence_fits _ _ _ Ek). simpl. lia.
      * now rewrite (IH k eq_refl).
Qed.

Lemma substring_take s n :
  (n <= String.length s)%nat ->
  Js.substring s 0 (Z.of_nat n) = Js.take n s.
Proof.
  intros H.
  transitivity (Js.substring (Js.take n s +:+ Js.drop n s) 0
                  (Z.of_nat (String.length (Js.take n s)))).
  - now rewrite take_drop, length_take.
  - apply substring_prefix.
Qed.

Lemma orDefault_nonEmpty s d : s <> "" -> Js.orDefault (Some s) d = s.
Proof.
  intros H. unfold Js.orDefault. destruct (String.eqb_spec s ""); congruence.
Qed.

Lemma styleMarker_nonEmpty : styleMarker <> "".
Proof. discriminate. Qed.

(** the value of [extractBasePrompt] by cases on the first occurrence of
    the marker *)
Lemma extractBasePrompt_cases full fallback :
  full <> "" ->
  extractBasePrompt full fallback
  = match Js.firstOccurrence styleMarker full with
    | Some (S k) => Js.take (S k) full
    | _ => full
    end.
Proof.
  intros Hne. unfold extractBasePrompt, Js.indexOf.
  destruct (Js.firstOccurrence styleMarker full) as [[|k]|] eqn:E.
  - now apply orDefault_nonEmpty.
  - replace (0 <? Z.of_nat (S k)) with true by (symmetry; apply Z.ltb_lt; lia).
    apply substring_take. pose proof (firstOccurrence_fits _ _ _ E). lia.
  - now apply orDefault_nonEmpty.
Qed.

(** X3: for a non-empty prompt, [extractBasePrompt] returns a non-empty
    prefix of the prompt and extracting again changes nothing; the fallback
    is returned for the empty prompt only. *)
Theorem extractBasePrompt_idempotent (full fallback fallback' : string) :
  extractBasePrompt "" fallback = fallback
  /\ (full <> "" ->
      let base := extractBasePrompt full fallback in
      base <> ""
      /\ (exists rest, full = base +:+ rest)
      /\ extractBasePrompt base fallback' = base).
Proof.
  split; [reflexivity|]. intros Hne base. subst base.
  rewrite (extractBasePrompt_cases _ _ Hne).
  destruct (Js.firstOccurrence styleMarker full) as [[|k]|] eqn:E.
  - split; [exact Hne|]. split; [exists ""; now rewrite append_empty_r|].
    rewrite (extractBasePrompt_cases _ _ Hne), E. reflexivity.
  - assert (Hb : Js.take (S k) full <> "").
    { destruct full; [congruence | discriminate]. }
    split; [exact Hb|]. split; [exists (Js.drop (S k) full); now rewrite take_drop|].
    rewrite (extractBasePrompt_cases _ _ Hb).
    now rewrite (firstOccurrence_take _ _ _ styleMarker_nonEmpty E).
  - split; [exact Hne|]. split; [exists ""; now rewrite append_empty_r|].
    rewrite (extractBasePrompt_cases _ _ Hne), E. reflexivity.
Qed.

Lemma extractBasePrompt_idempotent_witness :
  let full := buildKeyframePrompt "A knight rides" "anime" "Zoom In Shot" Start in
  extractBasePrompt (extractBasePrompt full "x") "y" = extractBasePrompt full "x".
Proof.
  intros full.
  apply (proj2 (extractBasePrompt_idempotent full "x" "y") ltac:(discriminate)).
Defined.

(** the text extracted from an assembled prompt is the text extracted from
    its base, as long as the base is not empty and does not begin with the
    marker *)
Lemma extract_build_general base style cam type fallback :
  base <> "" -> Js.startsWith styleMarker base = false ->
  extractBasePrompt (buildKeyframePrompt base style cam type) fallback
  = extractBasePrompt base base
  /\ Js.includes (extractBasePrompt base base) styleMarker = false
  /\ extractBasePrompt base base <> "".
Proof.
  intros Hne Hsw.
  destruct (buildKeyframePrompt_shape base style cam type) as [rest Hshape].
  assert (Hfull : buildKeyframePrompt base style cam type <> "").
  { rewrite Hshape. destruct base; [congruence | discriminate]. }
  rewrite (extractBasePrompt_cases _ fallback Hfull).
  rewrite (extractBasePrompt_cases _ base Hne).
  destruct (Js.firstOccurrence styleMarker base) as [n|] eqn:E.
  - rewrite Hshape, (firstOccurrence_app_l _ _ _ _ E).
    destruct n as [|k].
    + exfalso. destruct base as [|c b]; [congruence|].
      rewrite firstOccurrence_cons in E. rewrite Hsw in E.
      now destruct (Js.firstOccurrence styleMarker b).
    + assert (Htake : Js.take (S k) (base +:+ styleMarker +:+ rest) = Js.take (S k) base).
      { pose proof (firstOccurrence_fits _ _ _ E) as Hfit.
        transitivity (Js.take (String.length (Js.take (S k) base))
                        (Js.take (S k) base +:+ Js.drop (S k) base +:+ styleMarker +:+ rest)).
        - rewrite length_take by lia.
          rewrite <- (append_assoc (Js.take (S k) base)), take_drop. reflexivity.
        - apply take_app_length. }
      rewrite Htake. split; [reflexivity|]. split.
      * unfold Js.includes.
        now rewrite (firstOccurrence_take _ _ _ styleMarker_nonEmpty E).
      * destruct base; [congruence | discriminate].
  - assert (Hinc : Js.includes base styleMarker = false).
    { unfold Js.includes. now rewrite E. }
    rewrite Hshape, (firstOccurrence_after _ _ _ styleMarker_unbordered Hinc).
    destruct base as [|c b]; [congruence|].
    pose proof (take_app_length (String c b) (styleMarker +:+ rest)) as Htk.
    split; [exact Htk|]. split; [exact Hinc | discriminate].
Qed.

Lemma regeneratedPrompt_0 a style cam type :
  regeneratedPrompt a style cam type 0 = buildKeyframePrompt a style cam type.
Proof. reflexivity. Qed.

Lemma regeneratedPrompt_S a style cam type n :
  regeneratedPrompt a style cam type (S n)
  = buildKeyframePrompt
      (keyframeBasePrompt (Some (regeneratedPrompt a style cam type n)) a)
      style cam type.
Proof. reflexivity. Qed.

Lemma buildKeyframePrompt_not_empty base style cam type :
  buildKeyframePrompt base style cam type <> "".
Proof.
  destruct (buildKeyframePrompt_shape base style cam type) as [rest ->].
  destruct base; discriminate.
Qed.

Lemma keyframeBasePrompt_stored v a :
  v <> "" -> keyframeBasePrompt (Some v) a = extractBasePrompt v a.
Proof.
  intros H. unfold keyframeBasePrompt, nonEmpty.
  destruct (String.eqb_spec v ""); congruence.
Qed.

Lemma regeneratedPrompt_not_empty a style cam type n :
  regeneratedPrompt a style cam type n <> "".
Proof. destruct n; apply buildKeyframePrompt_not_empty. Qed.

(** X4: for every non-empty action summary that does not begin with the
    marker, the prompts stored by the second and all later generations are
    one and the same: the prompt assembled from the text that
    [extractBasePrompt] finds in the summary. *)
Theorem regeneration_settles
    (actionSummary style cam : string) (type : FrameType) (n : nat) :
  actionSummary <> "" ->
  Js.startsWith styleMarker actionSummary = false ->
  regeneratedPrompt actionSummary style cam type (S n)
  = buildKeyframePrompt (extractBasePrompt actionSummary actionSummary) style cam type.
Proof.
  intros Hne Hsw.
  destruct (extract_build_general actionSummary style cam type actionSummary Hne Hsw)
    as (H0 & Hinc & Hb).
  induction n as [|n IH]; rewrite regeneratedPrompt_S.
  - rewrite regeneratedPrompt_0.
    rewrite keyframeBasePrompt_stored by apply buildKeyframePrompt_not_empty.
    now rewrite H0.
  - rewrite IH.
    rewrite keyframeBasePrompt_stored by apply buildKeyframePrompt_not_empty.
    now rewrite (extract_build _ _ _ _ _ Hb Hinc).
Qed.

Lemma regeneration_settles_witness :
  let summary := "Poster" +:+ styleMarker +:+ " noir" in
  regeneratedPrompt summary "anime" "static shot" End 4
  = buildKeyframePrompt "Poster" "anime" "static shot" End.
Proof.
  intros summary.
  exact (regeneration_settles summary "anime" "static shot" End 3
           ltac:(discriminate) ltac:(reflexivity)).
Defined.

Lemma length_buildKeyframePrompt base style cam type :
  (String.length base < String.length (buildKeyframePrompt base style cam type))%nat.
Proof.
  destruct (buildKeyframePrompt_shape base style cam type) as [rest ->].
  rewrite !string_length_app. simpl. lia.
Qed.

Lemma startsWith_marker_build base style cam type :
  base = "" \/ Js.startsWith styleMarker base = true ->
  Js.startsWith styleMarker (buildKeyframePrompt base style cam type) = true.
Proof.
  destruct (buildKeyframePrompt_shape base style cam type) as [rest ->].
  intros [-> | H]; [exact (startsWith_app styleMarker rest) | now apply startsWith_app_l].
Qed.

Lemma extract_leading_marker full fallback :
  Js.startsWith styleMarker full = true ->
  extractBasePrompt full fallback = full.
Proof.
  intros H.
  assert (Hne : full <> "") by (destruct full; [discriminate | discriminate]).
  rewrite (extractBasePrompt_cases _ _ Hne).
  destruct full as [|c f]; [congruence|].
  rewrite firstOccurrence_cons, H. reflexivity.
Qed.

(** X5: when the action summary is empty or begins with the marker, every
    regeneration takes the whole previous prompt as its base and layers the
    sections onto it once more, so the stored prompt gets strictly longer
    with every regeneration. *)
Theorem regeneration_relayers
    (actionSummary style cam : string) (type : FrameType) (n : nat) :
  actionSummary = "" \/ Js.startsWith styleMarker actionSummary = true ->
  regeneratedPrompt actionSummary style cam type (S n)
  = buildKeyframePrompt (regeneratedPrompt actionSummary style cam type n) style cam type
  /\ (String.length (regeneratedPrompt actionSummary style cam type n)
      < String.length (regeneratedPrompt actionSummary style cam type (S n)))%nat.
Proof.
  intros H.
  assert (Hstep : forall k,
             Js.startsWith styleMarker (regeneratedPrompt actionSummary style cam type k)
             = true
             -> regeneratedPrompt actionSummary style cam type (S k)
                = buildKeyframePrompt (regeneratedPrompt actionSummary style cam type k)
                    style cam type).
  { intros k Hk. rewrite regeneratedPrompt_S.
    rewrite keyframeBasePrompt_stored by apply regeneratedPrompt_not_empty.
    now rewrite (extract_leading_marker _ _ Hk). }
  assert (Hsw : forall k,
             Js.startsWith styleMarker (regeneratedPrompt actionSummary style cam type k)
             = true).
  { induction k as [|k IH].
    - rewrite regeneratedPrompt_0. now apply startsWith_marker_build.
    - rewrite (Hstep k IH). apply startsWith_marker_build. now right. }
  split; [now apply Hstep|]. rewrite (Hstep n (Hsw n)).
  apply length_buildKeyframePrompt.
Qed.

Lemma regeneration_relayers_witness :
  (String.length (regeneratedPrompt "" "anime" "static shot" Start 2)
   < String.length (regeneratedPrompt "" "anime" "static shot" Start 3))%nat.
Proof.
  exact (proj2 (regeneration_relayers "" "anime" "static shot" Start 2
                  (or_introl eq_refl))).
Defined.

End PromptRegeneration.

(** ** Video prompt templates *)

Section VideoPrompt.

#[local] Arguments String.append : simpl nomatch.

Implicit Types s a t repl pat : string.

Lemma lacks_app c a t : lacks c (a +:+ t) = lacks c a && lacks c t.
Proof.
  induction a as [|d a IH]; simpl; [reflexivity|].
  rewrite IH. now destruct (Ascii.eqb c d).
Qed.

(** a pattern that begins with [c] cannot occur where [c] is lacking *)
Lemma firstOccurrence_skip c pat a t :
  lacks c a = true ->
  Js.firstOccurrence (String c pat) (a +:+ t)
  = (fun n => (String.length a + n)%nat) <$> Js.firstOccurrence (String c pat) t.
Proof.
  intros H. induction a as [|d a IH].
  - simpl. now destruct (Js.firstOccurrence (String c pat) t).
  - simpl in H. apply andb_prop in H as [Hd Ha].
    change (String d a +:+ t) with (String d (a +:+ t)).
    rewrite firstOccurrence_cons. simpl Js.startsWith.
    destruct (Ascii.eqb c d); [discriminate|].
    rewrite (IH Ha). now destruct (Js.firstOccurrence (String c pat) t).
Qed.

Lemma firstOccurrence_here pat t :
  Js.firstOccurrence pat (pat +:+ t) = Some 0%nat.
Proof.
  destruct (pat +:+ t) eqn:E; simpl; rewrite <- E, startsWith_app; reflexivity.
Qed.

Lemma getSubstitution_plain repl matched before after :
  lacks "$" repl = true -> Js.getSubstitution repl matched before after = repl.
Proof.
  induction repl as [|c r IH]; intros H; [reflexivity|].
  simpl in H. apply andb_prop in H as [Hc Hr].
  cbn [Js.getSubstitution]. destruct (Ascii.eqb_spec c "$") as [->|_].
  - discriminate Hc.
  - now rewrite (IH Hr).
Qed.

(** the first occurrence of a placeholder is replaced in place *)
Lemma replace_slot c pat a t repl :
  lacks c a = true -> lacks "$" repl = true ->
  Js.replace (a +:+ String c pat +:+ t) (String c pat) repl = a +:+ repl +:+ t.
Proof.
  intros Ha Hr. unfold Js.replace.
  rewrite (firstOccurrence_skip _ _ _ _ Ha), firstOccurrence_here.
  cbn [fmap option_fmap option_map]. rewrite Nat.add_0_r.
  rewrite take_app_length, getSubstitution_plain by assumption.
  f_equal. f_equal.
  transitivity (Js.drop (String.length (a +:+ String c pat))
                        ((a +:+ String c pat) +:+ t)).
  - rewrite string_length_app, append_assoc. reflexivity.
  - apply drop_app_length.
Qed.

(** without a placeholder nothing is replaced *)
Lemma replace_absent c pat s repl :
  lacks c s = true -> Js.replace s (String c pat) repl = s.
Proof.
  intros Hs. unfold Js.replace.
  rewrite <- (append_empty_r s) at 1.
  rewrite (firstOccurrence_skip _ _ _ _ Hs). reflexivity.
Qed.

Lemma templates_weave :
  VIDEO_PROMPT_TEMPLATES.sora2_chinese
    = weave sora2ChineseParts ["{actionSummary}"; "{cameraMovement}"]
  /\ VIDEO_PROMPT_TEMPLATES.sora2_english
     = weave sora2EnglishParts ["{actionSummary}"; "{cameraMovement}"; "{language}"]
  /\ VIDEO_PROMPT_TEMPLATES.veo_simple
     = weave veoParts ["{actionSummary}"; "{cameraMovement}"; "{language}"].
Proof. repeat split; vm_compute; reflexivity. Qed.

(** filling three slots one after the other *)
Lemma replace_three p0 p1 p2 p3 a cm lang :
  lacks "{" p0 = true -> lacks "{" p1 = true -> lacks "{" p2 = true ->
  lacks "{" a = true -> lacks "{" cm = true ->
  lacks "$" a = true -> lacks "$" cm = true -> lacks "$" lang = true ->
  Js.replace
    (Js.replace
       (Js.replace (weave [p0; p1; p2; p3]
                      ["{actionSummary}"; "{cameraMovement}"; "{language}"])
                   "{actionSummary}" a)
       "{cameraMovement}" cm)
    "{language}" lang
  = weave [p0; p1; p2; p3] [a; cm; lang].
Proof.
  intros H0 H1 H2 Ha Hc Da Dc Dl. cbn [weave].
  rewrite (replace_slot "{" "actionSummary}" p0 _ a H0 Da).
  replace (p0 +:+ a +:+ p1 +:+ "{cameraMovement}" +:+ p2 +:+ "{language}" +:+ p3 +:+ "")
    with ((p0 +:+ a +:+ p1) +:+ "{cameraMovement}" +:+ p2 +:+ "{language}" +:+ p3 +:+ "")
    by (now rewrite !append_assoc).
  rewrite (replace_slot "{" "cameraMovement}" _ _ cm)
    by (rewrite ?lacks_app, ?H0, ?Ha, ?H1; auto).
  replace ((p0 +:+ a +:+ p1) +:+ cm +:+ p2 +:+ "{language}" +:+ p3 +:+ "")
    with ((p0 +:+ a +:+ p1 +:+ cm +:+ p2) +:+ "{language}" +:+ p3 +:+ "")
    by (now rewrite !append_assoc).
  rewrite (replace_slot "{" "language}" _ _ lang)
    by (rewrite ?lacks_app, ?H0, ?Ha, ?H1, ?Hc, ?H2; auto).
  now rewrite !append_assoc.
Qed.

(** filling two slots; the third replacement finds no placeholder *)
Lemma replace_two p0 p1 p2 a cm lang :
  lacks "{" p0 = true -> lacks "{" p1 = true -> lacks "{" p2 = true ->
  lacks "{" a = true -> lacks "{" cm = true ->
  lacks "$" a = true -> lacks "$" cm = true ->
  Js.replace
    (Js.replace
       (Js.replace (weave [p0; p1; p2] ["{actionSummary}"; "{cameraMovement}"])
                   "{actionSummary}" a)
       "{cameraMovement}" cm)
    "{language}" lang
  = weave [p0; p1; p2] [a; cm].
Proof.
  intros H0 H1 H2 Ha Hc Da Dc. cbn [weave].
  rewrite (replace_slot "{" "actionSummary}" p0 _ a H0 Da).
  replace (p0 +:+ a +:+ p1 +:+ "{cameraMovement}" +:+ p2 +:+ "")
    with ((p0 +:+ a +:+ p1) +:+ "{cameraMovement}" +:+ p2 +:+ "")
    by (now rewrite !append_assoc).
  rewrite (replace_slot "{" "cameraMovement}" _ _ cm)
    by (rewrite ?lacks_app, ?H0, ?Ha, ?H1; auto).
  rewrite (replace_absent "{" "language}")
    by (rewrite ?lacks_app, ?H0, ?Ha, ?H1, ?Hc, ?H2; auto).
  now rewrite !append_assoc.
Qed.

(** X6: when the action summary and the camera movement contain neither
    [$] nor an opening brace and the language contains no [$],
    [buildVideoPrompt] returns the selected template with its placeholders
    replaced in place: the Chinese Sora template has no language slot, the
    English one receives the language as given, and the Veo template
    receives the Chinese name of the language for both spellings of
    Chinese. *)
Theorem buildVideoPrompt_fills_slots
    (actionSummary cameraMovement : string) (model : VideoModel) (language : string) :
  lacks "$" actionSummary = true -> lacks "{" actionSummary = true ->
  lacks "$" cameraMovement = true -> lacks "{" cameraMovement = true ->
  lacks "$" language = true ->
  let isChinese := String.eqb language "中文" || String.eqb language "Chinese" in
  buildVideoPrompt actionSummary cameraMovement model language
  = match model with
    | Sora2 =>
        if isChinese then weave sora2ChineseParts [actionSummary; cameraMovement]
        else weave sora2EnglishParts [actionSummary; cameraMovement; language]
    | VeoFast =>
        weave veoParts [actionSummary; cameraMovement;
                        if isChinese then "中文" else language]
    end.
Proof.
  intros Da Ha Dc Hc Dl isChinese.
  destruct templates_weave as (Tc & Te & Tv).
  unfold buildVideoPrompt. fold isChinese. destruct model.
  - destruct isChinese.
    + rewrite Tc. now apply replace_two.
    + rewrite Te. now apply replace_three.
  - rewrite Tv. apply replace_three; auto.
    now destruct isChinese.
Qed.

Lemma buildVideoPrompt_fills_slots_witness :
  buildVideoPrompt "A knight rides" "pan left shot" VeoFast "Chinese"
  = weave veoParts ["A knight rides"; "pan left shot"; "中文"].
Proof.
  exact (buildVideoPrompt_fills_slots "A knight rides" "pan left shot" VeoFast "Chinese"
           eq_refl eq_refl eq_refl eq_refl eq_refl).
Defined.

End VideoPrompt.

(** ** Entries of the guide table hidden by shorter keys *)

Section GuideShadowing.

#[local] Arguments String.append : simpl nomatch.

Lemma occursIn_trans a b c : occursIn a b -> occursIn b c -> occursIn a c.
Proof.
  intros (p1 & q1 & ->) (p2 & q2 & ->).
  exists (p2 +:+ p1), (q1 +:+ q2). now rewrite !append_assoc.
Qed.

Lemma includes_trans a b c :
  Js.includes b a = true -> Js.includes c b = true -> Js.includes c a = true.
Proof. rewrite !includes_spec. apply occursIn_trans. Qed.

(** the loop stops at the first matching entry, so what it returns stands
    no later than any entry known to match *)
Lemma lookupGuide_no_later movement l1 key value l2 :
  matches movement key = true ->
  exists g, lookupGuide movement (l1 ++ (key, value) :: l2) = Some g
            /\ In g (snd <$> (l1 ++ [(key, value)])).
Proof.
  intros Hm. induction l1 as [|[k v] l1 IH]; simpl.
  - rewrite Hm. exists value. auto.
  - destruct (matches movement k).
    + exists v. auto.
    + destruct IH as (g & -> & Hin). exists g. auto.
Qed.

(** an entry whose key contains the key [short] of the entry at position
    [n] is never selected by a movement that contains its key *)
Lemma shadowed_by (n : nat) (short key : string) (value g : Guide)
    (cameraMovement : string) (frameType : FrameType) :
  guides = take n guides ++ (short, value) :: drop (S n) guides ->
  Js.includes key short = true ->
  forallb (fun kg => implb (String.eqb (fst kg) key)
                       (forallb (differs (snd kg))
                                (snd <$> (take n guides ++ [(short, value)]))))
          guides = true ->
  In (key, g) guides ->
  Js.includes (Js.toLowerCase cameraMovement) key = true ->
  getCameraMovementCompositionGuide cameraMovement frameType <> pick frameType g.
Proof.
  intros Hsplit Hsub Htable Hin Hinc.
  assert (Hm : matches (Js.toLowerCase cameraMovement) short = true).
  { unfold matches. now rewrite (includes_trans _ _ _ Hsub Hinc). }
  destruct (lookupGuide_no_later _ (take n guides) short value (drop (S n) guides) Hm)
    as (g' & Hlook & Hg').
  rewrite <- Hsplit in Hlook.
  unfold getCameraMovementCompositionGuide. rewrite Hlook.
  pose proof (proj1 (forallb_forall _ _) Htable _ Hin) as H.
  cbn [fst snd] in H. rewrite String.eqb_refl in H. cbn [implb] in H.
  pose proof (proj1 (forallb_forall _ _) H _ Hg') as Hd.
  unfold differs in Hd. apply andb_prop in Hd as [Hs He].
  destruct frameType; cbn [pick]; intros E; rewrite E, String.eqb_refl in *; discriminate.
Qed.

(** X7: three entries of the guide table have a key that contains the key
    of an earlier entry ([circular shot], [tracking shot]). A movement
    whose lowercased text contains such a longer key never receives that
    entry's instruction: the loop returns at the shorter key or before. *)
Theorem longer_guide_keys_are_shadowed
    (cameraMovement : string) (frameType : FrameType) (key : string) (g : Guide) :
  In (key, g) guides ->
  In key ["360-degree circular shot"; "parallel tracking shot"; "diagonal tracking shot"] ->
  Js.includes (Js.toLowerCase cameraMovement) key = true ->
  getCameraMovementCompositionGuide cameraMovement frameType <> pick frameType g.
Proof.
  intros Hin Hkey Hinc.
  destruct Hkey as [<-|[<-|[<-|[]]]].
  - apply (shadowed_by 12 "circular shot" "360-degree circular shot"
             (default genericGuide (snd <$> guides !! 12%nat)) g);
      solve [assumption | vm_compute; reflexivity].
  - apply (shadowed_by 11 "tracking shot" "parallel tracking shot"
             (default genericGuide (snd <$> guides !! 11%nat)) g);
      solve [assumption | vm_compute; reflexivity].
  - apply (shadowed_by 11 "tracking shot" "diagonal tracking shot"
             (default genericGuide (snd <$> guides !! 11%nat)) g);
      solve [assumption | vm_compute; reflexivity].
Qed.

Lemma longer_guide_keys_are_shadowed_witness :
  getCameraMovementCompositionGuide "360-Degree Circular Shot" Start
  <> "Composition: Subject centered, camera beginning 360° orbit.".
Proof.
  apply (longer_guide_keys_are_shadowed "360-Degree Circular Shot" Start
           "360-degree circular shot"
           (mkGuide "Composition: Subject centered, camera beginning 360° orbit."
                    "Composition: Subject centered, camera completing full revolution from different angle.")).
  - do 13 right. left. reflexivity.
  - left. reflexivity.
  - vm_compute. reflexivity.
Defined.

End GuideShadowing.

(** ** Net effect of a keyframe generation *)

Section KeyframeGenerationEffect.

Lemma findKeyframe_update_other s type kf other :
  kf_type kf = type -> other <> type ->
  findKeyframe (updateKeyframeInShot s type kf) other = findKeyframe s other.
Proof.
  intros Ht Hne. unfold findKeyframe.
  rewrite updateKeyframeInShot_keyframes. simpl.
  rewrite find_replaceOrPush_other.
  - now destruct (keyframes s).
  - apply bool_decide_eq_false. congruence.
  - intros y Hy. apply bool_decide_eq_true in Hy.
    apply bool_decide_eq_false. congruence.
Qed.

Lemma updateKeyframeInShot_twice s type kf1 kf2 :
  kf_type kf1 = type ->
  updateKeyframeInShot (updateKeyframeInShot s type kf1) type kf2
  = updateKeyframeInShot s type kf2.
Proof.
  intros Ht. unfold updateKeyframeInShot at 1.
  rewrite updateKeyframeInShot_keyframes.
  change (default [] (Some ?l)) with l.
  fold (replaceOrPush (fun k => bool_decide (kf_type k = type))
          (replaceOrPush (fun k => bool_decide (kf_type k = type))
             (default [] (keyframes s)) kf1) kf2).
  rewrite (replaceOrPush_twice (fun k => bool_decide (kf_type k = type)))
    by now apply bool_decide_eq_true.
  reflexivity.
Qed.

(** two updates of the same shot id amount to one *)
Lemma mapShot_mapShot shotId f g p :
  (forall s, shot_id (g s) = shot_id s) ->
  mapShot shotId f (mapShot shotId g p) = mapShot shotId (fun s => f (g s)) p.
Proof.
  intros Hid. unfold mapShot, withShots. cbn [shots visualStyle language scriptData].
  f_equal. rewrite map_map. apply map_ext. intros s.
  destruct (String.eqb (shot_id s) shotId) eqn:E.
  - now rewrite Hid, E.
  - now rewrite E.
Qed.

Lemma mapShot_ext shotId f g p :
  (forall s, f s = g s) -> mapShot shotId f p = mapShot shotId g p.
Proof.
  intros H. unfold mapShot. f_equal. apply map_ext. intros s.
  now destruct (String.eqb (shot_id s) shotId); rewrite ?H.
Qed.

(** writing the generating keyframe and then the final one leaves what a
    single write of the final one leaves *)
Lemma put_twice shotId type kf1 kf2 p :
  kf_type kf1 = type ->
  mapShot shotId (fun s => updateKeyframeInShot s type kf2)
    (mapShot shotId (fun s => updateKeyframeInShot s type kf1) p)
  = mapShot shotId (fun s => updateKeyframeInShot s type kf2) p.
Proof.
  intros Ht. rewrite mapShot_mapShot by reflexivity.
  apply mapShot_ext. intros s. now apply updateKeyframeInShot_twice.
Qed.

Lemma handleGenerateKeyframe_effect env closure shot type w :
  fst (handleGenerateKeyframe env closure shot type w) = Ret tt
  /\ project (snd (handleGenerateKeyframe env closure shot type w))
     = mapShot (shot_id shot)
         (fun s => updateKeyframeInShot s type
                     (generatedKeyframe env closure shot type w))
         (project w).
Proof.
  destruct w as [pw tr tk].
  unfold handleGenerateKeyframe, keyframeId, generatedKeyframe, storedId,
    answerTick, generatedPrompt.
  cbn [tick project].
  set (prompt := buildKeyframePrompt _ _ _ _).
  set (refs := getRefImagesForShot _ _).
  destruct (nonEmpty (kf_id <$> findKeyframe shot type)) as [id|]; step_handler;
    (match goal with |- context [imageResult env ?n] =>
       destruct (imageResult env n) as [e|url] end);
    step_handler; try destruct (apiKeyErrorHandled env e); step_handler;
    (split; [reflexivity | now apply put_twice]).
Qed.

(** X8: a call of [handleGenerateKeyframe] never throws, and what it
    leaves in the project is a single write of the final keyframe into the
    shots that carry the id of the shot it was bound to: the intermediate
    generating state is overwritten.  The final keyframe keeps the id of
    the keyframe the closure knew, stores the prompt assembled from the
    closure, and is completed with the returned image or failed without
    image.  The keyframe of the other type and the interval of these shots,
    and every other shot, are left as found. *)
Theorem generate_keyframe_net_effect
    (env : Env) (closure : ProjectState) (shot : Shot) (type : FrameType) (w : World) :
  let res := handleGenerateKeyframe env closure shot type w in
  let final := generatedKeyframe env closure shot type w in
  fst res = Ret tt
  /\ project (snd res)
     = mapShot (shot_id shot) (fun s => updateKeyframeInShot s type final) (project w)
  /\ (forall id, nonEmpty (kf_id <$> findKeyframe shot type) = Some id -> kf_id final = id)
  /\ visualPrompt final = generatedPrompt closure shot type
  /\ (is_Some (imageUrl final) <-> kf_status final = Completed)
  /\ forall i s,
       shots (project w) !! i = Some s ->
       exists s',
         shots (project (snd res)) !! i = Some s'
         /\ if String.eqb (shot_id s) (shot_id shot)
            then findKeyframe s' type = Some final
                 /\ (forall other, other <> type ->
                       findKeyframe s' other = findKeyframe s other)
                 /\ interval s' = interval s
            else s' = s.
Proof.
  intros res final.
  destruct (handleGenerateKeyframe_effect env closure shot type w) as [Hret Hproj].
  assert (Htype : kf_type final = type).
  { unfold final, generatedKeyframe. now destruct (imageResult env _). }
  split; [exact Hret|]. split; [exact Hproj|].
  split; [|split; [|split]].
  - intros id Hid. unfold final, generatedKeyframe, storedId. rewrite Hid.
    now destruct (imageResult env _).
  - unfold final, generatedKeyframe. now destruct (imageResult env _).
  - unfold final, generatedKeyframe. destruct (imageResult env _); simpl.
    + split; [intros [? ?]; discriminate | discriminate].
    + split; [reflexivity | eauto].
  - intros i s Hs. subst res. rewrite Hproj, shots_mapShot, Hs.
    cbn [fmap option_fmap option_map]. eexists. split; [reflexivity|].
    destruct (String.eqb (shot_id s) (shot_id shot)); [|reflexivity].
    split; [now apply findKeyframe_update|].
    split; [|reflexivity].
    intros other Hne. now apply findKeyframe_update_other.
Qed.

Lemma generate_keyframe_net_effect_witness :
  let shot := Demo.shot "s1" (Some [mkKeyframe "k1" Start "A knight rides" None Failed]) in
  let p := Demo.projectOf [shot] in
  let env := Demo.env (fun _ => inr "img://1") false in
  kf_id (generatedKeyframe env p shot Start (mkWorld p [] 0)) = "k1".
Proof.
  intros shot p env.
  exact (proj1 (proj2 (proj2 (generate_keyframe_net_effect env p shot Start
                                (mkWorld p [] 0))))
               "k1" eq_refl).
Defined.

End KeyframeGenerationEffect.

(** ** Uploading a keyframe image *)

Section Upload.

(** X9: the upload callback leaves the project as it found it, and
    returns normally, in its three refusals: no file picked (nothing
    happens at all), a file whose type does not start with [image/] (one
    alert, the file is not read), and a file that cannot be read (one alert
    after the read). *)
Theorem upload_refusals
    (env : Env) (shot : Shot) (type : FrameType) (file : option File) (w : World) :
  let res := handleUploadKeyframeImage env shot type file w in
  (file = None -> res = (Ret tt, w))
  /\ (forall f, file = Some f -> Js.startsWith "image/" (file_type f) = false ->
        res = rejectedWith "请选择图片文件！" w)
  /\ (forall f e, file = Some f -> Js.startsWith "image/" (file_type f) = true ->
        fileResult env (tick w) = inl e ->
        fst res = Ret tt
        /\ project (snd res) = project w
        /\ trace (snd res) = trace w ++ [EReadFile; EAlert "读取文件失败！"]).
Proof.
  intros res. subst res. destruct w as [pw tr tk]. split; [|split].
  - intros ->. reflexivity.
  - intros f -> Hf. unfold handleUploadKeyframeImage. rewrite Hf. reflexivity.
  - intros f e -> Hf He. unfold handleUploadKeyframeImage. rewrite Hf.
    cbn [negb tick] in *. step_handler. rewrite He. step_handler.
    rewrite <- app_assoc. repeat split.
Qed.

Lemma upload_refusals_witness :
  let shot := Demo.shot "s1" None in
  let p := Demo.projectOf [shot] in
  handleUploadKeyframeImage (Demo.env (fun _ => inr "img://1") false) shot Start
    (Some (mkFile "text/plain")) (mkWorld p [] 0)
  = (Ret tt, mkWorld p [EAlert "请选择图片文件！"] 0).
Proof.
  intros shot p.
  exact (proj1 (proj2 (upload_refusals _ shot Start (Some (mkFile "text/plain"))
                         (mkWorld p [] 0)))
               (mkFile "text/plain") eq_refl eq_refl).
Defined.

(** X10: when an image file is picked and read, the upload writes a
    completed keyframe carrying the file's data into the shots with the id
    of the shot the callback was bound to.  Prompt and id come from the
    closure: the prompt is the closure keyframe's prompt, or the action
    summary when that is absent or empty; the id is the closure keyframe's
    id, or a fresh one.  The image service is not called. *)
Theorem upload_stores_image
    (env : Env) (shot : Shot) (type : FrameType) (f : File) (w : World) (url : string) :
  Js.startsWith "image/" (file_type f) = true ->
  fileResult env (tick w) = inr url ->
  let res := handleUploadKeyframeImage env shot type (Some f) w in
  let existingKf := findKeyframe shot type in
  let kfId :=
    match nonEmpty (kf_id <$> existingKf) with
    | Some id => id
    | None => generateId (keyframePrefix shot type) (dateNow env (S (tick w)))
    end in
  let uploaded :=
    mkKeyframe kfId type
               (Js.orDefault (visualPrompt <$> existingKf) (actionSummary shot))
               (Some url) Completed in
  fst res = Ret tt
  /\ project (snd res)
     = mapShot (shot_id shot) (fun s => updateKeyframeInShot s type uploaded) (project w)
  /\ imageRequests (trace (snd res)) = imageRequests (trace w)
  /\ forall i s,
       shots (project w) !! i = Some s -> shot_id s = shot_id shot ->
       exists s', shots (project (snd res)) !! i = Some s'
                  /\ findKeyframe s' type = Some uploaded.
Proof.
  intros Hf Hurl res existingKf kfId uploaded.
  assert (E : fst res = Ret tt
              /\ project (snd res)
                 = mapShot (shot_id shot)
                     (fun s => updateKeyframeInShot s type uploaded) (project w)
              /\ imageRequests (trace (snd res)) = imageRequests (trace w)).
  { subst res uploaded kfId existingKf. destruct w as [pw tr tk].
    unfold handleUploadKeyframeImage, keyframeId. rewrite Hf.
    cbn [negb tick project trace] in *. step_handler. rewrite Hurl.
    destruct (nonEmpty (kf_id <$> findKeyframe shot type)) as [id|]; step_handler;
      (split; [reflexivity|]; split; [reflexivity|]);
      rewrite imageRequests_app; simpl; now rewrite app_nil_r. }
  destruct E as (E1 & E2 & E3). repeat split; try assumption.
  intros i s Hs Hid. rewrite E2, shots_mapShot, Hs.
  cbn [fmap option_fmap option_map]. rewrite Hid, String.eqb_refl.
  eexists. split; [reflexivity|]. now apply findKeyframe_update.
Qed.

Lemma upload_stores_image_witness :
  let shot := Demo.shot "s1" (Some [mkKeyframe "k1" Start "A knight rides" None Failed]) in
  let p := Demo.projectOf [shot] in
  let env := mkEnv (fun _ => inl (mkError "unused")) (fun _ => inl (mkError "unused"))
                   (fun _ => inr "data:image/png;base64,AAAA") (fun _ => 0)
                   (fun _ => true) None in
  shots (project (snd (handleUploadKeyframeImage env shot Start (Some (mkFile "image/png"))
                         (mkWorld p [] 0))))
  = [Demo.shot "s1" (Some [mkKeyframe "k1" Start "A knight rides"
                             (Some "data:image/png;base64,AAAA") Completed])].
Proof.
  intros shot p env.
  rewrite (proj1 (proj2 (upload_stores_image env shot Start (mkFile "image/png")
                           (mkWorld p [] 0) "data:image/png;base64,AAAA"
                           eq_refl eq_refl))).
  reflexivity.
Defined.

End Upload.

(** ** Outcome of a video generation *)

Section VideoOutcome.

Lemma videoRequests_app tr1 tr2 :
  videoRequests (tr1 ++ tr2) = videoRequests tr1 ++ videoRequests tr2.
Proof. apply omap_app. Qed.

(** X11: with a start image, [handleGenerateVideo] never throws and sends
    exactly one request, with the prompt built from the closure, the start
    image, the end image of the shot if it has an end keyframe, and the
    shot's model or the default one.  Afterwards the shots with the id of
    the bound shot carry an interval with that prompt: completed with the
    returned video, or failed, in which case the video address the interval
    had before is kept.  An interval that existed keeps its own id and
    keyframe ids; keyframes and all other shots are left as found. *)
Theorem video_generation_outcome
    (env : Env) (closure : ProjectState) (shot : Shot) (w : World)
    (sKf : Keyframe) (startImage : string) :
  findKeyframe shot Start = Some sKf ->
  nonEmpty (imageUrl sKf) = Some startImage ->
  let res := handleGenerateVideo env closure shot w in
  let model := default DEFAULTS.videoModel (videoModel shot) in
  let prompt := buildVideoPrompt (actionSummary shot) (cameraMovement shot) model
                                 (projectLanguage closure) in
  let n := match nonEmpty (int_id <$> interval shot) with
           | Some _ => tick w
           | None => S (tick w)
           end in
  fst res = Ret tt
  /\ videoRequests (trace (snd res))
     = videoRequests (trace w)
       ++ [(prompt, startImage, findKeyframe shot End ≫= imageUrl, model)]
  /\ forall i s,
       shots (project w) !! i = Some s ->
       exists s',
         shots (project (snd res)) !! i = Some s'
         /\ if String.eqb (shot_id s) (shot_id shot)
            then keyframes s' = keyframes s
                 /\ exists iv,
                      interval s' = Some iv
                      /\ videoPrompt iv = Some prompt
                      /\ match videoResult env n with
                         | inr url => int_status iv = Completed /\ videoUrl iv = Some url
                         | inl _ => int_status iv = Failed
                                    /\ videoUrl iv = interval s ≫= videoUrl
                         end
                      /\ forall old, interval s = Some old ->
                           int_id iv = int_id old
                           /\ startKeyframeId iv = startKeyframeId old
                           /\ endKeyframeId iv = endKeyframeId old
            else s' = s.
Proof.
  intros Hs Himg res model prompt n. subst res n.
  destruct w as [pw tr tk]. unfold handleGenerateVideo.
  rewrite Hs. cbn [mbind option_bind]. rewrite Himg.
  fold model. fold prompt. cbn [tick project trace].
  destruct (nonEmpty (int_id <$> interval shot)) as [id|]; step_handler;
    (match goal with |- context [videoResult env ?n] =>
       destruct (videoResult env n) as [e|url] end);
    step_handler; try destruct (apiKeyErrorHandled env e); step_handler;
    (split; [reflexivity|]; split;
     [ rewrite !videoRequests_app; simpl; now rewrite ?app_nil_r, <- ?app_assoc |]);
    intros i s Hi;
    rewrite mapShot_mapShot by reflexivity;
    rewrite shots_mapShot, Hi; cbn [fmap option_fmap option_map];
    (eexists; split; [reflexivity|]);
    (destruct (String.eqb (shot_id s) (shot_id shot)); [|reflexivity]);
    (split; [reflexivity|]);
    destruct (interval s) as [old|]; cbn;
    (eexists; split; [reflexivity|]);
    (split; [reflexivity|]); (split; [split; reflexivity|]);
    intros ? [= <-]; repeat split.
Qed.

Lemma video_generation_outcome_witness :
  let shot := Demo.shot "s1" (Some [Demo.completedKeyframe "k1" Start "img://start"]) in
  let p := Demo.projectOf [shot] in
  let env := Demo.env (fun _ => inr "img://1") false in
  videoRequests (trace (snd (handleGenerateVideo env p shot (mkWorld p [] 0))))
  = [(buildVideoPrompt "A knight rides" "Zoom In Shot" Sora2 "English",
      "img://start", None, Sora2)].
Proof.
  intros shot p env.
  exact (proj1 (proj2 (video_generation_outcome env p shot (mkWorld p [] 0)
                         (Demo.completedKeyframe "k1" Start "img://start") "img://start"
                         eq_refl eq_refl))).
Defined.

End VideoOutcome.

(** ** Saving an edit *)

Section SaveEdit.

Lemma findKeyframe_editKeyframes frameType text s type :
  findKeyframe (editKeyframes frameType text s) type
  = (fun kf => if bool_decide (Some type = frameType)
               then withVisualPrompt kf text else kf) <$> findKeyframe s type.
Proof.
  unfold findKeyframe, editKeyframes. cbn [keyframes withKeyframes mbind option_bind].
  destruct (keyframes s) as [l|]; [|reflexivity].
  change (default [] (Some l)) with l. cbn [mbind option_bind].
  induction l as [|a l IH]; [reflexivity|].
  cbn [map]. rewrite !find_cons. cbv beta.
  assert (Ht : kf_type (if bool_decide (Some (kf_type a) = frameType)
                        then withVisualPrompt a text else a) = kf_type a)
    by now destruct (bool_decide (Some (kf_type a) = frameType)).
  rewrite Ht.
  destruct (bool_decide (kf_type a = type)) eqn:E; [|exact IH].
  apply bool_decide_eq_true in E. subst type. reflexivity.
Qed.

Lemma sansPrompt_editKeyframes frameType text s :
  keyframeSansPrompt <$> default [] (keyframes (editKeyframes frameType text s))
  = keyframeSansPrompt <$> default [] (keyframes s).
Proof.
  unfold editKeyframes. cbn [keyframes withKeyframes].
  match goal with |- context [default [] (Some ?x)] =>
    change (default [] (Some x)) with x end.
  generalize (default [] (keyframes s)). intros l.
  induction l as [|a l IH]; [reflexivity|].
  cbn [map]. rewrite !fmap_cons. f_equal; [|exact IH].
  now destruct (bool_decide (Some (kf_type a) = frameType)).
Qed.

(** X12: [handleSaveEdit] never throws and calls nothing; whatever is
    edited, every shot keeps its id, the number and order of its keyframes
    with their ids, types, images and statuses, and its interval but for
    the video prompt (no interval is created).  Saving a keyframe prompt
    for a frame type puts the text into the keyframe of that type of the
    shots with the active shot's id and leaves the other type alone. *)
Theorem save_edit_changes_only_text
    (closure : ProjectState) (activeShotId : option string)
    (editModal : option EditModal) (w : World) :
  let res := handleSaveEdit closure activeShotId editModal w in
  fst res = Ret tt
  /\ trace (snd res) = trace w
  /\ forall i s,
       shots (project w) !! i = Some s ->
       exists s',
         shots (project (snd res)) !! i = Some s'
         /\ shot_id s' = shot_id s
         /\ keyframeSansPrompt <$> default [] (keyframes s')
            = keyframeSansPrompt <$> default [] (keyframes s)
         /\ intervalSansPrompt <$> interval s' = intervalSansPrompt <$> interval s
         /\ forall cur text type,
              at_ (shots closure) (activeShotIndexOf closure activeShotId) = Some cur ->
              editModal = Some (mkEditModal EditKeyframe text (Some type)) ->
              shot_id s = shot_id cur ->
              findKeyframe s' type
              = (fun kf => withVisualPrompt kf text) <$> findKeyframe s type
              /\ forall other, other <> type ->
                   findKeyframe s' other = findKeyframe s other.
Proof.
  intros res. subst res. destruct w as [pw tr tk]. unfold handleSaveEdit.
  destruct editModal as [[ty value ft]|];
    [destruct (at_ (shots closure) _) as [cur|]; [destruct ty|]|];
    cbn [em_type em_value em_frameType]; step_handler;
    (split; [reflexivity|]; split; [reflexivity|]); intros i s Hi;
    rewrite ?shots_mapShot, Hi; cbn [fmap option_fmap option_map];
    (eexists; split; [reflexivity|]);
    try (repeat split; congruence).
  - destruct (String.eqb (shot_id s) (shot_id cur));
      repeat split; try congruence.
  - destruct (String.eqb_spec (shot_id s) (shot_id cur)) as [Hid|Hid].
    + split; [reflexivity|]. split; [apply sansPrompt_editKeyframes|].
      split; [reflexivity|].
      intros cur' text type [= <-] [= -> ->] _.
      split.
      * rewrite findKeyframe_editKeyframes.
        now rewrite bool_decide_eq_true_2 by reflexivity.
      * intros other Hne. rewrite findKeyframe_editKeyframes.
        rewrite bool_decide_eq_false_2 by congruence.
        now destruct (findKeyframe s other).
    + split; [reflexivity|]. split; [reflexivity|]. split; [reflexivity|].
      intros cur' text type [= <-] _ Hid'. congruence.
  - destruct (String.eqb (shot_id s) (shot_id cur));
      [|repeat split; congruence].
    split; [reflexivity|]. split; [reflexivity|].
    split; [now destruct (interval s)|]. congruence.
Qed.

Lemma save_edit_changes_only_text_witness :
  let shot := Demo.shot "s1" (Some [Demo.completedKeyframe "k1" Start "img://start"]) in
  let p := Demo.projectOf [shot] in
  exists s',
    shots (project (snd (handleSaveEdit p (Some "s1")
                           (Some (mkEditModal EditKeyframe "A dragon lands" (Some Start)))
                           (mkWorld p [] 0)))) !! 0%nat = Some s'
    /\ findKeyframe s' Start
       = Some (mkKeyframe "k1" Start "A dragon lands" (Some "img://start") Completed).
Proof.
  intros shot p.
  destruct (proj2 (proj2 (save_edit_changes_only_text p (Some "s1")
                            (Some (mkEditModal EditKeyframe "A dragon lands" (Some Start)))
                            (mkWorld p [] 0))) 0%nat shot eq_refl)
    as (s' & Hs' & _ & _ & _ & Hkf).
  exists s'. split; [exact Hs'|].
  rewrite (proj1 (Hkf shot "A dragon lands" Start eq_refl eq_refl eq_refl)).
  reflexivity.
Defined.

(** X13: once the keyframe of a type stores a non-empty prompt, the
    action summary of the shot no longer enters the prompt of that
    keyframe: after an edit of the action summary, [handleGenerateKeyframe]
    assembles the same prompt and sends the same request as before the
    edit. *)
Theorem action_summary_edit_misses_stored_prompt
    (env : Env) (closure : ProjectState) (shot : Shot) (type : FrameType)
    (text stored : string) (w : World) :
  visualPrompt <$> findKeyframe shot type = Some stored ->
  stored <> "" ->
  generatedPrompt closure (withActionSummary shot text) type
  = generatedPrompt closure shot type
  /\ imageRequests (trace (snd (handleGenerateKeyframe env closure
                                  (withActionSummary shot text) type w)))
     = imageRequests (trace (snd (handleGenerateKeyframe env closure shot type w))).
Proof.
  intros Hstored Hne.
  assert (Hprompt : generatedPrompt closure (withActionSummary shot text) type
                    = generatedPrompt closure shot type).
  { unfold generatedPrompt.
    change (findKeyframe (withActionSummary shot text) type) with (findKeyframe shot type).
    rewrite Hstored. cbn [cameraMovement withActionSummary actionSummary].
    f_equal. unfold keyframeBasePrompt, nonEmpty.
    apply String.eqb_neq in Hne. rewrite Hne.
    unfold extractBasePrompt. destruct (0 <? Js.indexOf stored styleMarker); [reflexivity|].
    unfold Js.orDefault, Js.truthy. now rewrite Hne. }
  split; [exact Hprompt|].
  destruct (handleGenerateKeyframe_run env closure (withActionSummary shot text) type w)
    as (w1 & E1 & R1).
  destruct (handleGenerateKeyframe_run env closure shot type w) as (w2 & E2 & R2).
  rewrite E1, E2. cbn [snd]. rewrite R1, R2, Hprompt. reflexivity.
Qed.

Lemma action_summary_edit_misses_stored_prompt_witness :
  let shot := Demo.shot "s1" (Some [Demo.completedKeyframe "k1" Start "img://start"]) in
  let p := Demo.projectOf [shot] in
  generatedPrompt p (withActionSummary shot "A dragon lands") Start
  = generatedPrompt p shot Start.
Proof.
  intros shot p.
  refine (proj1 (action_summary_edit_misses_stored_prompt
                   (Demo.env (fun _ => inr "img://1") false) p shot Start
                   "A dragon lands" "A knight rides" (mkWorld p [] 0) eq_refl _)).
  discriminate.
Defined.

End SaveEdit.

(** ** Pacing and progress of the batch *)

Section BatchPacing.

(** an iteration of the loop: the wait (from the second shot on), the
    progress report, the generation; the loop then goes on, whatever the
    generation met *)
Lemma batchLoop_cons env p total i shot todo w :
  batchLoop env p total i (shot :: todo) w
  = batchLoop env p total (S i) todo
      (snd (handleGenerateKeyframe env p shot Start
              (mkWorld (project w)
                 (trace w
                  ++ (if (0 <? i)%nat then [EDelay DEFAULTS.batchGenerateDelay] else [])
                  ++ [ESetBatchProgress (Some ((i + 1)%nat, total, progressMessage i total))])
                 (tick w)))).
Proof.
  destruct w as [pw tr tk]. cbn [batchLoop project trace tick].
  destruct (0 <? i)%nat; step_handler;
    rewrite <- ?app_assoc; cbn [app];
    (match goal with
     | |- context [handleGenerateKeyframe env p shot Start ?w0] =>
         destruct (handleGenerateKeyframe_run env p shot Start w0) as (w1 & E & _);
         rewrite E
     end); reflexivity.
Qed.





End BatchPacing.

(** ** A batch whose requests all succeed *)

Section BatchCompletion.

Context (env : Env).
Hypothesis service_answers :
  forall n, exists url, imageResult env n = inr url /\ url <> "".

Lemma generatedKeyframe_has_image closure shot w :
  kf_type (generatedKeyframe env closure shot Start w) = Start
  /\ Js.truthy (imageUrl (generatedKeyframe env closure shot Start w)) = true.
Proof.
  unfold generatedKeyframe.
  destruct (service_answers (answerTick shot Start w)) as (url & -> & Hne).
  split; [reflexivity|]. cbn [imageUrl createKeyframe Js.truthy].
  apply String.eqb_neq in Hne. now rewrite Hne.
Qed.

(** every shot has a start image once the loop is through the shots that
    lacked one *)
Lemma batchLoop_completes p total todo :
  forall i w,
    (forall s, s ∈ shots (project w) ->
               hasImage s Start = true \/ shot_id s ∈ shot_id <$> todo) ->
    Forall (fun s => hasImage s Start = true)
           (shots (project (snd (batchLoop env p total i todo w)))).
Proof.
  induction todo as [|shot todo IH]; intros i w Hinv.
  - destruct w as [pw tr tk]. cbn. apply Forall_forall. intros s Hs.
    destruct (Hinv s Hs) as [H|H]; [exact H|]. now apply elem_of_nil in H.
  - rewrite batchLoop_cons. apply IH. intros s Hs.
    match type of Hs with
    | context [handleGenerateKeyframe env p shot Start ?w0] =>
        destruct (handleGenerateKeyframe_effect env p shot Start w0) as [_ Hproj];
        destruct (generatedKeyframe_has_image p shot w0) as [Htype Himg];
        rewrite Hproj in Hs
    end.
    cbn [project] in Hs. unfold mapShot in Hs. cbn [shots withShots] in Hs.
    apply list_elem_of_fmap in Hs as (s0 & -> & Hs0).
    destruct (String.eqb_spec (shot_id s0) (shot_id shot)) as [Hid|Hid].
    + left. unfold hasImage. rewrite (findKeyframe_update _ _ _ Htype). exact Himg.
    + destruct (Hinv s0 Hs0) as [H|H]; [now left|]. right.
      rewrite fmap_cons in H. apply elem_of_cons in H as [H|H]; [congruence | exact H].
Qed.

(** X15: when the image service answers every request with a non-empty
    address, a batch started on the current project (and confirmed, if it
    asks) ends with a start image in every shot, whether or not shot ids
    repeat. *)
Theorem batch_success_completes (p : ProjectState) (w : World) :
  project w = p ->
  (allStartFramesGenerated p = true -> confirmResult env (tick w) = true) ->
  Forall (fun s => hasImage s Start = true)
         (shots (project (snd (handleBatchGenerateImages env p w)))).
Proof.
  intros Hw Hconfirm. destruct w as [pw tr tk]. cbn [project tick] in *. subst pw.
  unfold handleBatchGenerateImages.
  destruct (allStartFramesGenerated p) eqn:Hall; step_handler.
  - rewrite (Hconfirm eq_refl). step_handler.
    destruct (length (shotsToProcess true p) =? 0)%nat eqn:Hlen; step_handler.
    + cbn. unfold allStartFramesGenerated in Hall.
      apply andb_prop in Hall as [_ Hall]. apply Forall_forall. intros s Hs.
      apply list_elem_of_In in Hs. exact (proj1 (forallb_forall _ _) Hall s Hs).
    + apply batchLoop_completes. cbn [project]. intros s Hs. right.
      now apply list_elem_of_fmap_2.
  - destruct (length (shotsToProcess false p) =? 0)%nat eqn:Hlen; step_handler.
    + cbn. apply Nat.eqb_eq, nil_length_inv in Hlen.
      apply Forall_forall. intros s Hs.
      destruct (hasImage s Start) eqn:Himg; [reflexivity|].
      assert (Hin : In s (shotsToProcess false p)).
      { apply filter_In. split; [now apply list_elem_of_In | now rewrite Himg]. }
      rewrite Hlen in Hin. destruct Hin.
    + apply batchLoop_completes. cbn [project]. intros s Hs.
      destruct (hasImage s Start) eqn:Himg; [now left | right].
      apply list_elem_of_fmap_2. apply list_elem_of_In.
      apply filter_In. split; [now apply list_elem_of_In | now rewrite Himg].
Qed.

End BatchCompletion.

Lemma batch_success_completes_witness :
  let p := Demo.projectOf [Demo.shot "s1" None; Demo.shot "s1" None; Demo.shot "s2" None] in
  let env := Demo.env (fun _ => inr "img://new") false in
  Forall (fun s => hasImage s Start = true)
         (shots (project (snd (handleBatchGenerateImages env p (mkWorld p [] 0))))).
Proof.
  intros p env.
  apply (batch_success_completes env).
  - intros n. exists "img://new". split; [reflexivity | discriminate].
  - reflexivity.
  - vm_compute. discriminate.
Defined.

(** ** The cast of a shot and its reference images *)

Section Cast.

Lemma getRefImagesForShot_resolve shot scriptData :
  getRefImagesForShot shot scriptData = resolveReferences shot scriptData.
Proof.
  destruct scriptData as [sd|]; [|reflexivity].
  unfold getRefImagesForShot, resolveReferences, sceneImage.
  destruct (find _ (sd_scenes sd)) as [scene|]; simpl.
  - destruct (nonEmpty (scene_referenceImage scene)); simpl;
      (destruct (characters shot); simpl;
       [now rewrite fold_pushCharacterImage | reflexivity]).
  - destruct (characters shot); simpl;
      [now rewrite fold_pushCharacterImage | reflexivity].
Qed.

Lemma filter_key_delete (charId : string) (m : gmap string string) :
  filter (fun kv : string * string => fst kv <> charId) m = delete charId m.
Proof.
  apply map_eq. intros k. apply option_eq. intros v.
  rewrite map_lookup_filter_Some, lookup_delete_Some. simpl. intuition congruence.
Qed.

(** the image of a character depends on the shot only through the
    variation chosen for that character *)
Lemma characterImage_ext sd s s' c :
  (characterVariations s ≫= (fun m => m !! c))
  = (characterVariations s' ≫= (fun m => m !! c)) ->
  characterImage sd s c = characterImage sd s' c.
Proof.
  intros H. unfold characterImage, selectedVariationImage. now rewrite H.
Qed.

Lemma omap_ext_in {A B} (f g : A -> option B) (l : list A) :
  (forall x, x ∈ l -> f x = g x) -> omap f l = omap g l.
Proof.
  induction l as [|a l IH]; intros H; [reflexivity|].
  cbn [omap list_omap]. rewrite (H a) by apply list_elem_of_here.
  rewrite IH; [reflexivity|]. intros x Hx. apply H. now apply list_elem_of_further.
Qed.

(** X16: removing a character from a shot drops the character from the
    cast and forgets the variation chosen for it, which is what the
    single-file stage does with [delete]; the reference images of the shot
    are then the scene image followed by the images of the remaining
    characters, each with the variation it had. *)
Theorem remove_character_keeps_the_rest
    (charId : string) (s s' : Shot) (sd : ScriptData) :
  onRemoveCharacter charId s = Some s' ->
  LegacyStage.handleRemoveCharacter charId s = Some s'
  /\ ~ In charId (default [] (characters s'))
  /\ (characterVariations s' ≫= (fun m => m !! charId)) = None
  /\ getRefImagesForShot s' (Some sd)
     = option_list (sceneImage sd s)
       ++ omap (characterImage sd s)
               (List.filter (fun id => negb (String.eqb id charId))
                            (default [] (characters s))).
Proof.
  unfold onRemoveCharacter, LegacyStage.handleRemoveCharacter.
  destruct (characters s) as [chars|] eqn:Hchars; [|discriminate].
  cbn [mbind option_bind]. rewrite filter_key_delete. intros [= <-].
  split; [reflexivity|]. cbn [characters characterVariations withCast default].
  split; [|split].
  - intros Hin. apply filter_In in Hin as [_ Hne].
    now rewrite String.eqb_refl in Hne.
  - cbn [mbind option_bind]. apply lookup_delete_eq.
  - rewrite getRefImagesForShot_resolve. unfold resolveReferences.
    cbn [characters withCast default]. f_equal.
    apply omap_ext_in. intros c Hc. apply characterImage_ext.
    cbn [characterVariations withCast mbind option_bind].
    apply list_elem_of_In, filter_In in Hc as [_ Hne].
    apply negb_true_iff, String.eqb_neq in Hne.
    rewrite lookup_delete_ne by congruence.
    destruct (characterVariations s); [reflexivity | apply lookup_empty].
Qed.

Lemma remove_character_keeps_the_rest_witness :
  let s := mkShot "s1" "sc1" "A knight rides" "Zoom In Shot"
                  (Some ["c1"; "c2"]) (Some {[ "c1" := "v1" ]}) None None None in
  LegacyStage.handleRemoveCharacter "c1" s
  = Some (mkShot "s1" "sc1" "A knight rides" "Zoom In Shot"
                 (Some ["c2"]) (Some (filter (fun kv : string * string => fst kv <> "c1")
                                             {[ "c1" := "v1" ]})) None None None).
Proof.
  intros s.
  exact (proj1 (remove_character_keeps_the_rest "c1" s _
                  (mkScriptData [] [] None None) eq_refl)).
Defined.

(** X17: adding a character appends it to the cast even when it is
    already there, so its image is appended to the reference images once
    more; the single-file stage leaves the shot alone in that case, and
    does the same as the workbench callback otherwise. *)
Theorem add_character_appends_image
    (charId : string) (s s' : Shot) (sd : ScriptData) :
  onAddCharacter charId s = Some s' ->
  getRefImagesForShot s' (Some sd)
  = getRefImagesForShot s (Some sd) ++ option_list (characterImage sd s charId)
  /\ (In charId (default [] (characters s)) ->
      LegacyStage.handleAddCharacter charId s = Some s /\ s' <> s)
  /\ (~ In charId (default [] (characters s)) ->
      LegacyStage.handleAddCharacter charId s = Some s').
Proof.
  unfold onAddCharacter, LegacyStage.handleAddCharacter.
  destruct (characters s) as [chars|] eqn:Hchars; [|discriminate].
  cbn [mbind option_bind default]. intros [= <-].
  split; [|split].
  - rewrite !getRefImagesForShot_resolve. unfold resolveReferences.
    cbn [characters withCast]. rewrite Hchars. cbn [default id].
    set (s' := withCast s (Some (chars ++ [charId])) (characterVariations s)).
    assert (Hsame : forall c, characterImage sd s' c = characterImage sd s c)
      by (intros c; now apply characterImage_ext).
    rewrite (omap_ext_in _ (characterImage sd s) _ (fun c _ => Hsame c)).
    change (sceneImage sd s') with (sceneImage sd s).
    rewrite omap_app, app_assoc. reflexivity.
  - intros Hin.
    assert (Hex : existsb (String.eqb charId) chars = true).
    { apply existsb_exists. exists charId. split; [exact Hin | apply String.eqb_refl]. }
    rewrite Hex. split; [reflexivity|].
    intros E. apply (f_equal characters) in E. cbn [characters withCast] in E.
    rewrite Hchars in E. injection E as E.
    apply (f_equal (@length string)) in E. rewrite length_app in E. simpl in E. lia.
  - intros Hnin.
    destruct (existsb (String.eqb charId) chars) eqn:Hex; [|reflexivity].
    apply existsb_exists in Hex as (x & Hx & Heq).
    apply String.eqb_eq in Heq. subst x. contradiction.
Qed.

Lemma add_character_appends_image_witness :
  let s := mkShot "s1" "sc1" "A knight rides" "Zoom In Shot"
                  (Some ["c1"]) None None None None in
  let sd := mkScriptData [mkCharacter "c1" "Knight" (Some "img://c1") None] [] None None in
  getRefImagesForShot (withCast s (Some ["c1"; "c1"]) None) (Some sd)
  = getRefImagesForShot s (Some sd) ++ option_list (characterImage sd s "c1").
Proof.
  intros s sd.
  exact (proj1 (add_character_appends_image "c1" s _ sd eq_refl)).
Defined.

(** X18: choosing a variation that exists and has an image makes every
    occurrence of the character in the cast contribute that image; the
    other characters contribute what they did before. *)
Theorem variation_change_swaps_image
    (charId varId : string) (s : Shot) (sd : ScriptData)
    (char : Character) (variation : Variation) (img : string) :
  varId <> "" ->
  find (fun c => String.eqb (char_id c) charId) (sd_characters sd) = Some char ->
  variations char ≫= find (fun v => String.eqb (var_id v) varId) = Some variation ->
  nonEmpty (var_referenceImage variation) = Some img ->
  getRefImagesForShot (onVariationChange charId varId s) (Some sd)
  = option_list (sceneImage sd s)
    ++ omap (fun c => if String.eqb c charId then Some img else characterImage sd s c)
            (default [] (characters s)).
Proof.
  intros Hne Hchar Hvar Himg.
  rewrite getRefImagesForShot_resolve. unfold resolveReferences.
  cbn [characters onVariationChange withCast]. f_equal.
  apply omap_ext_in. intros c _.
  destruct (String.eqb_spec c charId) as [->|Hc].
  - unfold characterImage, selectedVariationImage. rewrite Hchar.
    cbn [mbind option_bind characterVariations onVariationChange withCast].
    rewrite lookup_insert_eq.
    assert (Hn : nonEmpty (Some varId) = Some varId).
    { unfold nonEmpty. apply String.eqb_neq in Hne. now rewrite Hne. }
    rewrite Hn.
    cbn [mbind option_bind]. rewrite Hvar. cbn [mbind option_bind].
    now rewrite Himg.
  - apply characterImage_ext.
    cbn [mbind option_bind characterVariations onVariationChange withCast].
    rewrite lookup_insert_ne by congruence.
    destruct (characterVariations s); cbn [mbind option_bind default];
      rewrite ?lookup_empty; reflexivity.
Qed.

Lemma variation_change_swaps_image_witness :
  let s := mkShot "s1" "sc1" "A knight rides" "Zoom In Shot"
                  (Some ["c1"; "c2"; "c1"]) None None None None in
  let armour := mkVariation "v1" "Armour" (Some "img://c1-armour") in
  let c1 := mkCharacter "c1" "Knight" (Some "img://c1") (Some [armour]) in
  let c2 := mkCharacter "c2" "Squire" (Some "img://c2") None in
  let sd := mkScriptData [c1; c2] [] None None in
  getRefImagesForShot (onVariationChange "c1" "v1" s) (Some sd)
  = ["img://c1-armour"; "img://c2"; "img://c1-armour"].
Proof.
  intros s armour c1 c2 sd.
  rewrite (variation_change_swaps_image "c1" "v1" s sd c1 armour "img://c1-armour");
    [reflexivity | discriminate | reflexivity | reflexivity | reflexivity].
Defined.

End Cast.

(** ** Interleaved keyframe operations *)

Section Interleaving.







End Interleaving.

(** ** The single-file stage and the modular stage *)

Section LegacyKeyframes.

Lemma alter_cons_0 {A} (f : A -> A) (a : A) (l : list A) :
  alter f 0%nat (a :: l) = f a :: l.
Proof. reflexivity. Qed.

Lemma alter_cons_S {A} (f : A -> A) (a : A) (l : list A) (i : nat) :
  alter f (S i) (a :: l) = a :: alter f i l.
Proof. reflexivity. Qed.

(** marking the first element that passes the test, right after it was
    written, is writing the marked element *)
Lemma mark_replaceOrPush {A} (p : A -> bool) (f : A -> A) (l : list A) (x : A) :
  p x = true ->
  match findIndex p (replaceOrPush p l x) with
  | Some i => alter f i (replaceOrPush p l x)
  | None => replaceOrPush p l x
  end = replaceOrPush p l (f x).
Proof.
  intros Hx. induction l as [|a l IH].
  - rewrite !replaceOrPush_nil, findIndex_cons, Hx. reflexivity.
  - rewrite !replaceOrPush_cons. destruct (p a) eqn:E.
    + rewrite findIndex_cons, Hx. reflexivity.
    + rewrite findIndex_cons, E.
      destruct (findIndex p (replaceOrPush p l x)) as [i|]; cbn [fmap option_fmap option_map].
      * rewrite alter_cons_S. now rewrite IH.
      * now rewrite IH.
Qed.

Lemma markFailed_after_write type s kf :
  kf_type kf = type ->
  LegacyStage.markFailed type (updateKeyframeInShot s type kf)
  = updateKeyframeInShot s type (LegacyStage.withStatus kf Failed).
Proof.
  intros Ht. unfold LegacyStage.markFailed.
  rewrite updateKeyframeInShot_keyframes.
  change (default [] (Some ?l)) with l.
  rewrite (mark_replaceOrPush (fun k => bool_decide (kf_type k = type)))
    by now apply bool_decide_eq_true.
  reflexivity.
Qed.

Lemma legacy_style_prompt style :
  style <> "anime" ->
  lookupProp LegacyStage.stylePrompts style = lookupProp VISUAL_STYLE_PROMPTS style.
Proof.
  intros Hne. unfold lookupProp, LegacyStage.stylePrompts, VISUAL_STYLE_PROMPTS.
  rewrite !find_cons. cbn [fst snd].
  destruct (String.eqb "live-action" style); [reflexivity|].
  destruct (String.eqb_spec "anime" style) as [E|_]; [congruence|].
  reflexivity.
Qed.

Lemma legacy_base_prompt shot type :
  LegacyStage.basePromptOf (findKeyframe shot type) shot
  = keyframeBasePrompt (visualPrompt <$> findKeyframe shot type) (actionSummary shot).
Proof.
  unfold LegacyStage.basePromptOf, keyframeBasePrompt.
  destruct (nonEmpty (visualPrompt <$> findKeyframe shot type)) as [vp|] eqn:E;
    [|reflexivity].
  unfold extractBasePrompt.
  destruct (0 <? Js.indexOf vp styleMarker); [reflexivity|].
  destruct (visualPrompt <$> findKeyframe shot type) as [vp'|]; [|discriminate].
  unfold nonEmpty in E. unfold Js.orDefault, Js.truthy.
  destruct (String.eqb vp' "") eqn:E'; [discriminate|].
  injection E as <-. now rewrite E'.
Qed.

(** X20: for every visual style but [anime], whose description is spelled
    differently in the two style tables, the keyframe generation of the
    single-file stage and that of the modular stage do the same: same
    outcome, same events with the same prompt, same project afterwards,
    also when the image service fails (marking the keyframe just written as
    failed is writing a failed keyframe). *)
Theorem modular_generation_matches_single_file
    (env : Env) (closure : ProjectState) (shot : Shot) (type : FrameType) (w : World) :
  projectVisualStyle closure <> "anime" ->
  LegacyStage.handleGenerateKeyframe env closure shot type w
  = handleGenerateKeyframe env closure shot type w.
Proof.
  intros Hstyle. destruct w as [pw tr tk].
  unfold LegacyStage.handleGenerateKeyframe, handleGenerateKeyframe, keyframeId.
  rewrite legacy_base_prompt, (legacy_style_prompt _ Hstyle).
  fold (buildKeyframePrompt
          (keyframeBasePrompt (visualPrompt <$> findKeyframe shot type) (actionSummary shot))
          (projectVisualStyle closure) (cameraMovement shot) type).
  set (prompt := buildKeyframePrompt _ _ _ _).
  set (refs := getRefImagesForShot _ _).
  assert (Hfail : forall kfId,
            mapShot (shot_id shot) (LegacyStage.markFailed type)
              (mapShot (shot_id shot)
                 (fun s => updateKeyframeInShot s type
                             (mkKeyframe kfId type prompt None Generating)) pw)
            = mapShot (shot_id shot)
                (fun s => updateKeyframeInShot s type
                            (createKeyframe kfId type prompt None Failed))
                (mapShot (shot_id shot)
                   (fun s => updateKeyframeInShot s type
                               (createKeyframe kfId type prompt None Generating)) pw)).
  { intros kfId.
    rewrite (put_twice (shot_id shot) type
               (createKeyframe kfId type prompt None Generating)
               (createKeyframe kfId type prompt None Failed) pw eq_refl).
    rewrite mapShot_mapShot by reflexivity.
    apply mapShot_ext. intros s. now rewrite markFailed_after_write. }
  destruct (nonEmpty (kf_id <$> findKeyframe shot type)) as [id|]; step_handler;
    (match goal with |- context [imageResult env ?n] =>
       destruct (imageResult env n) as [e|url] end);
    step_handler; try destruct (apiKeyErrorHandled env e); step_handler;
    rewrite ?Hfail; reflexivity.
Qed.

Lemma modular_generation_matches_single_file_witness :
  let shot := Demo.shot "s1" None in
  let p := mkProject [shot] (Some "cyberpunk") (Some "English") None in
  let env := Demo.env (fun _ => inl (mkError "quota")) false in
  LegacyStage.handleGenerateKeyframe env p shot Start (mkWorld p [] 0)
  = handleGenerateKeyframe env p shot Start (mkWorld p [] 0).
Proof.
  intros shot p env.
  apply modular_generation_matches_single_file. vm_compute. discriminate.
Defined.

End LegacyKeyframes.

Section LegacyFailure.

Lemma find_elem {A} (p : A -> bool) (l : list A) (x : A) :
  find p l = Some x -> x ∈ l /\ p x = true.
Proof.
  induction l as [|a l IH]; [discriminate|].
  rewrite find_cons. destruct (p a) eqn:E.
  - intros [= <-]. split; [apply list_elem_of_here | exact E].
  - intros H. destruct (IH H). split; [now apply list_elem_of_further | assumption].
Qed.

(** marking the first element that passes [p]: the element found by
    [p] is the marked one, what another test finds is as before *)
Lemma find_mark_same {A} (p : A -> bool) (f : A -> A) (l : list A) :
  (forall x, p (f x) = p x) ->
  find p match findIndex p l with
         | Some i => alter f i l
         | None => l
         end
  = f <$> find p l.
Proof.
  intros Hp. induction l as [|a l IH]; [reflexivity|].
  rewrite findIndex_cons. destruct (p a) eqn:E.
  - rewrite alter_cons_0, !find_cons, Hp, E. reflexivity.
  - destruct (findIndex p l) as [i|]; cbn [fmap option_fmap option_map].
    + rewrite alter_cons_S, !find_cons, E. exact IH.
    + rewrite !find_cons, E. exact IH.
Qed.

Lemma find_mark_other {A} (p q : A -> bool) (f : A -> A) (l : list A) :
  (forall x, q (f x) = q x) -> (forall x, p x = true -> q x = false) ->
  find q match findIndex p l with
         | Some i => alter f i l
         | None => l
         end
  = find q l.
Proof.
  intros Hq Hpq. induction l as [|a l IH]; [reflexivity|].
  rewrite findIndex_cons. destruct (p a) eqn:E.
  - rewrite alter_cons_0, !find_cons, Hq, (Hpq a E). reflexivity.
  - destruct (findIndex p l) as [i|]; cbn [fmap option_fmap option_map].
    + rewrite alter_cons_S, !find_cons. destruct (q a); [reflexivity | exact IH].
    + reflexivity.
Qed.

(** X21: the failure branch of the single-file stage only sets the status
    of the keyframe it finds: id, prompt and image stay, and the keyframe
    of the other type is left alone.  Run on a keyframe that carries an
    image (one uploaded while the generation was under way), it leaves a
    failed keyframe with an image, which the failure branch of the modular
    stage, writing a keyframe without image, cannot. *)
Theorem single_file_failure_keeps_image (type : FrameType) (s : Shot) (kf : Keyframe) :
  findKeyframe s type = Some kf ->
  findKeyframe (LegacyStage.markFailed type s) type
  = Some (mkKeyframe (kf_id kf) (kf_type kf) (visualPrompt kf) (imageUrl kf) Failed)
  /\ (forall other, other <> type ->
        findKeyframe (LegacyStage.markFailed type s) other = findKeyframe s other)
  /\ (is_Some (imageUrl kf) -> ~ shotOk (LegacyStage.markFailed type s))
  /\ forall id prompt,
       shotOk s ->
       shotOk (updateKeyframeInShot s type (createKeyframe id type prompt None Failed)).
Proof.
  intros Hkf.
  assert (Hfind : findKeyframe (LegacyStage.markFailed type s) type
                  = Some (LegacyStage.withStatus kf Failed)).
  { unfold findKeyframe, LegacyStage.markFailed in *.
    cbn [keyframes withKeyframes mbind option_bind].
    rewrite (find_mark_same (fun k => bool_decide (kf_type k = type))) by reflexivity.
    destruct (keyframes s) as [l|]; [|discriminate].
    cbn [mbind option_bind] in Hkf. change (default [] (Some l)) with l.
    now rewrite Hkf. }
  split; [exact Hfind|]. split; [|split].
  - intros other Hne. unfold findKeyframe, LegacyStage.markFailed.
    cbn [keyframes withKeyframes mbind option_bind].
    rewrite (find_mark_other (fun k => bool_decide (kf_type k = type))).
    + destruct (keyframes s) as [l|]; reflexivity.
    + reflexivity.
    + intros x Hx. apply bool_decide_eq_true in Hx.
      apply bool_decide_eq_false. congruence.
  - intros Himg Hok. unfold findKeyframe in Hfind.
    destruct (keyframes (LegacyStage.markFailed type s)) as [l|] eqn:El; [|discriminate].
    cbn [mbind option_bind] in Hfind. apply find_elem in Hfind as [Hin _].
    unfold shotOk in Hok. rewrite El in Hok. change (default [] (Some l)) with l in Hok.
    pose proof (proj1 (Forall_forall _ _) Hok _ Hin) as [Hcompleted _].
    cbn [imageUrl kf_status LegacyStage.withStatus] in Hcompleted.
    specialize (Hcompleted Himg). discriminate.
  - intros id prompt Hok. apply shotOk_updateKeyframeInShot; [|exact Hok].
    now apply keyframeOk_without_image.
Qed.

Lemma single_file_failure_keeps_image_witness :
  let s := Demo.shot "s1" (Some [Demo.completedKeyframe "k1" Start "img://upload"]) in
  findKeyframe (LegacyStage.markFailed Start s) Start
  = Some (mkKeyframe "k1" Start "A knight rides" (Some "img://upload") Failed).
Proof.
  intros s.
  exact (proj1 (single_file_failure_keeps_image Start s
                  (Demo.completedKeyframe "k1" Start "img://upload") eq_refl)).
Defined.

End LegacyFailure.

Section LegacyNavigation.

Lemma findIndex_NoDup (l : list Shot) (i : nat) (s : Shot) :
  NoDup (shot_id <$> l) -> l !! i = Some s ->
  findIndex (fun s0 => bool_decide (Some (shot_id s0) = Some (shot_id s))) l = Some i.
Proof.
  revert i. induction l as [|a l IH]; intros i Hnd Hi; [discriminate|].
  rewrite fmap_cons in Hnd. apply NoDup_cons in Hnd as [Hnotin Hnd].
  rewrite findIndex_cons. destruct i as [|i].
  - injection Hi as ->. now rewrite bool_decide_eq_true_2.
  - cbn in Hi. rewrite bool_decide_eq_false_2.
    + now rewrite (IH i Hnd Hi).
    + intros [= E]. apply Hnotin. rewrite E.
      apply list_elem_of_fmap_2. eapply list_elem_of_lookup_2. exact Hi.
Qed.

Lemma activeShotIndexOf_NoDup p i s :
  NoDup (shot_id <$> shots p) -> shots p !! i = Some s ->
  activeShotIndexOf p (Some (shot_id s)) = Z.of_nat i.
Proof.
  intros Hnd Hi. unfold activeShotIndexOf. now rewrite (findIndex_NoDup _ i s Hnd Hi).
Qed.

Lemma at_nat {A} (l : list A) (i : nat) : at_ l (Z.of_nat i) = l !! i.
Proof.
  unfold at_. destruct (Z.ltb_spec (Z.of_nat i) 0); [lia|]. now rewrite Nat2Z.id.
Qed.

(** X22: in a project whose shot ids are pairwise distinct, the navigation
    of the single-file stage moves the selection from the shot at position
    [i] to its neighbour, and stays where it is at either end; when there
    is a next shot, going to it and back returns to the shot one started
    from. *)
Theorem navigation_moves_to_neighbour (p : ProjectState) (i : nat) (s : Shot) :
  NoDup (shot_id <$> shots p) ->
  shots p !! i = Some s ->
  LegacyStage.goToNextShot p (Some (shot_id s))
  = Some (default (shot_id s) (shot_id <$> shots p !! S i))
  /\ LegacyStage.goToPrevShot p (Some (shot_id s))
     = Some (default (shot_id s) (shot_id <$> shots p !! pred i))
  /\ (is_Some (shots p !! S i) ->
      LegacyStage.goToPrevShot p (LegacyStage.goToNextShot p (Some (shot_id s)))
      = Some (shot_id s)).
Proof.
  intros Hnd Hi.
  assert (Hnext : LegacyStage.goToNextShot p (Some (shot_id s))
                  = Some (default (shot_id s) (shot_id <$> shots p !! S i))).
  { unfold LegacyStage.goToNextShot. rewrite (activeShotIndexOf_NoDup p i s Hnd Hi).
    destruct (Z.ltb_spec (Z.of_nat i) (Z.of_nat (length (shots p)) - 1)) as [Hlt|Hge].
    - replace (Z.of_nat i + 1) with (Z.of_nat (S i)) by lia. rewrite at_nat.
      destruct (lookup_lt_is_Some_2 (shots p) (S i)) as [next Hn]; [lia|].
      now rewrite Hn.
    - rewrite (lookup_ge_None_2 (shots p) (S i)) by lia. reflexivity. }
  assert (Hprev : forall j t, shots p !! j = Some t ->
            LegacyStage.goToPrevShot p (Some (shot_id t))
            = Some (default (shot_id t) (shot_id <$> shots p !! pred j))).
  { intros j t Hj. unfold LegacyStage.goToPrevShot.
    rewrite (activeShotIndexOf_NoDup p j t Hnd Hj).
    destruct j as [|j].
    - cbn. now rewrite Hj.
    - replace (0 <? Z.of_nat (S j)) with true by (symmetry; apply Z.ltb_lt; lia).
      replace (Z.of_nat (S j) - 1) with (Z.of_nat j) by lia. rewrite at_nat.
      cbn [pred].
      destruct (lookup_lt_is_Some_2 (shots p) j) as [prev Hp];
        [apply lookup_lt_Some in Hj; lia|].
      now rewrite Hp. }
  split; [exact Hnext|]. split; [now apply Hprev|].
  intros [next Hn]. rewrite Hnext, Hn.
  change (default (shot_id s) (shot_id <$> Some next)) with (shot_id next).
  rewrite (Hprev (S i) next Hn). cbn [pred]. now rewrite Hi.
Qed.

Lemma navigation_moves_to_neighbour_witness :
  let p := Demo.projectOf [Demo.shot "s1" None; Demo.shot "s2" None] in
  LegacyStage.goToNextShot p (Some "s1") = Some "s2"
  /\ LegacyStage.goToPrevShot p (Some "s1") = Some "s1".
Proof.
  intros p.
  assert (Hnd : NoDup (shot_id <$> shots p)).
  { apply (bool_decide_unpack _). vm_compute. exact Logic.I. }
  destruct (navigation_moves_to_neighbour p 0 (Demo.shot "s1" None) Hnd eq_refl)
    as (Hnext & Hprev & _).
  split; [exact Hnext | exact Hprev].
Defined.

End LegacyNavigation.

Section LegacyVideo.

(** X23: the generate-video button of the single-file stage is enabled
    only for a shot whose start keyframe has an image, so a click never
    meets the refusal of the handler: the handler returns normally after
    exactly one request to the video service, made with that start image,
    the end image if the shot has one, and the shot's model or [sora-2]. *)
Theorem enabled_video_button_sends_request
    (env : Env) (closure : ProjectState) (shot : Shot) (w : World) :
  LegacyStage.videoButtonDisabled shot = false ->
  exists sKf startImage prompt,
    findKeyframe shot Start = Some sKf
    /\ imageUrl sKf = Some startImage
    /\ startImage <> ""
    /\ fst (Legacy.handleGenerateVideo env closure shot w) = Ret tt
    /\ videoRequests (trace (snd (Legacy.handleGenerateVideo env closure shot w)))
       = videoRequests (trace w)
         ++ [(prompt, startImage, findKeyframe shot End ≫= imageUrl,
              default Sora2 (videoModel shot))].
Proof.
  unfold LegacyStage.videoButtonDisabled. intros Hb.
  apply orb_false_elim in Hb as [Himg _]. apply negb_false_iff in Himg.
  destruct (findKeyframe shot Start) as [sKf|] eqn:Hs; [|discriminate].
  cbn [mbind option_bind] in Himg.
  destruct (imageUrl sKf) as [startImage|] eqn:Hurl; [|discriminate].
  cbn [Js.truthy] in Himg. apply negb_true_iff in Himg.
  exists sKf, startImage. eexists.
  split; [reflexivity|]. split; [exact Hurl|].
  split; [now apply String.eqb_neq|].
  destruct w as [pw tr tk]. unfold Legacy.handleGenerateVideo.
  rewrite ?Hs. cbn [mbind option_bind]. rewrite ?Hurl.
  assert (Hn : nonEmpty (Some startImage) = Some startImage)
    by (unfold nonEmpty; now rewrite Himg).
  rewrite Hn. cbn [tick project trace].
  destruct (interval shot) as [iv|];
    cbn [fmap option_fmap option_map];
    try destruct (nonEmpty (Some (int_id iv))) as [id|];
    cbn [nonEmpty]; step_handler;
    (match goal with |- context [videoResult env ?n] =>
       destruct (videoResult env n) as [e|url] end);
    step_handler; try destruct (apiKeyErrorHandled env e); step_handler;
    (split; [reflexivity|]);
    rewrite !videoRequests_app; simpl; rewrite ?app_nil_r, <- ?app_assoc; reflexivity.
Qed.

Lemma enabled_video_button_sends_request_witness :
  let shot := Demo.shot "s1" (Some [Demo.completedKeyframe "k1" Start "img://start"]) in
  let p := Demo.projectOf [shot] in
  let env := Demo.env (fun _ => inr "img://1") false in
  exists prompt,
    videoRequests (trace (snd (Legacy.handleGenerateVideo env p shot (mkWorld p [] 0))))
    = [(prompt, "img://start", None, Sora2)].
Proof.
  intros shot p env.
  destruct (enabled_video_button_sends_request env p shot (mkWorld p [] 0) eq_refl)
    as (sKf & startImage & prompt & Hs & Hurl & _ & _ & Hreq).
  injection Hs as <-. injection Hurl as <-.
  exists prompt. exact Hreq.
Defined.

(** X24: for the Veo model and a project in Chinese the prompt built from
    the template of the modular stage is the prompt the single-file stage
    writes out, as long as the action summary and the camera movement
    contain neither [$] nor an opening brace. *)
Theorem veo_prompt_matches_single_file (actionSummary cameraMovement : string) :
  lacks "$" actionSummary = true -> lacks "{" actionSummary = true ->
  lacks "$" cameraMovement = true -> lacks "{" cameraMovement = true ->
  buildVideoPrompt actionSummary cameraMovement VeoFast "中文"
  = Legacy.veoChinese actionSummary cameraMovement "中文".
Proof.
  intros Da Ha Dc Hc.
  destruct templates_weave as (_ & _ & Tv).
  transitivity (weave veoParts [actionSummary; cameraMovement; "中文"]);
    [|reflexivity].
  unfold buildVideoPrompt. rewrite Tv.
  replace (String.eqb "中文" "中文") with true by reflexivity. cbn [orb].
  unfold veoParts. apply replace_three; solve [assumption | reflexivity].
Qed.

Lemma veo_prompt_matches_single_file_witness :
  buildVideoPrompt "A knight rides" "Zoom In Shot" VeoFast "中文"
  = Legacy.veoChinese "A knight rides" "Zoom In Shot" "中文".
Proof.
  exact (veo_prompt_matches_single_file "A knight rides" "Zoom In Shot"
           eq_refl eq_refl eq_refl eq_refl).
Defined.

End LegacyVideo.

(** ** The batch of the single-file stage writes back its own copy *)

Section LegacyBatchCopy.

Lemma legacy_batchLoop_copy env p total todo :
  forall currentShots i w1 w2,
    tick w1 = tick w2 ->
    let out1 := snd (Legacy.batchLoop env p total i todo currentShots w1) in
    let out2 := snd (Legacy.batchLoop env p total i todo currentShots w2) in
    shots (project out1) = shots (project out2)
    \/ (project out1 = project w1 /\ project out2 = project w2).
Proof.
  induction todo as [|shot todo IH]; intros cs i [p1 tr1 tk1] [p2 tr2 tk2] Htick;
    cbn [tick] in Htick; subst tk2.
  - right. split; reflexivity.
  - cbn [Legacy.batchLoop]. unfold keyframeId.
    destruct (0 <? i)%nat;
      destruct (nonEmpty (kf_id <$> findKeyframe shot Start)) as [id|]; step_handler;
      (match goal with |- context [imageResult env ?n] =>
         destruct (imageResult env n) as [e|url] end);
      step_handler; try destruct (apiKeyErrorHandled env e); step_handler;
      try (right; split; reflexivity);
      (match goal with
       | |- context [Legacy.batchLoop env p total (S i) todo ?cs' ?w1'] =>
           match goal with
           | |- context [snd (Legacy.batchLoop env p total (S i) todo cs' ?w2')] =>
               lazymatch w2' with
               | w1' => fail
               | _ => destruct (IH cs' (S i) w1' w2' eq_refl) as [H|[H1 H2]]
               end
           end
       end);
      try (left; exact H);
      try (right; split; [exact H1 | exact H2]);
      left; cbn [project] in H1, H2; rewrite H1, H2; reflexivity.
Qed.

(** X25: the batch of the single-file stage keeps a copy of the shot list
    of its render and writes that copy back after every image it receives.
    So either it wrote nothing and the project is as it was, or the shot
    list it leaves does not depend on the project state it ran against:
    what had changed in the shots since the render is overwritten. *)
Theorem single_file_batch_overwrites_shots
    (env : Env) (closure : ProjectState) (w1 w2 : World) :
  tick w1 = tick w2 ->
  let out1 := snd (Legacy.handleBatchGenerateImages env closure w1) in
  let out2 := snd (Legacy.handleBatchGenerateImages env closure w2) in
  shots (project out1) = shots (project out2)
  \/ (project out1 = project w1 /\ project out2 = project w2).
Proof.
  destruct w1 as [p1 tr1 tk1], w2 as [p2 tr2 tk2]. cbn [tick]. intros <-.
  unfold Legacy.handleBatchGenerateImages.
  destruct (allStartFramesGenerated closure); step_handler.
  - destruct (confirmResult env tk1); step_handler; [|right; split; reflexivity].
    destruct (length (shotsToProcess true closure) =? 0)%nat; step_handler;
      [right; split; reflexivity|].
    match goal with
    | |- context [Legacy.batchLoop env closure ?n 0 ?todo ?cs ?w1'] =>
        match goal with
        | |- context [snd (Legacy.batchLoop env closure n 0 todo cs ?w2')] =>
            lazymatch w2' with
            | w1' => fail
            | _ => exact (legacy_batchLoop_copy env closure n todo cs 0%nat w1' w2' eq_refl)
            end
        end
    end.
  - destruct (length (shotsToProcess false closure) =? 0)%nat; step_handler;
      [right; split; reflexivity|].
    match goal with
    | |- context [Legacy.batchLoop env closure ?n 0 ?todo ?cs ?w1'] =>
        match goal with
        | |- context [snd (Legacy.batchLoop env closure n 0 todo cs ?w2')] =>
            lazymatch w2' with
            | w1' => fail
            | _ => exact (legacy_batchLoop_copy env closure n todo cs 0%nat w1' w2' eq_refl)
            end
        end
    end.
Qed.

Lemma single_file_batch_overwrites_shots_witness :
  let closure := Demo.projectOf [Demo.shot "s1" None] in
  let edited := Demo.projectOf [withActionSummary (Demo.shot "s1" None) "A dragon lands"] in
  let env := Demo.env (fun _ => inr "img://new") false in
  actionSummary <$> shots (project (snd (Legacy.handleBatchGenerateImages env closure
                                           (mkWorld edited [] 0))))
  = ["A knight rides"].
Proof.
  intros closure edited env.
  destruct (single_file_batch_overwrites_shots env closure
              (mkWorld edited [] 0) (mkWorld closure [] 0) eq_refl) as [H|[H _]].
  - rewrite H. reflexivity.
  - vm_compute in H. discriminate H.
Defined.

End LegacyBatchCopy.
